(** * Top-down evaluator (v1/topdown/eval.go): a shallow embedding

    The evaluator of eval.go is a recursive backtracking search written in
    continuation-passing style: every method takes an iterator (a callback
    returning [error]) and returns [error].  The embedding keeps that shape.
    A Go method [func (e *eval) m(iter) error] becomes a function
    [m ... iter : M S], where [M S := S -> Result * S] threads the mutable
    fields the method reads or writes and [Result := option Error] is Go's
    [error] ([None] is [nil]).

    Locations and trace events are left out: they do not take part in any
    comparison or control decision of the functions embedded here. *)

From Stdlib Require Import String ZArith Bool Lia Arith List Permutation.
Import ListNotations.

Set Implicit Arguments.
#[local] Set Warnings "-register-all".

(** ** Values (ast.Value) *)

(** A comprehension body is a compiled query; its evaluation is the query
    driver's job and is given to the functions below as a solution stream,
    so a body is referred to by the number of its compiled query. *)
Definition Body := nat.

Inductive Value : Type :=
| Null
| Boolean (b : bool)
| Number (n : Z)
| String (s : string)
| Var (name : string)
| Ref (terms : list Value)
| Array (elems : list Value)
| Object (items : list (Value * Value))
| SetV (elems : list Value)
| Call (terms : list Value)
| ArrayComprehension (term : Value) (body : Body)
| SetComprehension (term : Value) (body : Body)
| ObjectComprehension (key value : Value) (body : Body).

(** A [*ast.Term] is a value with a location; a nil term is [None]. *)
Definition Term := Value.
Definition Obj := list (Term * Term).

Fixpoint vsize (v : Value) : nat :=
  match v with
  | Ref l | Array l | SetV l | Call l =>
      S ((fix go (l : list Value) := match l with [] => 0 | x :: r => vsize x + go r end) l)
  | Object l =>
      S ((fix go (l : list (Value * Value)) :=
            match l with [] => 0 | (k, x) :: r => vsize k + vsize x + go r end) l)
  | ArrayComprehension t _ | SetComprehension t _ => S (vsize t)
  | ObjectComprehension k x _ => S (vsize k + vsize x)
  | _ => 1
  end.

Definition Value_eq_dec : forall a b : Value, {a = b} + {a <> b}.
Proof.
  fix IH 1.
  decide equality;
    try apply Z.eq_dec; try apply string_dec; try apply bool_dec;
    try apply Nat.eq_dec; try (apply list_eq_dec; exact IH).
  apply list_eq_dec. decide equality.
Defined.

(** [a.Equal(b)], [ast.Compare(a, b) == 0]. *)
Definition Equal (a b : Term) : bool :=
  if Value_eq_dec a b then true else false.

(** ** Objects (ast.Object): [Get], [Insert] *)

Fixpoint Get (obj : Obj) (k : Term) : option Term :=
  match obj with
  | [] => None
  | (k', v) :: rest => if Equal k' k then Some v else Get rest k
  end.

(** [obj.Insert(k, v)] overwrites the value of an existing key. *)
Fixpoint Insert (obj : Obj) (k v : Term) : Obj :=
  match obj with
  | [] => [(k, v)]
  | (k', v') :: rest =>
      if Equal k' k then (k', v) :: rest else (k', v') :: Insert rest k v
  end.

(** ** Errors and the evaluation monad *)

(** The conflict errors of the evaluator all carry code [ConflictErr]; they
    differ in the message their constructor function (completeDocConflictErr,
    functionConflictErr, objectDocKeyConflictErr, mergeConflictErr) puts in. *)
Inductive Conflict : Type :=
| completeDocConflict
| functionConflict
| objectDocKeyConflict
| mergeConflict
| withConflict (msg : string).

Inductive Error : Type :=
| CancelErr
| ConflictErr (c : Conflict)
| InternalErr (msg : string)
| UnsupportedBuiltinErr
| UnknownValueErr
| BuiltinErr (msg : string)
| Halt (err : Error)
| earlyExitError (prev : option Error)
| deferredEarlyExitError (prev : option Error).

Definition Result := option Error.

Definition M (S : Type) : Type := S -> Result * S.

Definition ret {S} (r : Result) : M S := fun st => (r, st).

(** [err := m; if err != nil { return err }; k] *)
Definition andThen {S} (m k : M S) : M S :=
  fun st => match m st with
            | (None, st') => k st'
            | (Some err, st') => (Some err, st')
            end.

(** [err := m; f; return err]: [f] runs whatever [m] returned. *)
Definition finally {S} (m : M S) (f : S -> S) : M S :=
  fun st => let (r, st') := m st in (r, f st').

Definition modify {S} (f : S -> S) : M S := fun st => (None, f st).

Notation "m ;; k" := (andThen m k) (at level 61, right associativity).

(** ** merge, mergeObjects (eval.go 4239-4286) *)

(** [objB.Foreach(func(k, v) { if objA.Get(k) == nil { result.Insert(k, v) } })] *)
Fixpoint mergeRest (objA objB result : Obj) : Obj :=
  match objB with
  | [] => result
  | (k, v) :: rest =>
      match Get objA k with
      | None => mergeRest objA rest (Insert result k v)
      | Some _ => mergeRest objA rest result
      end
  end.

(** [mergeObjects], by recursion on the first object.  The inner [until] is
    the callback loop [objA.Until(...)]: it returns the object built so far
    and whether the callback asked to stop. *)
Fixpoint mergeObjectsV (a : Value) (objB : Obj) {struct a} : Obj * bool :=
  match a with
  | Object objA =>
      let fix until (items result : Obj) {struct items} : Obj * bool :=
        match items with
        | [] => (result, false)
        | (k, v) :: rest =>
            match Get objB k with
            | None => until rest (Insert result k v)
            | Some v2 =>
                match v, v2 with
                | Object _, Object obj2 =>
                    let (obj3, ok) := mergeObjectsV v obj2 in
                    if ok then until rest (Insert result k (Object obj3))
                    else (result, true)
                | _, _ => until rest (Insert result k v)
                end
            end
        end in
      let (result, stop) := until objA [] in
      if stop then ([], false) else (mergeRest objA objB result, true)
  | _ => ([], false)
  end.

Definition mergeObjects (objA objB : Obj) : Obj * bool :=
  mergeObjectsV (Object objA) objB.

Definition merge (a b : Value) : Value * bool :=
  match a, b with
  | Object aObj, Object bObj =>
      let (r, ok) := mergeObjects aObj bObj in (Object r, ok)
  | _, _ => (a, true)
  end.

(** The [Until] loop of [mergeObjects], as a function of its own. *)
Fixpoint mergeUntil (objB items result : Obj) : Obj * bool :=
  match items with
  | [] => (result, false)
  | (k, v) :: rest =>
      match Get objB k with
      | None => mergeUntil objB rest (Insert result k v)
      | Some v2 =>
          match v, v2 with
          | Object obj1, Object obj2 =>
              let (obj3, ok) := mergeObjects obj1 obj2 in
              if ok then mergeUntil objB rest (Insert result k (Object obj3))
              else (result, true)
          | _, _ => mergeUntil objB rest (Insert result k v)
          end
      end
  end.

(** *** The resolver's data read (evalResolver.Resolve, resolveReadFromStorage) *)

(** What reading [ref] through [e.external] and [e.store] comes to: an error
    that is not a not-found error, nothing (unknown path or not found), or a
    value (already converted to an AST value). *)
Inductive ReadOutcome : Type :=
| ReadErr (err : Error)
| ReadNotFound
| ReadValue (v : Value).

Definition BaseCache := list (list Term * Value).

Fixpoint baseCacheGet (c : BaseCache) (ref : list Term) : option Value :=
  match c with
  | [] => None
  | (r, v) :: rest =>
      if list_eq_dec Value_eq_dec r ref then Some v else baseCacheGet rest ref
  end.

Definition baseCachePut (ref : list Term) (v : Value) (c : BaseCache) : BaseCache :=
  (ref, v) :: c.

(** [ast.IsScalar]: strings, numbers, booleans and null. *)
Definition IsScalar (v : Value) : bool :=
  match v with
  | String _ | Number _ | Boolean _ | Null => true
  | _ => false
  end.

Definition refContainsNonScalar (ref : list Term) : bool :=
  existsb (fun t => negb (IsScalar t)) (tl ref).

Definition resolveReadFromStorage (rd : ReadOutcome) (ref : list Term) (a : option Value)
  (c : BaseCache) : option Value * Result * BaseCache :=
  if refContainsNonScalar ref then (a, None, c)
  else match rd with
       | ReadErr err => (None, Some err, c)
       | ReadNotFound => (a, None, c)
       | ReadValue v =>
           let c' := baseCachePut ref v c in
           match a with
           | None => (Some v, None, c')
           | Some a' =>
               let (merged, ok) := merge a' v in
               if ok then (Some merged, None, c')
               else (None, Some (ConflictErr mergeConflict), c')
           end
       end.

(** The branch of [evalResolver.Resolve] for a reference rooted at [data]:
    [repValue] is what [e.data.Value.Find(ref[1:])] found in the replacement
    document and [prefixed] is [e.targetStack.Prefixed(ref)]. *)
Definition ResolveData (repValue : option Value) (prefixed : bool) (rd : ReadOutcome)
  (ref : list Term) (c : BaseCache) : option Value * Result * BaseCache :=
  if prefixed then (repValue, None, c)
  else match baseCacheGet c ref with
       | Some realValue =>
           match repValue with
           | None => (Some realValue, None, c)
           | Some rep =>
               let (merged, ok) := merge rep realValue in
               (Some merged, if ok then None else Some (ConflictErr mergeConflict), c)
           end
       | None => resolveReadFromStorage rd ref repValue c
       end.

Definition isObject (v : Value) : bool :=
  match v with Object _ => true | _ => false end.

(** ** Early exit (eval.go 46-60, 4297-4311) *)

Definition isEarlyExit (err : Error) : bool :=
  match err with
  | earlyExitError _ | deferredEarlyExitError _ => true
  | _ => false
  end.

Definition isDeferredEarlyExit (err : Error) : bool :=
  match err with
  | deferredEarlyExitError _ => true
  | _ => false
  end.

(** [wrapErr] of [evalExpr]: a frame that did not ask for one solution turns
    an early exit into a deferred one. *)
Definition wrapErr (findOne : bool) (err : Error) : Error :=
  if negb findOne then deferredEarlyExitError (Some err)
  else earlyExitError (Some err).

Definition suppressEarlyExit (err : Result) : Result :=
  match err with
  | Some (earlyExitError prev) => prev
  | Some (deferredEarlyExitError prev) => prev
  | _ => err
  end.

Definition withSuppressEarlyExit {S} (f : M S) : M S :=
  fun st => let (r, st') := f st in (suppressEarlyExit r, st').

(** ** The evaluator frame (type eval) and the state it shares *)

(** The fields of [eval] that the functions below read or assign.  [partial]
    is [e.saveSet != nil]. *)
Record eval : Type := mkEval {
  findOne : bool;
  defined : bool;
  partial : bool;
  index : nat;
  input : option Term;
  data : option Term
}.

Definition set_findOne (b : bool) (e : eval) : eval :=
  mkEval b (defined e) (partial e) (index e) (input e) (data e).
Definition set_defined (b : bool) (e : eval) : eval :=
  mkEval (findOne e) b (partial e) (index e) (input e) (data e).
Definition set_index (i : nat) (e : eval) : eval :=
  mkEval (findOne e) (defined e) (partial e) i (input e) (data e).
Definition set_input (t : option Term) (e : eval) : eval :=
  mkEval (findOne e) (defined e) (partial e) (index e) t (data e).
Definition set_data (t : option Term) (e : eval) : eval :=
  mkEval (findOne e) (defined e) (partial e) (index e) (input e) t.

(** [e.closure(query, cpy)]: [*cpy = *e], then the index, the query, the
    query id, the parent and [findOne] are assigned.  Every other field,
    [defined] among them, is the copy of [e]'s. *)
Definition closure (e : eval) : eval := set_findOne false (set_index 0 e).

(** [e.child(query, cpy)]: as [closure], with a fresh bindings frame. *)
Definition child (e : eval) : eval := set_findOne false (set_index 0 e).

(** ** Queries as solution streams *)

(** Evaluating a query walks its expressions; each time the walk gets past
    the last expression, [evalExpr] calls the iterator.  What the walk of one
    query does is given by the solutions it reaches, in order, each with the
    bindings in force there, and by the error (if any) that ends the walk.
    [B] is the type of bindings. *)
Record Search (B : Type) : Type := mkSearch {
  sols : list B;
  fin : Result
}.

Definition noSolution {B} (s : Search B) : bool :=
  match sols s with [] => true | _ :: _ => false end.

(** A generator calls [k] at each solution and returns the first error [k]
    returns.  (The loops of evalTree.enumerate and evalTerm.enumerate that
    remember a deferred early exit and go on with the next element are part
    of a walk; a stream describes the walk as seen by a callback that returns
    nil or an error that ends it.  Where an early exit crosses the frame of a
    rule that does not ask for one solution it becomes a deferred early exit,
    which the rule loops hold back while they go on: such a walk is not ended
    by the callback's error and is not described by a stream.) *)
Fixpoint enumerate {S B} (l : list B) (r : Result) (k : B -> M S) : M S :=
  match l with
  | [] => ret r
  | b :: rest => k b ;; enumerate rest r k
  end.

(** [evalExpr] once [e.index >= len(e.query)] (eval.go 387-401). *)
Definition evalExprEnd {S} (e : eval) (iter : M S) : M S :=
  fun st =>
    match iter st with
    | (Some err, st') =>
        (Some (if isEarlyExit err then wrapErr (findOne e) err else err), st')
    | (None, st') =>
        if findOne e && negb (partial e) then (Some (earlyExitError None), st')
        else (None, st')
    end.

(** [c.eval(iter)] for a frame [c] made by [closure] or [child] whose query
    has the solutions [s]. *)
Definition evalQuery {S B} (c : eval) (s : Search B) (iter : B -> M S) : M S :=
  enumerate (sols s) (fin s) (fun b => evalExprEnd c (iter b)).

(** ** Shared state *)

Definition Reference := list Term.

(** Modelled from the spec: the virtual cache (cache.go is not part of the
    sources at hand) maps a reference to a term; an entry may be nil, meaning
    the rule was evaluated and is undefined, and a reader tells "no entry"
    from "negative entry".  Scopes are pushed and popped around [with]; a
    lookup or an insertion is in the current scope. *)
Definition VCScope := list (Reference * option Term).
Definition VirtualCache := list VCScope.

Fixpoint scopeGet (sc : VCScope) (k : Reference) : option (option Term) :=
  match sc with
  | [] => None
  | (k', v) :: rest =>
      if list_eq_dec Value_eq_dec k' k then Some v else scopeGet rest k
  end.

(** [virtualCache.Get(k)] returns the term and whether the entry is the
    negative one. *)
Definition vcGet (c : VirtualCache) (k : Reference) : option Term * bool :=
  match c with
  | [] => (None, false)
  | sc :: _ =>
      match scopeGet sc k with
      | Some (Some t) => (Some t, false)
      | Some None => (None, true)
      | None => (None, false)
      end
  end.

Definition vcPut (k : Reference) (v : option Term) (c : VirtualCache) : VirtualCache :=
  match c with
  | [] => [[(k, v)]]
  | sc :: rest => ((k, v) :: sc) :: rest
  end.

(** Modelled from the spec: the comprehension cache, the target stack, the
    function mocks and the inlining controls are stacks of scopes (their
    files are not part of the sources at hand).  [evalWithPush] creates a
    stack that is still nil before it pushes; a nil stack is the empty
    list. *)
Definition CCScope := list (Term * list (list Term * Term)).

Record Heap : Type := mkHeap {
  virtualCache : VirtualCache;
  comprehensionCache : list CCScope;
  targetStack : list (list Reference);
  functionMocks : list (list (Term * Term));
  inliningControl : list (list Reference);
  builtinErrors : list Error;
  virtualCacheHit : nat;
  virtualCacheMiss : nat;
  ndBuiltinCache : list (string * list Term * Value)
}.

Definition set_virtualCache (f : VirtualCache -> VirtualCache) (h : Heap) : Heap :=
  mkHeap (f (virtualCache h)) (comprehensionCache h) (targetStack h)
    (functionMocks h) (inliningControl h) (builtinErrors h)
    (virtualCacheHit h) (virtualCacheMiss h) (ndBuiltinCache h).
Definition set_comprehensionCache (f : list CCScope -> list CCScope) (h : Heap) : Heap :=
  mkHeap (virtualCache h) (f (comprehensionCache h)) (targetStack h)
    (functionMocks h) (inliningControl h) (builtinErrors h)
    (virtualCacheHit h) (virtualCacheMiss h) (ndBuiltinCache h).
Definition set_targetStack (f : list (list Reference) -> list (list Reference)) (h : Heap) : Heap :=
  mkHeap (virtualCache h) (comprehensionCache h) (f (targetStack h))
    (functionMocks h) (inliningControl h) (builtinErrors h)
    (virtualCacheHit h) (virtualCacheMiss h) (ndBuiltinCache h).
Definition set_functionMocks (f : list (list (Term * Term)) -> list (list (Term * Term)))
  (h : Heap) : Heap :=
  mkHeap (virtualCache h) (comprehensionCache h) (targetStack h)
    (f (functionMocks h)) (inliningControl h) (builtinErrors h)
    (virtualCacheHit h) (virtualCacheMiss h) (ndBuiltinCache h).
Definition set_inliningControl (f : list (list Reference) -> list (list Reference))
  (h : Heap) : Heap :=
  mkHeap (virtualCache h) (comprehensionCache h) (targetStack h)
    (functionMocks h) (f (inliningControl h)) (builtinErrors h)
    (virtualCacheHit h) (virtualCacheMiss h) (ndBuiltinCache h).
Definition set_builtinErrors (f : list Error -> list Error) (h : Heap) : Heap :=
  mkHeap (virtualCache h) (comprehensionCache h) (targetStack h)
    (functionMocks h) (inliningControl h) (f (builtinErrors h))
    (virtualCacheHit h) (virtualCacheMiss h) (ndBuiltinCache h).
Definition incr_virtualCacheHit (h : Heap) : Heap :=
  mkHeap (virtualCache h) (comprehensionCache h) (targetStack h)
    (functionMocks h) (inliningControl h) (builtinErrors h)
    (S (virtualCacheHit h)) (virtualCacheMiss h) (ndBuiltinCache h).
Definition incr_virtualCacheMiss (h : Heap) : Heap :=
  mkHeap (virtualCache h) (comprehensionCache h) (targetStack h)
    (functionMocks h) (inliningControl h) (builtinErrors h)
    (virtualCacheHit h) (S (virtualCacheMiss h)) (ndBuiltinCache h).
Definition set_ndBuiltinCache
  (f : list (string * list Term * Value) -> list (string * list Term * Value))
  (h : Heap) : Heap :=
  mkHeap (virtualCache h) (comprehensionCache h) (targetStack h)
    (functionMocks h) (inliningControl h) (builtinErrors h)
    (virtualCacheHit h) (virtualCacheMiss h) (f (ndBuiltinCache h)).

(** The state of a method of [e]: the frame [e] points to and the objects it
    shares with the other frames of the query. *)
Definition St : Type := eval * Heap.

Definition onFrame (f : eval -> eval) : St -> St := fun st => (f (fst st), snd st).
Definition onHeap (f : Heap -> Heap) : St -> St := fun st => (fst st, f (snd st)).

(** ** Negation: evalNot (eval.go 563-600) *)

Section EvalNot.

Variable S : Type.

(** [saveRequired(...)] for the negated expression. *)
Variable saveRequired : bool.

Variable evalNotPartial : M (eval * S) -> M (eval * S).

(** [child.eval(iter)] for the closure [child] over the complement: the
    state is [child]'s frame together with the state of [e]. *)
Variable complementEval : M (eval * (eval * S)) -> M (eval * (eval * S)).

(** [e.unknown(x, b)] *)
Definition unknown (e : eval) : bool := partial e && saveRequired.

Definition evalNot (iter : M (eval * S)) : M (eval * S) :=
  fun st =>
    let e := fst st in
    if unknown e then evalNotPartial iter st
    else
      let c := closure e in
      match complementEval (modify (fun cst => (set_defined true (fst cst), snd cst))) (c, st) with
      | (Some err, (_, st')) => (Some err, st')
      | (None, (c', st')) =>
          if negb (defined c') then iter st' else (None, st')
      end.

End EvalNot.

(** The complement as a stream of solutions. *)
Definition streamEval {S B} (s : Search B) (iter : M (eval * S)) : M (eval * S) :=
  fun cst => evalQuery (fst cst) s (fun _ => iter) cst.

(** ** with: evalWith, evalWithPush, evalWithPop (eval.go 602-754) *)

(** [ref.HasPrefix(ast.InputRootRef)], [ref.HasPrefix(ast.DefaultRootRef)] *)
Definition isInputRef (t : Term) : bool :=
  match t with
  | Ref (Var "input" :: _) => true
  | _ => false
  end.

Definition isDataRef (t : Term) : bool :=
  match t with
  | Ref (Var "data" :: _) => true
  | _ => false
  end.

(** A [with] modifier: target and value. *)
Record With : Type := mkWith { Target : Term; WithValue : Term }.

Definition refOf (t : Term) : Reference :=
  match t with Ref r => r | _ => [] end.

Section EvalWith.

(** [isFunction(e.compiler.TypeEnv, target)] and whether [e.builtinFunc]
    knows the target's name. *)
Variable isFunction : Term -> bool.
Variable isBuiltin : Term -> bool.

(** [e.bindings.Plug] *)
Variable Plug : Term -> Term.

(** The modifiers of the expression at [e.index], split into input pairs,
    data pairs, function mocks and targets (eval.go 646-673). *)
Fixpoint partitionWith (ws : list With)
  : list (Term * Term) * list (Term * Term) * list (Term * Term) * list Reference :=
  match ws with
  | [] => ([], [], [], [])
  | w :: rest =>
      let '(pairsInput, pairsData, mocks, targets) := partitionWith rest in
      let target := Target w in
      let plugged := Plug (WithValue w) in
      if isFunction target then
        (pairsInput, pairsData, (target, plugged) :: mocks, refOf target :: targets)
      else if isInputRef target then
        ((target, plugged) :: pairsInput, pairsData, mocks, refOf target :: targets)
      else if isDataRef target then
        (pairsInput, (target, plugged) :: pairsData, mocks, refOf target :: targets)
      else if isBuiltin target then
        (pairsInput, pairsData, (target, plugged) :: mocks, targets)
      else (pairsInput, pairsData, mocks, refOf target :: targets)
  end.

(** [mergeTermWithValues(exist, pairs)] is not among the sources at hand; it
    returns the merged term (possibly nil) or an error message. *)
Variable mergeTermWithValues : option Term -> list (Term * Term) -> option Term + string.

(** The partial-evaluation preamble (eval.go 608-644): whether a replacement
    value is unknown, the references on which inlining is disabled, and
    [saveExprMarkUnknowns]. *)
Variable withValueUnknown : bool.
Variable disable : list Reference.
Variable saveExprMarkUnknowns : M St -> M St.

(** [e.evalExpr], and [e.evalStep] for the expression at [e.index]; the
    callback of [evalStep] assigns the variables [oldInput], [oldData] of
    [evalWith], which is the [L] part of its state. *)
Variable evalExpr : M St -> M St.
Variable evalStep : forall L : Type, M (L * St) -> M (L * St).

Definition next (iter : M St) : M St :=
  fun st =>
    let (e, h) := st in
    let (err, st') := evalExpr iter (set_index (S (index e)) e, h) in
    (err, onFrame (fun e' => set_index (pred (index e')) e') st').

Definition evalWithPush (input' data' : option Term) (mocks : list (Term * Term))
  (targets dis : list Reference) (st : St) : (option Term * option Term) * St :=
  let (e, h) := st in
  let (oldInput, e1) :=
    match input' with
    | Some _ => (input e, set_input input' e)
    | None => (None, e)
    end in
  let (oldData, e2) :=
    match data' with
    | Some _ => (data e1, set_data data' e1)
    | None => (None, e1)
    end in
  let h1 := set_comprehensionCache (cons []) h in
  let h2 := set_virtualCache (cons []) h1 in
  let h3 := set_targetStack (cons targets) h2 in
  let h4 := set_inliningControl (cons dis) h3 in
  let h5 := set_functionMocks (cons mocks) h4 in
  ((oldInput, oldData), (e2, h5)).

Definition evalWithPop (input' data' : option Term) (st : St) : St :=
  let (e, h) := st in
  let h1 := set_inliningControl (@tl _) h in
  let h2 := set_targetStack (@tl _) h1 in
  let h3 := set_virtualCache (@tl _) h2 in
  let h4 := set_comprehensionCache (@tl _) h3 in
  let h5 := set_functionMocks (@tl _) h4 in
  (set_input input' (set_data data' e), h5).

Definition evalWith (ws : list With) (iter : M St) : M St :=
  fun st =>
    if partial (fst st) && withValueUnknown then saveExprMarkUnknowns (next iter) st
    else
      let '(pairsInput, pairsData, mocks, targets) := partitionWith ws in
      match mergeTermWithValues (input (fst st)) pairsInput with
      | inr msg => (Some (ConflictErr (withConflict msg)), st)
      | inl input' =>
          match mergeTermWithValues (data (fst st)) pairsData with
          | inr msg => (Some (ConflictErr (withConflict msg)), st)
          | inl data' =>
              let (old, st1) := evalWithPush input' data' mocks targets disable st in
              let '(err, (old', st2)) :=
                evalStep
                  (fun (ls : (option Term * option Term) * St) =>
                     let (old0, s) := ls in
                     let s1 := evalWithPop (fst old0) (snd old0) s in
                     let (err, s2) := next iter s1 in
                     (err, evalWithPush input' data' mocks targets disable s2))
                  (old, st1) in
              (err, evalWithPop (fst old') (snd old') st2)
          end
      end.

End EvalWith.

(** [evalStep] for an expression with the solutions [s]. *)
Definition stepStream {B} (s : Search B) (L : Type) (iter : M (L * St)) : M (L * St) :=
  enumerate (sols s) (fin s) (fun _ => iter).

(** What [with] replaces for the time of one expression: the input term, the
    data term, the function mocks, the targets, and the scopes of the virtual
    cache and of the comprehension cache. *)
Definition withFrame (st : St)
  : option Term * option Term * list (list (Term * Term)) * list (list Reference)
    * VirtualCache * list CCScope :=
  (input (fst st), data (fst st), functionMocks (snd st), targetStack (snd st),
   virtualCache (snd st), comprehensionCache (snd st)).

(** ** Built-in calls: evalBuiltin.eval (eval.go 1927-2042) *)

(** What [evalBuiltin] reads of the declaration [e.bi]. *)
Record Builtin : Type := mkBuiltin {
  Name : string;
  Arity : nat;                (* e.bi.Decl.Arity() *)
  HasResult : bool;           (* e.bi.Decl.Result() != nil *)
  Nondeterministic : bool
}.

Fixpoint ndbGet (c : list (string * list Term * Value)) (name : string) (ops : list Term)
  : option Value :=
  match c with
  | [] => None
  | (n, o, v) :: rest =>
      if string_dec n name then
        if list_eq_dec Value_eq_dec o ops then Some v else ndbGet rest name ops
      else ndbGet rest name ops
  end.

Section EvalBuiltin.

Variable Plug : Term -> Term.
Variable bi : Builtin.

(** [e.bctx != nil && e.bctx.NDBuiltinCache != nil] *)
Variable hasNDBCache : bool.

(** The implementation [e.f], applied to the context: it gets the operands
    and the callback for its output. *)
Variable f : list Term -> (Term -> M St) -> M St.

(** [e.e.unify] *)
Variable unify : Term -> Term -> M St -> M St.

Variable terms : list Term.

Definition canUseNDBCache : bool := Nondeterministic bi && hasNDBCache.

Definition isFalse (v : Value) : bool := Equal (Boolean false) v.

Definition operandsOf : list Term := map Plug terms.

Definition endIndex : nat :=
  if Arity bi <? length operandsOf then pred (length operandsOf)
  else length operandsOf.

(** How the output (or a cached result) of the built-in is handled. *)
Definition handleOutput (iter : M St) (output : Value) : M St :=
  if negb (HasResult bi) then iter
  else if length operandsOf =? Arity bi then
    if negb (isFalse output) then iter else ret None
  else unify (nth endIndex terms Null) output iter.

(** The callback handed to the implementation: an error of the continuation
    is wrapped into [Halt]. *)
Definition builtinCallback (iter : M St) (output : Term) : M St :=
  fun s =>
    let (err, s1) := handleOutput iter output s in
    let s2 :=
      if canUseNDBCache
      then onHeap (set_ndBuiltinCache
                     (cons (Name bi, firstn endIndex operandsOf, output))) s1
      else s1 in
    (match err with Some x => Some (Halt x) | None => None end, s2).

Definition ndbLookup (st : St) : option Value :=
  if canUseNDBCache
  then ndbGet (ndBuiltinCache (snd st)) (Name bi) (firstn endIndex operandsOf)
  else None.

Definition evalBuiltin (iter : M St) : M St :=
  fun st =>
    match ndbLookup st with
    | Some v => handleOutput iter v st
    | None =>
        match f operandsOf (builtinCallback iter) st with
        | (Some (Halt x), st') => (Some x, st')
        | (Some err, st') => (None, onHeap (set_builtinErrors (fun l => l ++ [err])) st')
        | (None, st') => (None, st')
        end
    end.

End EvalBuiltin.

(** ** Rules and index results (ast.Rule, ast.IndexResult) *)

Record Rule : Type := mkRule {
  ruleId : nat;
  HeadArgs : list Term;
  HeadValue : Term;
  RuleBody : Body
}.

Record IndexResult : Type := mkIndexResult {
  Rules : list Rule;
  Else : Rule -> list Rule;
  Default : option Rule;
  EarlyExit : bool
}.

(** The variables [result] and [prev] that the callback of a rule's
    evaluation assigns. *)
Definition RuleVars : Type := option Term * option Term.

(** ** Functions: evalFunc (eval.go 2044-2284) *)

Section EvalFunc.

(** Bindings of a rule's frame at a solution, and [child.bindings.Plug]. *)
Variable B : Type.
Variable PlugIn : B -> Term -> Term.

(** [e.e.bindings.Plug], [term.IsGround()] and [e.e.unify]. *)
Variable Plug : Term -> Term.
Variable IsGround : Term -> bool.
Variable unify : Term -> Term -> M St -> M St.

(** [e.e.saveSet.Contains(rule.Head.Value, child.bindings)] and
    [e.e.saveExpr(ast.NewExpr(rule.Head.Value), child.bindings, iter)]. *)
Variable saveContains : B -> Term -> bool.
Variable saveExpr : B -> Term -> M St -> M St.

(** [child.biunifyTerms(e.terms[1:], args, ..., func() error { return
    child.eval(iter) })] for the frame [child] of a rule: the callback is
    called with the bindings of each solution. *)
Variable evalRule : Rule -> eval -> forall T : Type, (B -> M T) -> M T.

(** [e.terms]: the function's reference, then the operands. *)
Variable terms : list Term.
Variable ir : IndexResult.

(** Whether the call leaves the output out: [len(rule.Head.Args) ==
    len(e.terms)-1]. *)
Definition noOutput (argCount : nat) : bool := argCount =? pred (length terms).

Definition evalCache (argCount : nat) (iter : M St)
  : St -> (option Reference * bool * Result) * St :=
  fun st =>
    let plen :=
      if length terms =? argCount + 2 then pred (length terms) else length terms in
    let cacheKey :=
      map (fun t => if IsGround t then t else Plug t) (firstn plen terms) in
    match fst (vcGet (virtualCache (snd st)) cacheKey) with
    | Some cached =>
        let st1 := onHeap incr_virtualCacheHit st in
        if noOutput argCount then
          if isFalse cached then ((None, true, None), st1)
          else let (err, st2) := iter st1 in ((None, true, err), st2)
        else
          let (err, st2) := unify (last terms Null) cached iter st1 in
          ((None, true, err), st2)
    | None => ((Some cacheKey, false, None), onHeap incr_virtualCacheMiss st)
    end.

(** The callback [evalOneRule] hands to [child.eval]; it assigns the
    variables [result] and [prev]. *)
Definition evalOneRuleCallback (iter : M St) (rule : Rule) (cacheKey : option Reference)
  (b : B) : M (RuleVars * St) :=
  fun vs =>
    let '((result, prev), s) := vs in
    if noOutput (length (HeadArgs rule)) && saveContains b (HeadValue rule) then
      let (err, s') := saveExpr b (HeadValue rule) iter s in
      (err, ((result, prev), s'))
    else
      let r := PlugIn b (HeadValue rule) in
      let s1 :=
        match cacheKey with
        | Some k => onHeap (set_virtualCache (vcPut k (Some r))) s
        | None => s
        end in
      if noOutput (length (HeadArgs rule)) && isFalse r then
        match prev with
        | Some p =>
            if negb (Equal p r)
            then (Some (ConflictErr functionConflict), ((Some r, prev), s1))
            else (None, ((Some r, Some r), s1))
        | None => (None, ((Some r, Some r), s1))
        end
      else
        match prev with
        | Some p =>
            if negb (partial (fst s1)) then
              if negb (Equal p r)
              then (Some (ConflictErr functionConflict), ((Some r, prev), s1))
              else (None, ((Some r, prev), s1))
            else
              let (err, s2) := iter s1 in (err, ((Some r, Some r), s2))
        | None =>
            let (err, s2) := iter s1 in (err, ((Some r, Some r), s2))
        end.

Definition evalOneRule (iter : M St) (rule : Rule) (cacheKey : option Reference)
  (prev : option Term) (fOne : bool) : St -> (option Term * Result) * St :=
  fun st =>
    let c := set_findOne fOne (child (fst st)) in
    let '(err, ((result, _), st')) :=
      evalRule rule c (evalOneRuleCallback iter rule cacheKey) ((None, prev), st) in
    ((result, err), st').

(** The else chain of a rule that gave no result: the loop stops at the first
    else rule with a result.  [outerEe] is the first deferred early exit seen
    so far.  The result is an error to return at once, or the result and the
    deferred early exit. *)
Fixpoint evalElse (iter : M St) (erules : list Rule) (cacheKey : option Reference)
  (prev : option Term) (fOne : bool) (outerEe : Result)
  : St -> (Error + option Term * Result) * St :=
  fun st =>
    match erules with
    | [] => (inr (None, outerEe), st)
    | erule :: rest =>
        let '((nxt, err), st1) := evalOneRule iter erule cacheKey prev fOne st in
        match err with
        | Some x =>
            if isDeferredEarlyExit x then
              let outerEe' := match outerEe with None => Some x | _ => outerEe end in
              match nxt with
              | Some _ => (inr (nxt, outerEe'), st1)
              | None => evalElse iter rest cacheKey prev fOne outerEe' st1
              end
            else (inl x, st1)
        | None =>
            match nxt with
            | Some _ => (inr (nxt, outerEe), st1)
            | None => evalElse iter rest cacheKey prev fOne outerEe st1
            end
        end
    end.

(** The loop over [e.ir.Rules]; it ends with the default rule. *)
Fixpoint evalRules (iter : M St) (rules : list Rule) (cacheKey : option Reference)
  (prev : option Term) (fOne : bool) (outerEe : Result) : M St :=
  fun st =>
    match rules with
    | [] =>
        match Default ir, prev with
        | Some d, None =>
            let '((_, err), st1) := evalOneRule iter d cacheKey prev fOne st in
            (err, st1)
        | _, _ => (outerEe, st)
        end
    | rule :: rest =>
        let '(res, st1) := evalElse iter (rule :: Else ir rule) cacheKey prev fOne outerEe st in
        match res with
        | inl x => (Some x, st1)
        | inr (nxt, outerEe') =>
            let prev' := match nxt with Some _ => nxt | None => prev end in
            evalRules iter rest cacheKey prev' fOne outerEe' st1
        end
    end.

Definition evalFuncValue (iter : M St) (argCount : nat) (fOne : bool) : M St :=
  fun st =>
    let go (cacheKey : option Reference) : M St :=
      withSuppressEarlyExit (evalRules iter (Rules ir) cacheKey None fOne None) in
    if negb (partial (fst st)) then
      let '((cacheKey, hit, err), st1) := evalCache argCount iter st in
      match err with
      | Some x => (Some x, st1)
      | None => if hit then (None, st1) else go cacheKey st1
      end
    else go None st.

End EvalFunc.

(** A rule's evaluation as a stream of solutions.  The solutions are given
    with the rule: they do not depend on the frame [c], whose field [defined]
    [child] copies and [evalNot] reads ([negationRules] below is an evaluator
    of rules that does depend on it). *)
Definition ruleStream {B} (s : Rule -> Search B) (rule : Rule) (c : eval) (T : Type)
  (iter : B -> M T) : M T :=
  evalQuery c (s rule) iter.

(** ** Complete documents: evalVirtualComplete (eval.go 3438-3583) *)

Section EvalVirtualComplete.

Variable B : Type.
Variable PlugIn : B -> Term -> Term.

(** [child.bindings.apply(rule.Head.Value)] *)
Variable applyIn : B -> Term -> Term * B.

(** [e.evalTerm(iter, term, termbindings)]; the bindings are [None] for
    [e.bindings]. *)
Variable evalTerm : Term -> option B -> M St -> M St.

(** [child.eval(iter)] for the frame [child] of a rule. *)
Variable evalBody : Rule -> eval -> forall T : Type, (B -> M T) -> M T.

Variable ir : IndexResult.

(** [e.plugged[:e.pos+1]] *)
Variable key : Reference.

(** The callback [evalValueRule] hands to [child.eval]; it assigns the
    variables [result] and [prev]. *)
Definition evalValueRuleCallback (iter : M St) (rule : Rule) (b : B) : M (RuleVars * St) :=
  fun vs =>
    let '((_, prev), s) := vs in
    let r := PlugIn b (HeadValue rule) in
    match prev with
    | Some p =>
        if negb (Equal r p)
        then (Some (ConflictErr completeDocConflict), ((Some r, prev), s))
        else (None, ((Some r, prev), s))
    | None =>
        let s1 := onHeap (set_virtualCache (vcPut key (Some r))) s in
        let (t, tb) := applyIn b (HeadValue rule) in
        let (err, s2) := evalTerm t (Some tb) iter s1 in
        (err, ((Some r, Some r), s2))
    end.

Definition evalValueRule (iter : M St) (rule : Rule) (prev : option Term) (fOne : bool)
  : St -> (option Term * Result) * St :=
  fun st =>
    let c := set_findOne fOne (child (fst st)) in
    let '(err, ((result, _), st')) :=
      evalBody rule c (evalValueRuleCallback iter rule) ((None, prev), st) in
    ((result, err), st').

Fixpoint evalValueElse (iter : M St) (erules : list Rule) (prev : option Term)
  (fOne : bool) (deferredEe : Result) : St -> (Error + option Term * Result) * St :=
  fun st =>
    match erules with
    | [] => (inr (None, deferredEe), st)
    | erule :: rest =>
        let '((nxt, err), st1) := evalValueRule iter erule prev fOne st in
        match err with
        | Some x =>
            if isDeferredEarlyExit x then
              let dee := match deferredEe with None => Some x | _ => deferredEe end in
              match nxt with
              | Some _ => (inr (nxt, dee), st1)
              | None => evalValueElse iter rest prev fOne dee st1
              end
            else (inl x, st1)
        | None =>
            match nxt with
            | Some _ => (inr (nxt, deferredEe), st1)
            | None => evalValueElse iter rest prev fOne deferredEe st1
            end
        end
    end.

Fixpoint evalValueRules (iter : M St) (rules : list Rule) (prev : option Term)
  (fOne : bool) (deferredEe : Result) : M St :=
  fun st =>
    match rules with
    | [] =>
        match Default ir, prev with
        | Some d, None =>
            let '((_, err), st1) := evalValueRule iter d prev fOne st in
            (err, st1)
        | _, _ =>
            let st1 :=
              match prev with
              | None => onHeap (set_virtualCache (vcPut key None)) st
              | Some _ => st
              end in
            (deferredEe, st1)
        end
    | rule :: rest =>
        let '(res, st1) := evalValueElse iter (rule :: Else ir rule) prev fOne deferredEe st in
        match res with
        | inl x => (Some x, st1)
        | inr (nxt, dee) =>
            let prev' := match nxt with Some _ => nxt | None => prev end in
            evalValueRules iter rest prev' fOne dee st1
        end
    end.

Definition evalValue (iter : M St) (fOne : bool) : M St :=
  fun st =>
    match vcGet (virtualCache (snd st)) key with
    | (_, true) => (None, onHeap incr_virtualCacheHit st)
    | (Some cached, false) => evalTerm cached None iter (onHeap incr_virtualCacheHit st)
    | (None, false) =>
        withSuppressEarlyExit
          (fun s => evalValueRules iter (Rules ir) None fOne None
                      (onHeap incr_virtualCacheMiss s)) st
    end.

End EvalVirtualComplete.

(** ** every: evalEvery.eval (eval.go 3894-3979) *)

Definition isIterableValue (x : Value) : bool :=
  match x with
  | Array _ | Object _ | SetV _ => true
  | _ => false
  end.

Section EvalEvery.

Variable B : Type.

(** [e.e.bindings.Plug] and the domain term of the [every] expression. *)
Variable Plug : Term -> Term.
Variable Domain : Term.

(** [saveRequired] for the domain and for the body, and [e.save]. *)
Variable domainSaveRequired : bool.
Variable bodySaveRequired : bool.
Variable save : M St -> M St.

(** [domain.eval(iter)] for the closure over the generator [Domain[Key] =
    Value], and [body.eval(iter)] for the closure over the body made at a
    solution of the generator. *)
Variable generatorEval : eval -> forall T : Type, (B -> M T) -> M T.
Variable bodyEval : B -> eval -> forall T : Type, (B -> M T) -> M T.

Definition evalEvery (iter : M St) : M St :=
  fun st =>
    let e := fst st in
    if partial e && domainSaveRequired || partial e && bodySaveRequired then save iter st
    else if negb (isIterableValue (Plug Domain)) then (None, st)
    else
      let domain := closure e in
      let callback (b : B) : M (bool * St) :=
        fun als =>
          let (all, s) := als in
          if negb all then (None, (all, s))
          else
            let body := set_findOne true (closure domain) in
            let '(err, (done, s')) :=
              bodyEval b body (fun _ => modify (fun ds : bool * St => (true, snd ds)))
                (false, s) in
            (suppressEarlyExit err, (if negb done then false else all, s')) in
      match generatorEval domain callback (true, st) with
      | (Some err, (_, st')) => (Some err, st')
      | (None, (all, st')) => if all then iter st' else (None, st')
      end.

End EvalEvery.

Definition queryStream {B} (s : Search B) (c : eval) (T : Type) (iter : B -> M T) : M T :=
  evalQuery c s iter.

(** ** Object comprehensions (eval.go 1291-1332, 1379-1401, 1496-1518) *)

(** A node of the comprehension cache (type comprehensionCacheElem): the
    values of the index keys lead to the term built for them. *)
Definition CacheElem := list (list Term * Term).

Fixpoint elemGet (node : CacheElem) (values : list Term) : option Term :=
  match node with
  | [] => None
  | (vs, t) :: rest =>
      if list_eq_dec Value_eq_dec vs values then Some t else elemGet rest values
  end.

(** [node.Put(values, t)], and the assignment through the pointer [cached]
    that [node.Get] returned. *)
Fixpoint elemPut (node : CacheElem) (values : list Term) (t : Term) : CacheElem :=
  match node with
  | [] => [(values, t)]
  | (vs, t') :: rest =>
      if list_eq_dec Value_eq_dec vs values then (vs, t) :: rest
      else (vs, t') :: elemPut rest values t
  end.

Section ObjectComprehension.

Variable B : Type.
Variable PlugIn : B -> Term -> Term.

(** [child.Run(iter)] for the frame over the comprehension's body. *)
Variable bodyEval : eval -> forall T : Type, (B -> M T) -> M T.

(** [e.biunify(result, b, b1, b2, iter)] for the materialised object. *)
Variable biunifyResult : Term -> M St -> M St.

(** [Key] and [Val] are the key and value terms of the comprehension's head. *)
Definition biunifyComprehensionObject (Key Val : Term) (iter : M St) : M St :=
  fun st =>
    let c := closure (fst st) in
    let callback (b : B) : M (Obj * St) :=
      fun rs =>
        let (result, s) := rs in
        let key := PlugIn b Key in
        let value := PlugIn b Val in
        match Get result key with
        | Some existing =>
            if negb (Equal existing value)
            then (Some (ConflictErr objectDocKeyConflict), (result, s))
            else (None, (Insert result key value, s))
        | None => (None, (Insert result key value, s))
        end in
    match bodyEval c callback ([], st) with
    | (Some err, (_, st')) => (Some err, st')
    | (None, (result, st')) => biunifyResult (Object result) iter st'
    end.

(** [keys] are the index keys the compiler gave for the comprehension. *)
Definition buildComprehensionCacheObject (Key Val : Term) (keys : list Term)
  : St -> (CacheElem * Result) * St :=
  fun st =>
    let c := child (fst st) in
    let callback (b : B) : M (CacheElem * St) :=
      fun ns =>
        let (node, s) := ns in
        let values := map (PlugIn b) keys in
        let headKey := PlugIn b Key in
        let headValue := PlugIn b Val in
        match elemGet node values with
        | Some (Object obj) =>
            (None, (elemPut node values (Object (Insert obj headKey headValue)), s))
        | Some _ => (None, (node, s))   (* the node holds objects only *)
        | None => (None, (elemPut node values (Object [(headKey, headValue)]), s))
        end in
    let '(err, (node, st')) := bodyEval c callback ([], st) in
    ((node, err), st').

(** [e.comprehensionCache.Elem(a)] and [e.comprehensionCache.Set(a, cache)],
    in the current scope. *)
Fixpoint ccLookup (sc : CCScope) (a : Term) : option CacheElem :=
  match sc with
  | [] => None
  | (t, el) :: rest => if Equal t a then Some el else ccLookup rest a
  end.

Definition ccElem (cc : list CCScope) (a : Term) : option CacheElem :=
  match cc with
  | [] => None
  | sc :: _ => ccLookup sc a
  end.

Definition ccSet (a : Term) (el : CacheElem) (cc : list CCScope) : list CCScope :=
  match cc with
  | [] => [[(a, el)]]
  | sc :: rest => ((a, el) :: sc) :: rest
  end.

(** [e.bindings.Plug], [e.unknown(a, b1)], the partial-evaluation path, the
    comprehension index of the term (its keys, or nil), and the array and
    set variants. *)
Variable Plug : Term -> Term.
Variable comprehensionSaveRequired : bool.
Variable biunifyComprehensionPartial : M St -> M St.
Variable comprehensionIndex : Term -> option (list Term).
Variable buildComprehensionCacheOther : Term -> list Term -> St -> (CacheElem * Result) * St.
Variable biunifyComprehensionOther : Term -> M St -> M St.

Definition buildComprehensionCache (a : Term) : St -> (option Term * Result) * St :=
  fun st =>
    match comprehensionIndex a with
    | None => ((None, None), st)
    | Some keys =>
        let '((cache, err), st1) :=
          match ccElem (comprehensionCache (snd st)) a with
          | Some cache => ((cache, None), st)
          | None =>
              let '((cache, err), s) :=
                match a with
                | ObjectComprehension k v _ => buildComprehensionCacheObject k v keys st
                | _ => buildComprehensionCacheOther a keys st
                end in
              match err with
              | Some _ => ((cache, err), s)
              | None => ((cache, None), onHeap (set_comprehensionCache (ccSet a cache)) s)
              end
          end in
        match err with
        | Some _ => ((None, err), st1)
        | None => ((elemGet cache (map Plug keys), None), st1)
        end
    end.

Definition biunifyComprehension (a : Term) (iter : M St) : M St :=
  fun st =>
    if partial (fst st) && comprehensionSaveRequired then biunifyComprehensionPartial iter st
    else
      let '((value, err), st1) := buildComprehensionCache a st in
      match err, value with
      | Some x, _ => (Some x, st1)
      | None, Some v => biunifyResult v iter st1
      | None, None =>
          match a with
          | ObjectComprehension k v _ => biunifyComprehensionObject k v iter st1
          | _ => biunifyComprehensionOther a iter st1
          end
      end.

End ObjectComprehension.

(** ** Unification: biunify, biunifyValues, saveUnify (eval.go 1013-1211, 1552-1581) *)

(** A [*bindings] is a pointer to a frame; two of them are compared with
    [==]. *)
Definition Frame := nat.

Section Unify.

(** The contents of the bindings frames of the query (bindings.go is not
    among the sources at hand): [u.apply(t)], [u.bind(a, b, other, &undo)]
    with the [undo.Undo()] that goes with it, and [u.Plug(t)]. *)
Variable Bindings : Type.
Variable apply : Bindings -> Frame -> Term -> Term * Frame.
Variable bind : Frame -> Term -> Term -> Frame -> Bindings -> Bindings.
Variable undoBind : Frame -> Term -> Bindings -> Bindings.
Variable PlugF : Bindings -> Frame -> Term -> Term.

(** The save set and the save stack of partial evaluation; a nil save set
    contains nothing. *)
Definition SaveSet := list (list Term * Frame).

Record UState : Type := mkUState {
  frames : Bindings;
  saveSet : option SaveSet;
  saveStack : list (Term * Term * Frame * Frame)
}.

Variable Contains : SaveSet -> Bindings -> Term -> Frame -> bool.
Variable ContainsRecursive : SaveSet -> Bindings -> Term -> Frame -> bool.

Definition saveSetContains (st : UState) (t : Term) (b : Frame) : bool :=
  match saveSet st with
  | None => false
  | Some ss => Contains ss (frames st) t b
  end.

Definition saveSetContainsRecursive (st : UState) (t : Term) (b : Frame) : bool :=
  match saveSet st with
  | None => false
  | Some ss => ContainsRecursive ss (frames st) t b
  end.

(** [getSavePairsFromTerm]: a variable is its own pair; for another term the
    pairs come from the variables the visitor finds in it. *)
Variable savePairsOfVars : Bindings -> Term -> Frame -> list (Term * Frame).

Definition getSavePairsFromTerm (bs : Bindings) (x : Term) (b : Frame) : list (Term * Frame) :=
  match x with
  | Var _ => [(x, b)]
  | _ => savePairsOfVars bs x b
  end.

Definition saveSetPush (pairs : list (Term * Frame)) (st : UState) : UState :=
  mkUState (frames st)
    (option_map (fun ss => fold_left (fun acc p => ([fst p], snd p) :: acc) pairs ss)
       (saveSet st))
    (saveStack st).

Definition saveSetPop (n : nat) (st : UState) : UState :=
  mkUState (frames st) (option_map (@skipn _ n) (saveSet st)) (saveStack st).

Definition saveStackPush (a b : Term) (b1 b2 : Frame) (st : UState) : UState :=
  mkUState (frames st) (saveSet st) ((a, b, b1, b2) :: saveStack st).

Definition saveStackPop (st : UState) : UState :=
  mkUState (frames st) (saveSet st) (tl (saveStack st)).

Definition saveUnify (a b : Term) (b1 b2 : Frame) (iter : M UState) : M UState :=
  fun st =>
    let pairsA := getSavePairsFromTerm (frames st) a b1 in
    let st1 := saveSetPush pairsA st in
    let pairsB := getSavePairsFromTerm (frames st1) b b2 in
    let st2 := saveSetPush pairsB st1 in
    let st3 := saveStackPush a b b1 b2 st2 in
    let (err, st4) := iter st3 in
    (err, saveSetPop (length pairsA + length pairsB) (saveStackPop st4)).

Variable biunifyRef : Term -> Term -> Frame -> Frame -> M UState -> M UState.
Variable biunifyComprehensionU : Term -> Term -> Frame -> Frame -> bool -> M UState -> M UState.

Definition isVar (t : Term) : bool := match t with Var _ => true | _ => false end.
Definition isRef (t : Term) : bool := match t with Ref _ => true | _ => false end.
Definition isSet (t : Term) : bool := match t with SetV _ => true | _ => false end.
Definition IsComprehension (t : Term) : bool :=
  match t with
  | ArrayComprehension _ _ | SetComprehension _ _ | ObjectComprehension _ _ _ => true
  | _ => false
  end.

(** [b1.bind(a, b, b2, &undo); err := iter(); undo.Undo(); return err] *)
Definition bindIter (b1 : Frame) (a b : Term) (b2 : Frame) (iter : M UState) : M UState :=
  fun st =>
    let st1 := mkUState (bind b1 a b b2 (frames st)) (saveSet st) (saveStack st) in
    let (err, st2) := iter st1 in
    (err, mkUState (undoBind b1 a (frames st2)) (saveSet st2) (saveStack st2)).

Definition biunifyValues (a b : Term) (b1 b2 : Frame) (iter : M UState) : M UState :=
  fun st =>
    let saveA :=
      if isSet a then saveSetContainsRecursive st a b1 else saveSetContains st a b1 in
    if negb (isSet a) && negb saveA && isRef a then biunifyRef a b b1 b2 iter st
    else
      let saveB :=
        if isSet b then saveSetContainsRecursive st b b2 else saveSetContains st b b2 in
      if negb (isSet b) && negb saveB && isRef b then biunifyRef b a b2 b1 iter st
      else if saveA || saveB then saveUnify a b b1 b2 iter st
      else if IsComprehension a then biunifyComprehensionU a b b1 b2 false iter st
      else if IsComprehension b then biunifyComprehensionU b a b2 b1 true iter st
      else
        match isVar a, isVar b with
        | true, true =>
            if (b1 =? b2) && Equal a b then iter st
            else bindIter b1 a b b2 iter st
        | true, false => bindIter b1 a b b2 iter st
        | false, true => bindIter b2 b a b1 iter st
        | false, false =>
            let (a', b') :=
              if isSet a then (PlugF (frames st) b1 a, PlugF (frames st) b2 b)
              else (a, b) in
            if Equal a' b' then iter st else (None, st)
        end.

Variable biunifyArrays : list Term -> list Term -> Frame -> Frame -> M UState -> M UState.
Variable biunifyObjects : Obj -> Obj -> Frame -> Frame -> M UState -> M UState.

Definition biunify (a b : Term) (b1 b2 : Frame) (iter : M UState) : M UState :=
  fun st =>
    let (a, b1) := apply (frames st) b1 a in
    let (b, b2) := apply (frames st) b2 b in
    match a with
    | Var _ | Ref _ | ArrayComprehension _ _ | SetComprehension _ _
    | ObjectComprehension _ _ _ => biunifyValues a b b1 b2 iter st
    | Null =>
        match b with
        | Var _ | Null | Ref _ => biunifyValues a b b1 b2 iter st
        | _ => (None, st)
        end
    | Boolean _ =>
        match b with
        | Var _ | Boolean _ | Ref _ => biunifyValues a b b1 b2 iter st
        | _ => (None, st)
        end
    | Number _ =>
        match b with
        | Var _ | Number _ | Ref _ => biunifyValues a b b1 b2 iter st
        | _ => (None, st)
        end
    | String _ =>
        match b with
        | Var _ | String _ | Ref _ => biunifyValues a b b1 b2 iter st
        | _ => (None, st)
        end
    | Array vA =>
        match b with
        | Var _ | Ref _ | ArrayComprehension _ _ => biunifyValues a b b1 b2 iter st
        | Array vB => biunifyArrays vA vB b1 b2 iter st
        | _ => (None, st)
        end
    | Object vA =>
        match b with
        | Var _ | Ref _ | ObjectComprehension _ _ _ => biunifyValues a b b1 b2 iter st
        | Object vB => biunifyObjects vA vB b1 b2 iter st
        | _ => (None, st)
        end
    | SetV _ => biunifyValues a b b1 b2 iter st
    | Call _ => (None, st)
    end.

End Unify.

(** ** The values a rule set produces *)

(** The plugged head values at the solutions of a rule. *)
Definition ruleVals {B} (PlugIn : B -> Term -> Term) (body : Rule -> Search B) (r : Rule)
  : list Term :=
  map (fun b => PlugIn b (HeadValue r)) (sols (body r)).

(** The values of a rule with its else chain: those of the first rule of the
    chain that has a solution. *)
Fixpoint chainVals (vals : Rule -> list Term) (rs : list Rule) : list Term :=
  match rs with
  | [] => []
  | r :: rest =>
      match vals r with
      | [] => chainVals vals rest
      | l => l
      end
  end.

Definition allVals (vals : Rule -> list Term) (ir : IndexResult) : list Term :=
  flat_map (fun r => chainVals vals (r :: Else ir r)) (Rules ir).

(** The rules of an index result and of their else chains. *)
Definition indexedRules (ir : IndexResult) : list Rule :=
  flat_map (fun r => r :: Else ir r) (Rules ir).

Definition allSame (l : list Term) : bool :=
  match l with
  | [] => true
  | v :: rest => forallb (Equal v) rest
  end.

(** ** The loop over the rules of an index result

    [evalFunc.evalValue] and [evalVirtualComplete.evalValue] run the same
    loop over [ir.Rules], the else chains and the default rule; they differ
    in how one rule is evaluated ([one]) and in what is done when the loop
    ends without a default rule to evaluate ([atEnd]). *)

Section RuleLoop.

Variable one : Rule -> option Term -> St -> (option Term * Result) * St.
Variable ir : IndexResult.
Variable atEnd : option Term -> St -> St.

Fixpoint loopElse (erules : list Rule) (prev : option Term) (dee : Result)
  : St -> (Error + option Term * Result) * St :=
  fun st =>
    match erules with
    | [] => (inr (None, dee), st)
    | erule :: rest =>
        let '((nxt, err), st1) := one erule prev st in
        match err with
        | Some x =>
            if isDeferredEarlyExit x then
              let dee' := match dee with None => Some x | _ => dee end in
              match nxt with
              | Some _ => (inr (nxt, dee'), st1)
              | None => loopElse rest prev dee' st1
              end
            else (inl x, st1)
        | None =>
            match nxt with
            | Some _ => (inr (nxt, dee), st1)
            | None => loopElse rest prev dee st1
            end
        end
    end.

Fixpoint loopRules (rules : list Rule) (prev : option Term) (dee : Result) : M St :=
  fun st =>
    match rules with
    | [] =>
        match Default ir, prev with
        | Some d, None => let '((_, err), st1) := one d prev st in (err, st1)
        | _, _ => (dee, atEnd prev st)
        end
    | rule :: rest =>
        let '(res, st1) := loopElse (rule :: Else ir rule) prev dee st in
        match res with
        | inl x => (Some x, st1)
        | inr (nxt, dee') =>
            loopRules rest (match nxt with Some _ => nxt | None => prev end) dee' st1
        end
    end.

End RuleLoop.

(** The values of a list are all the same. *)
Definition allSameP (l : list Term) : Prop :=
  forall v1 v2, In v1 l -> In v2 l -> v1 = v2.

(** [prev] is the value seen so far, if any value was. *)
Definition okPrev (prev : option Term) (seen : list Term) : Prop :=
  match prev with
  | None => seen = []
  | Some p => seen <> [] /\ forall v, In v seen -> v = p
  end.

Definition nextPrev (res prev : option Term) : option Term :=
  match res with Some _ => res | None => prev end.

(** ** Function calls: the cache key and the first value *)

(** The cache key [evalCache] computes for a call. *)
Definition funcCacheKey (IsGround : Term -> bool) (Plug : Term -> Term) (terms : list Term)
  (argCount : nat) : Reference :=
  map (fun t => if IsGround t then t else Plug t)
    (firstn (if length terms =? argCount + 2 then pred (length terms) else length terms) terms).

(** [e.e.virtualCache.Put(cacheKey, result)]. *)
Definition cachePut (key : Reference) (v : Term) (s : St) : St :=
  onHeap (set_virtualCache (vcPut key (Some v))) s.

(** The state after the first value [v] of a call: the value is cached and
    the continuation is called, unless the call leaves the output out and the
    value is false. *)
Definition firstValue (terms : list Term) (iter : M St) (argCount : nat) (key : Reference)
  (v : Term) (s : St) : St :=
  if noOutput terms argCount && isFalse v then cachePut key v s
  else snd (iter (cachePut key v s)).

(** ** A complete document under a negation *)

(** The body [not input.b] of a rule, where [input.b] is undefined: [evalNot]
    in the frame [c] of the rule, the complement has no solution, and the
    negation is the last expression of the body. *)
Definition undefinedNegation (c : eval) (T : Type) (k : unit -> M T) : M T :=
  fun t =>
    let '(r, (_, t')) :=
      evalNot false (fun it => it) (streamEval (mkSearch (@nil unit) None))
        (fun cs => let (r, t') := k tt (snd cs) in (r, (fst cs, t')))
        (c, t) in
    (r, t').

(** The complete document [data.t.p] with the rules

      p := 1 if input.a                 (rule 1)
      p := 1 if not input.b else := 2   (rule 2, else rule 3)

    under the input [{"a": true}]. *)
Definition negationRules (r : Rule) (c : eval) (T : Type) (k : unit -> M T) : M T :=
  if ruleId r =? 2 then undefinedNegation c k
  else evalQuery c (mkSearch [tt] None) k.

Definition negationIndex (rules : list Rule) : IndexResult :=
  mkIndexResult rules
    (fun r => if ruleId r =? 2 then [mkRule 3 [] (Number 2) 2] else []) None false.

(** [child.eval] for the closure of the query [not data.t.p]: the reference
    is evaluated by [evalVirtualComplete] in the frame of the closure, and
    the end of the query is the callback of [evalNot]. *)
Definition completeDocComplement (rules : list Rule)
  (iter : M (eval * (eval * Heap))) : M (eval * (eval * Heap)) :=
  fun cst =>
    let '(c, (e, h)) := cst in
    let '(r, (c', h')) :=
      evalValue (fun (_ : unit) t => t) (fun b t => (t, b)) (fun _ _ it => it)
        negationRules (negationIndex rules) [Var "data"; String "t"; String "p"]
        (fun ch => let '(r, (c', (_, h'))) := iter (fst ch, (e, snd ch)) in (r, (c', h')))
        false (c, h) in
    (r, (c', (e, h'))).

(** * More of the evaluator *)

(** ** Machine integers *)

(** Go's [int] on a 64-bit platform: arithmetic wraps around. *)
Definition wrapInt (z : Z) : Z := ((z + 2 ^ 63) mod 2 ^ 64 - 2 ^ 63)%Z.

(** ** Inlined negation: canInlineNegation, complementedCartesianProduct
    (eval.go 4081-4124, 4183-4195) *)

Section InlineNegation.

(** Expressions (ast.Expr): [expr.Complement()], [expr.Negated],
    [containsNestedRefOrCall(vis, expr)], and whether the variables of the
    expression that are neither safe nor reserved are more than none. *)
Variable Expr : Type.
Variable Complement : Expr -> Expr.
Variable Negated : Expr -> bool.
Variable containsNestedRefOrCall : Expr -> bool.
Variable unsafeVars : Expr -> bool.

(** The inner loop of [canInlineNegation] over the expressions of one query:
    false when the function returns false from inside it. *)
Fixpoint inlinableExprs (query : list Expr) : bool :=
  match query with
  | [] => true
  | expr :: rest =>
      if containsNestedRefOrCall expr then false
      else if negb (Negated expr) && unsafeVars expr then false
      else inlinableExprs rest
  end.

Fixpoint canInlineNegationFrom (queries : list (list Expr)) (size : Z) : bool :=
  match queries with
  | [] => (size <=? 16)%Z
  | query :: rest =>
      let size' := wrapInt (size * Z.of_nat (length query)) in
      if inlinableExprs query then canInlineNegationFrom rest size' else false
  end.

Definition canInlineNegation (queries : list (list Expr)) : bool :=
  canInlineNegationFrom queries 1.

(** [queries] is [queries[idx:]]. *)
Fixpoint complementedCartesianProduct {S} (queries : list (list Expr)) (curr : list Expr)
  (iter : list Expr -> M S) : M S :=
  match queries with
  | [] => iter curr
  | query :: rest =>
      (fix loop (exprs : list Expr) : M S :=
         match exprs with
         | [] => ret None
         | expr :: more =>
             complementedCartesianProduct rest (curr ++ [Complement expr]) iter ;; loop more
         end) query
  end.

(** The bodies a product of queries is made of, first query first. *)
Fixpoint cartesian (queries : list (list Expr)) : list (list Expr) :=
  match queries with
  | [] => [[]]
  | query :: rest => flat_map (fun expr => map (cons expr) (cartesian rest)) query
  end.

End InlineNegation.

(** ** Scopes of virtual-cache keys: vcKeyScope (eval.go 3249-3326) *)

(** The loop of [vcKeyScope.Compare] over two references of one length. *)
Fixpoint vcKeyScopeCompareLoop (r1 r2 : list Term) : Z :=
  match r1, r2 with
  | t1 :: r1', t2 :: r2' =>
      if isVar t1 && isVar t2 then vcKeyScopeCompareLoop r1' r2'
      else if negb (Equal t1 t2) then (-1)%Z
      else vcKeyScopeCompareLoop r1' r2'
  | _, _ => 0%Z
  end.

(** [q.Compare(other)]: [other] is a scope ([inl]) or another value. *)
Definition vcKeyScopeCompare (q : list Term) (other : list Term + Term) : Z :=
  match other with
  | inl q2 =>
      if negb (length q =? length q2) then (-1)%Z else vcKeyScopeCompareLoop q q2
  | inr _ => 1%Z
  end.

(** [q.Hash()]; [valueHash] is [v.Value.Hash()]. *)
Fixpoint vcKeyScopeHashFrom (valueHash : Term -> Z) (hash : Z) (q : list Term) : Z :=
  match q with
  | [] => hash
  | v :: rest =>
      vcKeyScopeHashFrom valueHash
        (if isVar v then wrapInt (hash + 1) else wrapInt (hash + valueHash v)) rest
  end.

Definition vcKeyScopeHash (valueHash : Term -> Z) (q : list Term) : Z :=
  vcKeyScopeHashFrom valueHash 0 q.

(** The loop of [q.reduce()]: [i] is the loop variable plus one, the result
    is its value plus one when the loop ends. *)
Fixpoint vcKeyScopeReduceIndex (q : list Term) (i : nat) : nat :=
  match i with
  | 0 => 0
  | S j => if isVar (nth j q Null) then vcKeyScopeReduceIndex q j else S j
  end.

Definition vcKeyScopeReduce (q : list Term) : list Term :=
  firstn (vcKeyScopeReduceIndex q (length q)) q.

Definition vcKeyScopeEmpty (q : list Term) : bool := length q =? 0.

(** ** maxRefLength (eval.go 2742-2757) *)

Section MaxRefLength.

(** [len(r.Ref())] and [r.Head.RuleKind() == ast.MultiValue]. *)
Variable refLen : Rule -> nat.
Variable multiValue : Rule -> bool.

Definition ruleRefLength (r : Rule) : Z :=
  (Z.of_nat (refLen r) + (if multiValue r then 1 else 0))%Z.

Fixpoint maxRefLengthFrom (rules : list Rule) (ceil l : Z) : Z :=
  match rules with
  | [] => l
  | r :: rest =>
      let rl := ruleRefLength r in
      if (rl >=? ceil)%Z then ceil
      else maxRefLengthFrom rest ceil (if (rl >? l)%Z then rl else l)
  end.

Definition maxRefLength (rules : list Rule) (ceil : Z) : Z :=
  maxRefLengthFrom rules ceil 0.

End MaxRefLength.

(** ** Paths of partial objects: hasCollisions, wrapInObjects
    (eval.go 2870-2878, 3348-3358) *)

(** [ref.HasPrefix(other)] *)
Fixpoint HasPrefix (ref other : Reference) {struct other} : bool :=
  match other, ref with
  | [], _ => true
  | o :: other', r :: ref' => Equal r o && HasPrefix ref' other'
  | _ :: _, [] => false
  end.

(** [ref.Equal(other)] *)
Definition refEqual (ref other : Reference) : bool := Equal (Ref ref) (Ref other).

(** [hasCollisions(path, visitedRefs, b)], with the slice [*visitedRefs] as
    it is afterwards; [Plug] is [b.Plug] on a reference. *)
Definition hasCollisions (Plug : Reference -> Reference) (path : Reference)
  (visitedRefs : list Reference) : bool * list Reference :=
  let collisionPath := Plug path in
  if existsb (fun c => HasPrefix collisionPath c && negb (refEqual collisionPath c))
       visitedRefs
  then (true, visitedRefs)
  else (false, visitedRefs ++ [collisionPath]).

Fixpoint wrapInObjects (leaf : Term) (ref : Reference) : Term :=
  match ref with
  | [] => leaf
  | key :: rest => Object [(key, wrapInObjects leaf rest)]
  end.

(** ** Saved expressions: updateSavedMocks, isOtherRef (eval.go 4215-4221,
    4313-4322) *)

(** [isOtherRef(term)] panics ([None]) for a term that is not a reference. *)
Definition isOtherRef (t : Term) : option bool :=
  match t with
  | Ref _ => Some (negb (isDataRef t) && negb (isInputRef t))
  | _ => None
  end.

Fixpoint updateSavedMocks (isFunction : Term -> bool) (withs : list With)
  : option (list With) :=
  match withs with
  | [] => Some []
  | w :: rest =>
      match isOtherRef (Target w) with
      | None => None
      | Some other =>
          match updateSavedMocks isFunction rest with
          | None => None
          | Some ret =>
              if other || isFunction (Target w) then Some ret else Some (w :: ret)
          end
      end
  end.

(** The number of bodies of a product of queries. *)
Definition productSize {Expr} (queries : list (list Expr)) : nat :=
  fold_right (fun query n => length query * n) 1 queries.

(** The longest rule reference, counted as [maxRefLength] counts. *)
Definition longestRuleRef (refLen : Rule -> nat) (multiValue : Rule -> bool)
  (rules : list Rule) : Z :=
  fold_right (fun r m => Z.max (ruleRefLength refLen multiValue r) m) 0%Z rules.

(** The pair [evalWith] makes of a modifier. *)
Definition withPair (Plug : Term -> Term) (w : With) : Term * Term :=
  (Target w, Plug (WithValue w)).

(** Whether [updateSavedMocks] keeps a modifier. *)
Definition keepsWith (isFunction : Term -> bool) (w : With) : bool :=
  negb (isFunction (Target w)) && (isInputRef (Target w) || isDataRef (Target w)).

(** ** Unification of arrays, term lists and objects (eval.go 1066-1129) *)

Section UnifyCollections.

Variable Bindings : Type.
Variable PlugF : Bindings -> Frame -> Term -> Term.

(** [k.IsGround()] *)
Variable IsGround : Term -> bool.

(** [e.biunify] *)
Variable biunifyElem :
  Term -> Term -> Frame -> Frame -> M (UState Bindings) -> M (UState Bindings).

(** [a] and [b] are the elements from [idx] on; [biunifyArrays] has checked
    that there are as many of the one as of the other. *)
Fixpoint biunifyArraysRec (a b : list Term) (b1 b2 : Frame) (iter : M (UState Bindings))
  : M (UState Bindings) :=
  match a, b with
  | [], _ => iter
  | x :: a', y :: b' => biunifyElem x y b1 b2 (biunifyArraysRec a' b' b1 b2 iter)
  | _ :: _, [] => ret None
  end.

Definition biunifyArrays (a b : list Term) (b1 b2 : Frame) (iter : M (UState Bindings))
  : M (UState Bindings) :=
  if negb (length a =? length b) then ret None
  else biunifyArraysRec a b b1 b2 iter.

Fixpoint biunifyTermsRec (a b : list Term) (b1 b2 : Frame) (iter : M (UState Bindings))
  : M (UState Bindings) :=
  match a, b with
  | [], _ => iter
  | x :: a', y :: b' => biunifyElem x y b1 b2 (biunifyTermsRec a' b' b1 b2 iter)
  | _ :: _, [] => ret None
  end.

Definition biunifyTerms (a b : list Term) (b1 b2 : Frame) (iter : M (UState Bindings))
  : M (UState Bindings) :=
  if negb (length a =? length b) then ret None
  else biunifyTermsRec a b b1 b2 iter.

Definition nonGroundKeys (a : Obj) : bool :=
  existsb (fun kv => negb (IsGround (fst kv))) a.

(** [plugKeys(a, b)]: [a.Map] inserts the mapped pairs into a new object. *)
Definition plugKeys (bs : Bindings) (a : Obj) (b : Frame) : Obj :=
  fold_left (fun acc kv => Insert acc (PlugF bs b (fst kv)) (snd kv)) a [].

(** [keys] is what the iterator over the keys of [a] has left. *)
Fixpoint biunifyObjectsRec (keys : list Term) (a b : Obj) (b1 b2 : Frame)
  (iter : M (UState Bindings)) : M (UState Bindings) :=
  match keys with
  | [] => iter
  | key :: rest =>
      match Get b key with
      | None => ret None
      | Some v2 =>
          biunifyElem (match Get a key with Some v => v | None => Null end) v2 b1 b2
            (biunifyObjectsRec rest a b b1 b2 iter)
      end
  end.

Definition biunifyObjects (a b : Obj) (b1 b2 : Frame) (iter : M (UState Bindings))
  : M (UState Bindings) :=
  fun st =>
    if negb (length a =? length b) then (None, st)
    else
      let a' := if nonGroundKeys a then plugKeys (frames st) a b1 else a in
      let b' := if nonGroundKeys b then plugKeys (frames st) b b2 else b in
      biunifyObjectsRec (map fst a') a' b' b1 b2 iter st.

End UnifyCollections.

(** [biunify] with [biunifyArrays] and [biunifyObjects] calling it back: the
    recursion is on the nesting of the terms, [n] bounds it. *)
Section UnifyRec.

Variable Bindings : Type.
Variable apply : Bindings -> Frame -> Term -> Term * Frame.
Variable bind : Frame -> Term -> Term -> Frame -> Bindings -> Bindings.
Variable undoBind : Frame -> Term -> Bindings -> Bindings.
Variable PlugF : Bindings -> Frame -> Term -> Term.
Variable IsGround : Term -> bool.
Variable Contains : SaveSet -> Bindings -> Term -> Frame -> bool.
Variable ContainsRecursive : SaveSet -> Bindings -> Term -> Frame -> bool.
Variable savePairsOfVars : Bindings -> Term -> Frame -> list (Term * Frame).
Variable biunifyRef :
  Term -> Term -> Frame -> Frame -> M (UState Bindings) -> M (UState Bindings).
Variable biunifyComprehensionU :
  Term -> Term -> Frame -> Frame -> bool -> M (UState Bindings) -> M (UState Bindings).

Fixpoint biunifyN (n : nat)
  : Term -> Term -> Frame -> Frame -> M (UState Bindings) -> M (UState Bindings) :=
  match n with
  | 0 => fun _ _ _ _ _ st => (Some (InternalErr "nesting"), st)
  | S n' =>
      biunify apply bind undoBind PlugF Contains ContainsRecursive savePairsOfVars
        biunifyRef biunifyComprehensionU
        (biunifyArrays (biunifyN n'))
        (biunifyObjects PlugF IsGround (biunifyN n'))
  end.

End UnifyRec.

(** Scalars, and arrays of such terms. *)
Fixpoint plainTerm (t : Term) : bool :=
  match t with
  | Null | Boolean _ | Number _ | String _ => true
  | Array l =>
      (fix all (l : list Value) : bool :=
         match l with [] => true | x :: r => plainTerm x && all r end) l
  | _ => false
  end.

(** A continuation, or a unification, that leaves the bindings, the save set
    and the save stack as it finds them. *)
Definition neutral {Bindings} (m : M (UState Bindings)) : Prop :=
  forall st, snd (m st) = st.

(** ** Array and set comprehensions (eval.go 1334-1377, 1462-1494) *)

(** [set.Add(x)]: a set holds an element once. *)
Definition setAdd (elems : list Term) (x : Term) : list Term :=
  if existsb (Equal x) elems then elems else elems ++ [x].

Section ArraySetComprehension.

Variable B : Type.
Variable PlugIn : B -> Term -> Term.

(** [child.Run(iter)] for the frame over the comprehension's body. *)
Variable bodyEval : eval -> forall T : Type, (B -> M T) -> M T.

(** [e.biunify(result, b, b1, b2, iter)] for the materialised term. *)
Variable biunifyResult : Term -> M St -> M St.

(** [head] is the term of the comprehension's head. *)
Definition biunifyComprehensionArray (head : Term) (iter : M St) : M St :=
  fun st =>
    let c := closure (fst st) in
    let callback (b : B) : M (list Term * St) :=
      fun rs => let (result, s) := rs in (None, (result ++ [PlugIn b head], s)) in
    match bodyEval c callback ([], st) with
    | (Some err, (_, st')) => (Some err, st')
    | (None, (result, st')) => biunifyResult (Array result) iter st'
    end.

Definition biunifyComprehensionSet (head : Term) (iter : M St) : M St :=
  fun st =>
    let c := closure (fst st) in
    let callback (b : B) : M (list Term * St) :=
      fun rs => let (result, s) := rs in (None, (setAdd result (PlugIn b head), s)) in
    match bodyEval c callback ([], st) with
    | (Some err, (_, st')) => (Some err, st')
    | (None, (result, st')) => biunifyResult (SetV result) iter st'
    end.

(** The callbacks of the two cache builders: what one solution does to the
    node. *)
Definition cacheArrayStep (head : Term) (keys : list Term) (b : B) (node : CacheElem)
  : CacheElem :=
  let values := map (PlugIn b) keys in
  match elemGet node values with
  | Some (Array arr) => elemPut node values (Array (arr ++ [PlugIn b head]))
  | Some _ => node   (* the node holds arrays only *)
  | None => elemPut node values (Array [PlugIn b head])
  end.

Definition cacheSetStep (head : Term) (keys : list Term) (b : B) (node : CacheElem)
  : CacheElem :=
  let values := map (PlugIn b) keys in
  match elemGet node values with
  | Some (SetV set) => elemPut node values (SetV (setAdd set (PlugIn b head)))
  | Some _ => node   (* the node holds sets only *)
  | None => elemPut node values (SetV [PlugIn b head])
  end.

Definition buildComprehensionCacheArray (head : Term) (keys : list Term)
  : St -> (CacheElem * Result) * St :=
  fun st =>
    let c := child (fst st) in
    let callback (b : B) : M (CacheElem * St) :=
      fun ns => let (node, s) := ns in (None, (cacheArrayStep head keys b node, s)) in
    let '(err, (node, st')) := bodyEval c callback ([], st) in
    ((node, err), st').

Definition buildComprehensionCacheSet (head : Term) (keys : list Term)
  : St -> (CacheElem * Result) * St :=
  fun st =>
    let c := child (fst st) in
    let callback (b : B) : M (CacheElem * St) :=
      fun ns => let (node, s) := ns in (None, (cacheSetStep head keys b node, s)) in
    let '(err, (node, st')) := bodyEval c callback ([], st) in
    ((node, err), st').

End ArraySetComprehension.

(** The solutions whose plugged index keys are [values]. *)
Definition solutionsAt {B} (PlugIn : B -> Term -> Term) (keys : list Term)
  (values : list Term) (sols : list B) : list B :=
  filter (fun b => if list_eq_dec Value_eq_dec (map (PlugIn b) keys) values
                   then true else false) sols.

(** The set built by adding the terms of a list one after the other. *)
Definition setOf (l : list Term) : list Term := fold_left setAdd l [].

(** ** The first solution of a list of rules *)

Fixpoint firstSolution {B} (body : Rule -> Search B) (rules : list Rule)
  : option (Rule * B) :=
  match rules with
  | [] => None
  | r :: rest =>
      match sols (body r) with
      | b :: _ => Some (r, b)
      | [] => firstSolution body rest
      end
  end.

(** ** Walking a collection: evalTerm.enumerate, evalTerm.get, evalTree.enumerate

    [evalTerm.enumerate] (eval.go 3753-3825) and [evalTree.enumerate]
    (eval.go 2473-2541) visit the elements of a collection one after the
    other.  A visit may end in a deferred early exit; the loops hold it back
    and go on, each in its own way. *)

Section Enumerate.

Variable S : Type.

(** [errors.As(err, &dee)] for a [dee] of type [*deferredEarlyExitError]:
    the deferred early exit in the chain of [err], if there is one. *)
Variable asDeferred : Error -> option Error.

(** The closure [handleErr] of [evalTerm.enumerate] (eval.go 3755-3765); the
    variable [deferredEe] it assigns is passed and returned. *)
Definition termHandleErr (deferredEe : option Error) (err : Result) : Result * option Error :=
  match err with
  | None => (None, deferredEe)
  | Some x =>
      match asDeferred x with
      | Some dee =>
          (None, match deferredEe with None => Some dee | Some _ => deferredEe end)
      | None => (Some x, deferredEe)
      end
  end.

(** [deferredEarlyExitContainer.handleErr] (eval.go 2370-2380); the field
    [dc.deferred] is passed and returned. *)
Definition handleErr (deferred : option Error) (err : Result) : Result * option Error :=
  match err with
  | None => (None, deferred)
  | Some x =>
      match deferred with
      | Some _ => (Some x, deferred)
      | None =>
          match asDeferred x with
          | Some dee => (None, Some dee)
          | None => (Some x, None)
          end
      end
  end.

(** [for x := range xs { err := visit(x); if err := handle(err); err != nil
    { return err } }]: the error that ends the loop, if any, and the deferred
    early exit held back. *)
Fixpoint visitAll {A} (handle : option Error -> Result -> Result * option Error)
  (visit : A -> M S) (xs : list A) (deferred : option Error)
  : S -> (Result * option Error) * S :=
  fun st =>
    match xs with
    | [] => ((None, deferred), st)
    | x :: rest =>
        let (err, st1) := visit x st in
        let (err', deferred') := handle deferred err in
        match err' with
        | Some e => ((Some e, deferred'), st1)
        | None => visitAll handle visit rest deferred' st1
        end
    end.

(** [ast.InternedTerm(i)] for the indices of an array. *)
Definition indexTerms (elems : list Term) : list Term :=
  map (fun i => Number (Z.of_nat i)) (seq 0 (length elems)).

(** [evalTerm.enumerate].  [refIsVar] tells whether [e.ref[e.pos]] is a
    variable; [visitIndex a] binds it to the index [a], runs [e.next(iter, a)]
    and undoes the binding; [visit k] is [e.e.biunify(k, e.ref[e.pos], ...)]
    with the callback that runs [e.next(iter, e.termbindings.Plug(k))]. *)
Definition evalTermEnumerate (term : Term) (refIsVar : bool) (visitIndex visit : Term -> M S)
  : M S :=
  fun st =>
    let '((err, deferredEe), st1) :=
      match term with
      | Array elems =>
          if refIsVar then visitAll termHandleErr visitIndex (indexTerms elems) None st
          else ((None, None), st)
      | Object items => visitAll termHandleErr visit (map fst items) None st
      | SetV elems => visitAll termHandleErr visit elems None st
      | _ => ((None, None), st)
      end in
    match err with
    | Some e => (Some e, st1)
    | None => (deferredEe, st1)
    end.

(** The terms the loops of [evalTree.enumerate] visit for the document the
    resolver returned. *)
Definition docKeys (doc : Value) : list Term :=
  match doc with
  | Array elems => indexTerms elems
  | Object items => map fst items
  | SetV elems => elems
  | _ => []
  end.

(** [evalTree.enumerate].  [disabled] is
    [e.e.inliningControl.Disabled(e.plugged[:e.pos], true)], [resolved] what
    [e.e.Resolve(e.plugged[:e.pos])] returns, [sorted] the keys
    [e.node.Sorted] ([None] for a nil node), and [visit k] is
    [e.e.biunify(k, e.ref[e.pos], ...)] with the callback that runs
    [e.next(iter, k)]. *)
Definition evalTreeEnumerate (disabled : bool) (saveUnify : M S)
  (resolved : Error + option Value) (sorted : option (list Value)) (visit : Term -> M S)
  : M S :=
  fun st =>
    if disabled then saveUnify st
    else
      match resolved with
      | inl err => (Some err, st)
      | inr doc =>
          let '((err, deferred), st1) :=
            match doc with
            | Some d => visitAll handleErr visit (docKeys d) None st
            | None => ((None, None), st)
            end in
          match err with
          | Some e => (Some e, st1)
          | None =>
              match deferred with
              | Some dee => (Some dee, st1)
              | None =>
                  match sorted with
                  | None => (None, st1)
                  | Some ks => enumerate ks None visit st1
                  end
              end
          end
      end.

End Enumerate.

(** [evalTerm.get] (eval.go 3827-3875): the element of the term at a ground
    operand, with the bindings to read it in; [None] for [nil, nil]. *)

Section EvalTermGet.

Variable B : Type.

(** [e.termbindings.Plug] and [e.termbindings.apply]. *)
Variable PlugT : Term -> Term.
Variable applyT : Term -> Term * B.

(** [v.IsGround()] *)
Variable IsGround : Term -> bool.

(** [Get] of [ast.Array] *)
Variable arrayGet : list Term -> Term -> option Term.

Definition evalTermGet (term plugged : Term) : option (Term * B) :=
  match term with
  | SetV elems =>
      if IsGround term then
        if existsb (fun elem => Equal elem plugged) elems then Some (applyT plugged)
        else None
      else
        if existsb (fun elem => Equal (PlugT elem) plugged) elems then Some (applyT plugged)
        else None
  | Object items =>
      if IsGround term then
        match Get items plugged with
        | Some t => Some (applyT t)
        | None => None
        end
      else
        match find (fun kv => Equal (PlugT (fst kv)) plugged) items with
        | Some (_, v) => Some (applyT v)
        | None => None
        end
  | Array elems =>
      match arrayGet elems plugged with
      | Some t => Some (applyT t)
      | None => None
      end
  | _ => None
  end.

End EvalTermGet.

(** The state after the visits of [xs], whatever they return. *)
Definition visited {S A} (visit : A -> M S) (xs : list A) (st : S) : S :=
  fold_left (fun s x => snd (visit x s)) xs st.

(** No visit of [xs], run one after the other from [st], returns an error. *)
Fixpoint quiet {S A} (visit : A -> M S) (xs : list A) (st : S) : Prop :=
  match xs with
  | [] => True
  | x :: rest => fst (visit x st) = None /\ quiet visit rest (snd (visit x st))
  end.

(** Every error a visit of [xs] returns is a deferred early exit. *)
Fixpoint soft {S A} (asDeferred : Error -> option Error) (visit : A -> M S) (xs : list A)
  (st : S) : Prop :=
  match xs with
  | [] => True
  | x :: rest =>
      match fst (visit x st) with
      | None => True
      | Some e => asDeferred e <> None
      end /\ soft asDeferred visit rest (snd (visit x st))
  end.

(** The elements [evalTerm.enumerate] visits, and the visit it makes. *)
Definition termElements (term : Term) (refIsVar : bool) : list Term :=
  match term with
  | Array elems => if refIsVar then indexTerms elems else []
  | Object items => map fst items
  | SetV elems => elems
  | _ => []
  end.

Definition termVisit {S} (term : Term) (visitIndex visit : Term -> M S) : Term -> M S :=
  match term with
  | Array _ => visitIndex
  | _ => visit
  end.
Lemma Equal_true (a b : Term) : Equal a b = true <-> a = b.
Proof. unfold Equal. destruct (Value_eq_dec a b); split; congruence. Qed.

Lemma Equal_false (a b : Term) : Equal a b = false <-> a <> b.
Proof. unfold Equal. destruct (Value_eq_dec a b); split; congruence. Qed.

Lemma Equal_refl (a : Term) : Equal a a = true.
Proof. now apply Equal_true. Qed.

Lemma Get_Insert_eq (obj : Obj) (k v : Term) : Get (Insert obj k v) k = Some v.
Proof.
  induction obj as [|[k' v'] rest IH]; simpl.
  - now rewrite Equal_refl.
  - destruct (Equal k' k) eqn:E; simpl; rewrite E; auto.
Qed.

Lemma Get_Insert_ne (obj : Obj) (k k2 v : Term) :
  k <> k2 -> Get (Insert obj k v) k2 = Get obj k2.
Proof.
  intros Hne. induction obj as [|[k' v'] rest IH]; simpl.
  - apply Equal_false in Hne. now rewrite Hne.
  - destruct (Equal k' k) eqn:E; simpl.
    + apply Equal_true in E. subst k'.
      apply Equal_false in Hne. now rewrite Hne.
    + now rewrite IH.
Qed.

Lemma Get_In (obj : Obj) (k v : Term) : Get obj k = Some v -> In (k, v) obj.
Proof.
  induction obj as [|[k' v'] rest IH]; simpl; [discriminate|].
  destruct (Equal k' k) eqn:E.
  - apply Equal_true in E. intros [= ->]. subst. now left.
  - intros H. right. auto.
Qed.

Lemma mergeObjects_eq (objA objB : Obj) :
  mergeObjects objA objB =
  let (result, stop) := mergeUntil objB objA [] in
  if stop then ([], false) else (mergeRest objA objB result, true).
Proof.
  unfold mergeObjects. simpl.
  match goal with
  | |- (let (_, _) := ?f objA [] in _) = _ =>
      assert (E : forall items result, f items result = mergeUntil objB items result)
  end.
  { induction items as [|[k v] rest IH]; intros result; simpl; [reflexivity|].
    destruct (Get objB k) as [v2|]; [|apply IH].
    destruct v; try apply IH.
    destruct v2; try apply IH.
    unfold mergeObjects.
    destruct (mergeObjectsV (Object items) items0) as [obj3 ok].
    destruct ok; [apply IH|reflexivity]. }
  rewrite E. reflexivity.
Qed.

(** *** mergeObjects never fails *)

Lemma vsize_item (k v : Value) (items : Obj) :
  In (k, v) items -> vsize v < vsize (Object items).
Proof.
  simpl. induction items as [|[k' v'] rest IH]; simpl; [tauto|].
  intros [[= -> ->]|H]; [lia|]. specialize (IH H). lia.
Qed.

Lemma mergeUntil_stop (objB : Obj) :
  forall items result,
    (forall k obj1 obj2, In (k, Object obj1) items -> snd (mergeObjects obj1 obj2) = true) ->
    snd (mergeUntil objB items result) = false.
Proof.
  induction items as [|[k v] rest IH]; intros result H; simpl; [reflexivity|].
  assert (Hrest : forall k obj1 obj2, In (k, Object obj1) rest ->
                                      snd (mergeObjects obj1 obj2) = true).
  { intros k0 o1 o2 Hin. apply (H k0). now right. }
  destruct (Get objB k) as [v2|]; [|now apply IH].
  destruct v; try now apply IH.
  destruct v2; try now apply IH.
  specialize (H k items items0 (or_introl eq_refl)).
  destruct (mergeObjects items items0) as [obj3 ok]. simpl in H. subst ok.
  now apply IH.
Qed.

Lemma mergeObjects_ok (objA objB : Obj) : snd (mergeObjects objA objB) = true.
Proof.
  remember (vsize (Object objA)) as n eqn:Hn.
  revert objA objB Hn.
  induction n as [n IH] using lt_wf_ind. intros objA objB Hn.
  rewrite mergeObjects_eq.
  pose proof (mergeUntil_stop objB objA []) as Hs.
  destruct (mergeUntil objB objA []) as [result stop]. simpl in Hs.
  rewrite Hs; [reflexivity|].
  intros k obj1 obj2 Hin.
  apply (IH (vsize (Object obj1))); [|reflexivity].
  subst n. now apply vsize_item in Hin.
Qed.

Lemma merge_ok (a b : Value) : snd (merge a b) = true.
Proof.
  destruct a; try reflexivity. destruct b; try reflexivity. simpl.
  pose proof (mergeObjects_ok items items0) as H.
  now destruct (mergeObjects items items0).
Qed.

(** *** The overlay's value wins at a key that cannot be merged *)

Lemma mergeRest_Get (objA : Obj) (k v : Term) :
  forall objB result,
    Get objA k <> None -> Get result k = Some v ->
    Get (mergeRest objA objB result) k = Some v.
Proof.
  induction objB as [|[k' v'] rest IH]; intros result HA Hr; simpl; [exact Hr|].
  destruct (Get objA k') eqn:E; [now apply IH|].
  apply IH; [exact HA|].
  rewrite Get_Insert_ne; [exact Hr|]. intros ->. congruence.
Qed.

Lemma mergeUntil_keeps (objB : Obj) (k v : Term) :
  forall items result,
    ~ In k (map fst items) -> Get result k = Some v ->
    Get (fst (mergeUntil objB items result)) k = Some v.
Proof.
  induction items as [|[k' v'] rest IH]; intros result Hnin Hr; simpl; [exact Hr|].
  simpl in Hnin.
  assert (Hne : k' <> k) by tauto.
  assert (Hnin' : ~ In k (map fst rest)) by tauto.
  assert (Hins : forall x, Get (Insert result k' x) k = Some v)
    by (intros x; now rewrite Get_Insert_ne).
  destruct (Get objB k') as [v2|]; [|now apply IH].
  destruct v'; try now apply IH.
  destruct v2; try now apply IH.
  destruct (mergeObjects items items0) as [obj3 ok].
  destruct ok; [now apply IH|exact Hr].
Qed.

Lemma mergeUntil_overlay (objB : Obj) (k v v2 : Term) :
  forall items result,
    NoDup (map fst items) ->
    Get items k = Some v -> Get objB k = Some v2 ->
    isObject v && isObject v2 = false ->
    Get (fst (mergeUntil objB items result)) k = Some v.
Proof.
  induction items as [|[k' v'] rest IH]; intros result Hnd HA HB Hno; simpl in *;
    [discriminate|].
  inversion Hnd as [|? ? Hnin Hnd']; subst.
  destruct (Equal k' k) eqn:E.
  - apply Equal_true in E. subst k'. injection HA as ->.
    rewrite HB.
    assert (Hgo : Get (fst (mergeUntil objB rest (Insert result k v))) k = Some v)
      by (apply mergeUntil_keeps; [exact Hnin|apply Get_Insert_eq]).
    destruct v; try exact Hgo.
    destruct v2; try exact Hgo.
    discriminate.
  - assert (Hgo : forall r, Get (fst (mergeUntil objB rest r)) k = Some v)
      by (intros r; now apply IH).
    destruct (Get objB k') as [w|]; [|apply Hgo].
    destruct v'; try apply Hgo.
    destruct w; try apply Hgo.
    pose proof (mergeObjects_ok items items0) as Hok.
    destruct (mergeObjects items items0) as [obj3 ok]. simpl in Hok. subst ok.
    apply Hgo.
Qed.

(** ** Negation *)

Lemma enumerate_ok {S B} (l : list B) (r : Result) (k : B -> M S) (f : S -> S) :
  (forall b st, k b st = (None, f st)) ->
  forall st, enumerate l r k st = (r, fold_left (fun s _ => f s) l st).
Proof.
  intros Hk. induction l as [|b rest IH]; intros st; simpl; [reflexivity|].
  unfold andThen. rewrite Hk. apply IH.
Qed.

Lemma fold_set_defined {S B} (l : list B) (c : eval) (st : S) :
  fold_left (fun (s : eval * S) (_ : B) => (set_defined true (fst s), snd s)) l (c, st)
  = (match l with [] => c | _ => set_defined true c end, st).
Proof.
  revert c. induction l as [|b rest IH]; intros c; simpl; [reflexivity|].
  rewrite IH. destruct rest; reflexivity.
Qed.

(** What [evalNot] computes for a complement with the solutions [s], outside
    partial evaluation: the error that ended the walk of the complement, or
    else the continuation when no solution was found and the flag [defined]
    copied from [e] was not set, or else nothing. *)
Lemma evalNot_stream {S B} (sr : bool) (np : M (eval * S) -> M (eval * S))
  (s : Search B) (iter : M (eval * S)) (e : eval) (st : S) :
  partial e = false ->
  evalNot sr np (streamEval s) iter (e, st) =
  match fin s with
  | Some err => (Some err, (e, st))
  | None =>
      if negb (defined e) && noSolution s
      then iter (e, st) else (None, (e, st))
  end.
Proof.
  intros Hp. unfold evalNot, unknown. simpl. rewrite Hp. simpl.
  unfold streamEval, evalQuery. simpl.
  rewrite (@enumerate_ok _ _ _ _ _
             (fun cst : eval * (eval * S) => (set_defined true (fst cst), snd cst))).
  - rewrite fold_set_defined.
    destruct (fin s); [reflexivity|].
    unfold noSolution.
    destruct (sols s); simpl; [|now rewrite andb_false_r].
    destruct (defined e); reflexivity.
  - intros b cst. unfold evalExprEnd, modify. simpl. reflexivity.
Qed.

(** ** with *)

Lemma evalWithPop_evalWithPush (input' data' : option Term) (mocks : list (Term * Term))
  (targets dis : list Reference) (st : St) :
  (input' = None -> input (fst st) = None) ->
  (data' = None -> data (fst st) = None) ->
  evalWithPop (fst (fst (evalWithPush input' data' mocks targets dis st)))
              (snd (fst (evalWithPush input' data' mocks targets dis st)))
              (snd (evalWithPush input' data' mocks targets dis st)) = st.
Proof.
  destruct st as [[fo de pa ix inp dat] [vc cc ts fm ic be hit miss nd]].
  simpl. intros Hi Hd.
  destruct input' as [i|], data' as [d|]; simpl;
    try rewrite (Hi eq_refl); try rewrite (Hd eq_refl); reflexivity.
Qed.

Lemma withFrame_next (evalExpr : M St -> M St) (iter : M St) F :
  (forall s, withFrame s = F -> withFrame (snd (evalExpr iter s)) = F) ->
  forall s, withFrame s = F -> withFrame (snd (next evalExpr iter s)) = F.
Proof.
  intros H [e h] HF. unfold next.
  specialize (H (set_index (S (index e)) e, h) HF).
  destruct (evalExpr iter (set_index (S (index e)) e, h)) as [err [e' h']].
  exact H.
Qed.

Lemma evalWith_loop {B} (input' data' : option Term) (mocks : list (Term * Term))
  (targets dis : list Reference) (K : M St) F (r : Result) :
  (input' = None -> fst (fst (fst (fst (fst F)))) = None) ->
  (data' = None -> snd (fst (fst (fst (fst F)))) = None) ->
  (forall s, withFrame s = F -> withFrame (snd (K s)) = F) ->
  forall (l : list B) (st : St),
    withFrame st = F ->
    let run :=
      enumerate l r
        (fun _ (ls : (option Term * option Term) * St) =>
           let (old0, s) := ls in
           let s1 := evalWithPop (fst old0) (snd old0) s in
           let (err, s2) := K s1 in
           (err, evalWithPush input' data' mocks targets dis s2))
        (evalWithPush input' data' mocks targets dis st) in
    let out := enumerate l r (fun _ => K) st in
    fst run = fst out /\
    evalWithPop (fst (fst (snd run))) (snd (fst (snd run))) (snd (snd run)) = snd out /\
    withFrame (snd out) = F.
Proof.
  intros Hi Hd HK. induction l as [|b rest IH]; intros st HF; simpl.
  - split; [reflexivity|]. split; [|exact HF].
    apply evalWithPop_evalWithPush; intros E; pose proof (f_equal fst (f_equal fst
      (f_equal fst (f_equal fst (f_equal fst HF))))) as H1;
      pose proof (f_equal snd (f_equal fst (f_equal fst (f_equal fst
        (f_equal fst HF))))) as H2; simpl in H1, H2; [rewrite H1; auto|rewrite H2; auto].
  - unfold andThen.
    pose proof (@evalWithPop_evalWithPush input' data' mocks targets dis st) as Hpp.
    destruct (evalWithPush input' data' mocks targets dis st) as [old0 s] eqn:Epush.
    simpl in Hpp. rewrite Hpp.
    2:{ intros E. pose proof (f_equal fst (f_equal fst (f_equal fst (f_equal fst
          (f_equal fst HF))))) as H1. simpl in H1. rewrite H1. auto. }
    2:{ intros E. pose proof (f_equal snd (f_equal fst (f_equal fst (f_equal fst
          (f_equal fst HF))))) as H2. simpl in H2. rewrite H2. auto. }
    pose proof (HK st HF) as HF'.
    destruct (K st) as [[err|] s2]; simpl in HF'.
    + simpl. split; [reflexivity|]. split; [|exact HF'].
      apply evalWithPop_evalWithPush; intros E;
        pose proof (f_equal fst (f_equal fst (f_equal fst (f_equal fst
          (f_equal fst HF'))))) as H1;
        pose proof (f_equal snd (f_equal fst (f_equal fst (f_equal fst
          (f_equal fst HF'))))) as H2; simpl in H1, H2;
        [rewrite H1; auto|rewrite H2; auto].
    + apply (IH s2 HF').
Qed.

Lemma evalWith_stream {B} (isFunction isBuiltin : Term -> bool) (Plug : Term -> Term)
  (mergeTWV : option Term -> list (Term * Term) -> option Term + string)
  (wvu : bool) (dis : list Reference) (sem : M St -> M St) (evalExpr : M St -> M St)
  (s : Search B) (ws : list With) (iter : M St) (st : St) F
  (input' data' : option Term) :
  partial (fst st) && wvu = false ->
  mergeTWV (input (fst st))
    (fst (fst (fst (partitionWith isFunction isBuiltin Plug ws)))) = inl input' ->
  mergeTWV (data (fst st))
    (snd (fst (fst (partitionWith isFunction isBuiltin Plug ws)))) = inl data' ->
  (input' = None -> input (fst st) = None) ->
  (data' = None -> data (fst st) = None) ->
  withFrame st = F ->
  (forall s, withFrame s = F -> withFrame (snd (evalExpr iter s)) = F) ->
  evalWith isFunction isBuiltin Plug mergeTWV wvu dis sem evalExpr (stepStream s) ws iter st
  = enumerate (sols s) (fin s) (fun _ => next evalExpr iter) st
  /\ withFrame
       (snd (evalWith isFunction isBuiltin Plug mergeTWV wvu dis sem evalExpr
               (stepStream s) ws iter st)) = F.
Proof.
  intros Hp Hmi Hmd Hi Hd HF HK.
  unfold evalWith. rewrite Hp.
  destruct (partitionWith isFunction isBuiltin Plug ws) as [[[pin pdat] mocks] targets].
  simpl in Hmi, Hmd. rewrite Hmi, Hmd.
  assert (HiF : input' = None -> fst (fst (fst (fst (fst F)))) = None).
  { intros E. rewrite <- HF. simpl. auto. }
  assert (HdF : data' = None -> snd (fst (fst (fst (fst F)))) = None).
  { intros E. rewrite <- HF. simpl. auto. }
  pose proof (@evalWith_loop B input' data' mocks targets dis (next evalExpr iter) F
                (fin s) HiF HdF (withFrame_next evalExpr iter HK) (sols s) st HF) as H.
  simpl in H. unfold stepStream.
  destruct (evalWithPush input' data' mocks targets dis st) as [old st1].
  match type of H with
  | fst ?run = _ /\ _ => destruct run as [err [old' st2]]
  end.
  simpl in H. destruct H as (H1 & H2 & H3).
  destruct (enumerate (sols s) (fin s) (fun _ => next evalExpr iter) st) as [r out].
  simpl in *. subst. split; [reflexivity|exact H3].
Qed.

(** ** The rule loop: conflicts *)

Lemma evalElse_loop {B} (PlugIn : B -> Term -> Term) (noOut_terms : list Term)
  (saveContains : B -> Term -> bool) (saveExpr : B -> Term -> M St -> M St)
  (evalRule : Rule -> eval -> forall T : Type, (B -> M T) -> M T)
  (iter : M St) (cacheKey : option Reference) (fOne : bool) :
  forall erules prev dee st,
    evalElse PlugIn saveContains saveExpr evalRule noOut_terms iter erules cacheKey prev fOne dee st
    = loopElse (fun r p => evalOneRule PlugIn saveContains saveExpr evalRule noOut_terms
                             iter r cacheKey p fOne) erules prev dee st.
Proof.
  induction erules as [|r rest IH]; intros prev dee st; simpl; [reflexivity|].
  destruct (evalOneRule PlugIn saveContains saveExpr evalRule noOut_terms iter r cacheKey
              prev fOne st) as [[nxt [x|]] st1].
  - destruct (isDeferredEarlyExit x); [|reflexivity].
    destruct nxt; [reflexivity|apply IH].
  - destruct nxt; [reflexivity|apply IH].
Qed.

Lemma evalRules_loop {B} (PlugIn : B -> Term -> Term) (noOut_terms : list Term)
  (saveContains : B -> Term -> bool) (saveExpr : B -> Term -> M St -> M St)
  (evalRule : Rule -> eval -> forall T : Type, (B -> M T) -> M T)
  (ir : IndexResult) (iter : M St) (cacheKey : option Reference) (fOne : bool) :
  forall rules prev dee st,
    evalRules PlugIn saveContains saveExpr evalRule noOut_terms ir iter rules cacheKey prev
      fOne dee st
    = loopRules (fun r p => evalOneRule PlugIn saveContains saveExpr evalRule noOut_terms
                              iter r cacheKey p fOne) ir (fun _ s => s) rules prev dee st.
Proof.
  induction rules as [|r rest IH]; intros prev dee st.
  - simpl. destruct (Default ir), prev; reflexivity.
  - cbn [evalRules loopRules].
    rewrite evalElse_loop.
    destruct (loopElse _ (r :: Else ir r) prev dee st) as [[x|[nxt dee']] st1];
      [reflexivity|apply IH].
Qed.

Lemma evalValueElse_loop {B} (PlugIn : B -> Term -> Term) (applyIn : B -> Term -> Term * B)
  (evalTerm : Term -> option B -> M St -> M St)
  (evalBody : Rule -> eval -> forall T : Type, (B -> M T) -> M T)
  (key : Reference) (iter : M St) (fOne : bool) :
  forall erules prev dee st,
    evalValueElse PlugIn applyIn evalTerm evalBody key iter erules prev fOne dee st
    = loopElse (fun r p => evalValueRule PlugIn applyIn evalTerm evalBody key iter r p fOne)
        erules prev dee st.
Proof.
  induction erules as [|r rest IH]; intros prev dee st; simpl; [reflexivity|].
  destruct (evalValueRule PlugIn applyIn evalTerm evalBody key iter r prev fOne st)
    as [[nxt [x|]] st1].
  - destruct (isDeferredEarlyExit x); [|reflexivity].
    destruct nxt; [reflexivity|apply IH].
  - destruct nxt; [reflexivity|apply IH].
Qed.

Lemma evalValueRules_loop {B} (PlugIn : B -> Term -> Term) (applyIn : B -> Term -> Term * B)
  (evalTerm : Term -> option B -> M St -> M St)
  (evalBody : Rule -> eval -> forall T : Type, (B -> M T) -> M T)
  (ir : IndexResult) (key : Reference) (iter : M St) (fOne : bool) :
  forall rules prev dee st,
    evalValueRules PlugIn applyIn evalTerm evalBody ir key iter rules prev fOne dee st
    = loopRules (fun r p => evalValueRule PlugIn applyIn evalTerm evalBody key iter r p fOne)
        ir (fun p s => match p with
                       | None => onHeap (set_virtualCache (vcPut key None)) s
                       | Some _ => s
                       end)
        rules prev dee st.
Proof.
  induction rules as [|r rest IH]; intros prev dee st.
  - simpl. destruct (Default ir), prev; reflexivity.
  - cbn [evalValueRules loopRules].
    rewrite evalValueElse_loop.
    destruct (loopElse _ (r :: Else ir r) prev dee st) as [[x|[nxt dee']] st1];
      [reflexivity|apply IH].
Qed.

Lemma okPrev_allSameP (prev : option Term) (seen : list Term) :
  okPrev prev seen -> allSameP seen.
Proof.
  destruct prev as [p|]; simpl.
  - intros [_ H] v1 v2 H1 H2. rewrite (H v1 H1), (H v2 H2). reflexivity.
  - intros -> v1 v2 [].
Qed.

Lemma allSameP_app_l (l1 l2 : list Term) : allSameP (l1 ++ l2) -> allSameP l1.
Proof. intros H v1 v2 H1 H2. apply H; apply in_or_app; now left. Qed.

Lemma allSame_iff (l : list Term) : allSame l = true <-> allSameP l.
Proof.
  destruct l as [|v rest]; simpl.
  - split; [intros _ v1 v2 []|reflexivity].
  - rewrite forallb_forall. split.
    + intros H v1 v2 H1 H2.
      assert (E : forall w, In w (v :: rest) -> w = v).
      { intros w [<-|Hw]; [reflexivity|]. symmetry. apply Equal_true. now apply H. }
      now rewrite (E v1 H1), (E v2 H2).
    + intros H w Hw. apply Equal_true. apply H; [now left|now right].
Qed.

Section LoopConflicts.

Variable one : Rule -> option Term -> St -> (option Term * Result) * St.
Variable ir : IndexResult.
Variable atEnd : option Term -> St -> St.
Variable vals : Rule -> list Term.
Variable c : Conflict.
Variable fOne : bool.
Variable Good : St -> Prop.

(** What the evaluation of one rule comes to when the continuation does not
    fail: a conflict with a value seen before, an early exit, or the values
    of the rule agree with what was seen. *)
Hypothesis one_spec :
  forall r prev st seen res err st',
    Good st -> okPrev prev seen ->
    one r prev st = ((res, err), st') ->
    (res = None <-> vals r = []) /\
    ((err = Some (ConflictErr c) /\ ~ allSameP (seen ++ vals r))
     \/ (err = Some (earlyExitError None) /\ fOne = true)
     \/ (err = None /\ Good st' /\ okPrev (nextPrev res prev) (seen ++ vals r))).

Lemma chainVals_cons (r : Rule) (rest : list Rule) :
  chainVals vals (r :: rest) = match vals r with [] => chainVals vals rest | l => l end.
Proof. reflexivity. Qed.

Lemma loopElse_conflicts :
  forall erules prev st seen out st',
    Good st -> okPrev prev seen ->
    loopElse one erules prev None st = (out, st') ->
    match out with
    | inl x =>
        (x = ConflictErr c /\ ~ allSameP (seen ++ chainVals vals erules))
        \/ (x = earlyExitError None /\ fOne = true)
    | inr (nxt, dee) =>
        dee = None /\ Good st' /\
        okPrev (nextPrev nxt prev) (seen ++ chainVals vals erules)
    end.
Proof.
  induction erules as [|r rest IH]; intros prev st seen out st' HG Hok.
  - simpl. intros [= <- <-]. rewrite app_nil_r. auto.
  - cbn [loopElse]. destruct (one r prev st) as [[res err] st1] eqn:E1.
    destruct (@one_spec r prev st seen res err st1 HG Hok E1) as [Hres Hcase].
    assert (Hv : res <> None -> chainVals vals (r :: rest) = vals r).
    { intros Hn. rewrite chainVals_cons. destruct (vals r); [|reflexivity].
      exfalso. apply Hn. now apply Hres. }
    assert (Hv0 : res = None -> chainVals vals (r :: rest) = chainVals vals rest /\ vals r = []).
    { intros Hn. apply Hres in Hn. rewrite chainVals_cons, Hn. auto. }
    destruct Hcase as [[-> Hns]|[[-> Hf]|(-> & HG1 & Hok1)]].
    + cbn [isDeferredEarlyExit]. intros [= <- <-]. left. split; [reflexivity|].
      destruct res as [v|].
      * rewrite Hv by discriminate. exact Hns.
      * exfalso. destruct (Hv0 eq_refl) as [_ E0]. rewrite E0, app_nil_r in Hns.
        apply Hns. now apply okPrev_allSameP with prev.
    + cbn [isDeferredEarlyExit]. intros [= <- <-]. right. auto.
    + destruct res as [v|].
      * intros [= <- <-]. rewrite Hv by discriminate. auto.
      * intros Hl. destruct (Hv0 eq_refl) as [E0 E1']. rewrite E0.
        apply (IH prev st1 seen out st' HG1 Hok Hl).
Qed.

(** When a rule of the index result has a value, the default rule is left
    out: the loop runs as it does with no default rule. *)
Lemma loopRules_default_unused :
  forall rules prev st seen,
    Good st -> okPrev prev seen ->
    seen ++ flat_map (fun r => chainVals vals (r :: Else ir r)) rules <> [] ->
    loopRules one ir atEnd rules prev None st
    = loopRules one (mkIndexResult (Rules ir) (Else ir) None (EarlyExit ir)) atEnd
        rules prev None st.
Proof.
  induction rules as [|r rest IH]; intros prev st seen HG Hok Hne.
  - simpl in *. rewrite app_nil_r in Hne.
    destruct prev as [p|]; [now destruct (Default ir)|].
    simpl in Hok. congruence.
  - cbn [loopRules flat_map Else] in *.
    destruct (loopElse one (r :: Else ir r) prev None st) as [out st1] eqn:El.
    pose proof (@loopElse_conflicts (r :: Else ir r) prev st seen out st1 HG Hok El) as H.
    destruct out as [x|[nxt dee]]; [reflexivity|].
    destruct H as (-> & HG1 & Hok1).
    apply (IH _ st1 (seen ++ chainVals vals (r :: Else ir r)) HG1 Hok1).
    now rewrite <- app_assoc.
Qed.

Hypothesis default_same : forall d, Default ir = Some d -> allSameP (vals d).

Lemma loopRules_conflicts :
  forall rules prev st seen err st',
    Good st -> okPrev prev seen ->
    loopRules one ir atEnd rules prev None st = (err, st') ->
    (err = Some (ConflictErr c) /\
     ~ allSameP (seen ++ flat_map (fun r => chainVals vals (r :: Else ir r)) rules))
    \/ (err = Some (earlyExitError None) /\ fOne = true)
    \/ (err = None /\
        allSameP (seen ++ flat_map (fun r => chainVals vals (r :: Else ir r)) rules)).
Proof.
  induction rules as [|r rest IH]; intros prev st seen err st' HG Hok.
  - simpl. rewrite app_nil_r.
    destruct (Default ir) as [d|] eqn:Ed; [destruct prev as [p|]|].
    + intros [= <- <-]. right. right. split; [reflexivity|].
      now apply okPrev_allSameP with (Some p).
    + destruct (one d None st) as [[res e1] st1] eqn:E1. intros [= <- <-].
      simpl in Hok. subst seen.
      destruct (@one_spec d None st [] res e1 st1 HG eq_refl E1)
        as [_ [[_ Hns]|[[-> Hf]|(-> & _ & _)]]].
      * exfalso. apply Hns. simpl. now apply default_same.
      * right. left. auto.
      * right. right. split; [reflexivity|]. intros v1 v2 [].
    + intros [= <- <-]. right. right. split; [reflexivity|].
      now apply okPrev_allSameP with prev.
  - cbn [loopRules flat_map].
    destruct (loopElse one (r :: Else ir r) prev None st) as [out st1] eqn:El.
    pose proof (@loopElse_conflicts (r :: Else ir r) prev st seen out st1 HG Hok El) as H.
    destruct out as [x|[nxt dee]].
    + intros [= <- <-]. destruct H as [[-> Hns]|[-> Hf]].
      * left. split; [reflexivity|]. intros Hall. apply Hns.
        rewrite app_assoc in Hall. now apply allSameP_app_l in Hall.
      * right. left. auto.
    + destruct H as (-> & HG1 & Hok1). intros Hl.
      rewrite app_assoc.
      apply (IH _ st1 _ err st' HG1 Hok1 Hl).
Qed.

End LoopConflicts.

Lemma allSame_false_iff (l : list Term) :
  allSame l = false <-> exists v1 v2, In v1 l /\ In v2 l /\ v1 <> v2.
Proof.
  split.
  - destruct l as [|v rest]; simpl; [discriminate|].
    intros H.
    assert (E : existsb (fun w => negb (Equal v w)) rest = true).
    { clear -H. induction rest as [|w rest IH]; simpl in *; [discriminate|].
      destruct (Equal v w); simpl in *; auto. }
    apply existsb_exists in E. destruct E as (w & Hw & Hne).
    exists v, w. split; [now left|]. split; [now right|].
    apply Equal_false. now destruct (Equal v w).
  - intros (v1 & v2 & H1 & H2 & Hne).
    destruct (allSame l) eqn:E; [|reflexivity].
    exfalso. apply Hne. apply allSame_iff in E. now apply E.
Qed.

Lemma chainVals_In (vals : Rule -> list Term) (v : Term) :
  forall rs, In v (chainVals vals rs) -> exists r, In r rs /\ In v (vals r).
Proof.
  induction rs as [|r rest IH]; simpl; [tauto|].
  destruct (vals r) as [|w l] eqn:E.
  - intros H. destruct (IH H) as (r' & Hr' & Hv). exists r'. auto.
  - intros H. exists r. rewrite E. auto.
Qed.

Lemma allVals_indexed (vals : Rule -> list Term) (ir : IndexResult) (v : Term) :
  In v (allVals vals ir) -> In v (flat_map vals (indexedRules ir)).
Proof.
  unfold allVals, indexedRules. intros H.
  apply in_flat_map in H. destruct H as (r & Hr & Hv).
  apply chainVals_In in Hv. destruct Hv as (r' & Hr' & Hv').
  apply in_flat_map. exists r'. split; [|exact Hv'].
  apply in_flat_map. exists r. auto.
Qed.

Lemma allSame_allVals_perm (vals : Rule -> list Term) (ir : IndexResult) (rules' : list Rule) :
  Permutation (Rules ir) rules' ->
  allSame (allVals vals (mkIndexResult rules' (Else ir) (Default ir) (EarlyExit ir)))
  = allSame (allVals vals ir).
Proof.
  intros Hp.
  assert (Hin : forall v, In v (allVals vals
                                  (mkIndexResult rules' (Else ir) (Default ir) (EarlyExit ir)))
                          <-> In v (allVals vals ir)).
  { intros v. unfold allVals. simpl. rewrite !in_flat_map.
    split; intros (r & Hr & Hv); exists r; split; auto.
    - apply Permutation_in with rules'; [now apply Permutation_sym|exact Hr].
    - now apply Permutation_in with (Rules ir). }
  destruct (allSame (allVals vals ir)) eqn:E.
  - apply allSame_iff. apply allSame_iff in E.
    intros v1 v2 H1 H2. apply E; now apply Hin.
  - apply allSame_false_iff. apply allSame_false_iff in E.
    destruct E as (v1 & v2 & H1 & H2 & Hne). exists v1, v2.
    repeat split; auto; now apply Hin.
Qed.

(** * The claims *)

(** ** Negation in a frame copied from the frame of a negation *)

Section NegationDefinedFlag.

Let r1 := mkRule 1 [] (Number 1) 0.
Let r2 := mkRule 2 [] (Number 1) 1.
Let e0 := mkEval false false false 0 (Some (Object [(String "a", Boolean true)])) None.
Let h0 := mkHeap [] [] [] [] [] [] 0 0 [].

(** C1 (the code breaks the claim in a frame whose [defined] field is set).
    [closure] copies the whole frame, the field [defined] with it, and
    [evalNot] never clears the field of the closure before the complement is
    evaluated.  Outside partial evaluation, with a complement that has no
    solution: in a frame with [defined] unset the continuation is called; in a
    frame with [defined] set it is not, and the negation fails.  Such a frame
    arises under an outer negation: for [not data.t.p] with the rules above,
    the first rule sets [defined] in the frame of the outer closure, the frame
    of the second rule is a copy of it, [not input.b] fails there, the else
    rule gives 2 and the evaluation ends with a conflict; with the two rules in
    the other order it ends with no error and the outer negation fails. *)
Theorem evalNot_defined_copied :
  (forall (S B : Type) (sr : bool) (np : M (eval * S) -> M (eval * S))
          (iter : M (eval * S)) (fo : bool) (i : nat) (inp dat : option Term) (st : S),
      evalNot sr np (streamEval (mkSearch (@nil B) None)) iter
        (mkEval fo false false i inp dat, st)
      = iter (mkEval fo false false i inp dat, st)
      /\ evalNot sr np (streamEval (mkSearch (@nil B) None)) iter
           (mkEval fo true false i inp dat, st)
         = (None, (mkEval fo true false i inp dat, st)))
  /\ fst (evalNot false (fun it => it) (completeDocComplement [r1; r2])
            (fun s => (Some (InternalErr "continuation"), s)) (e0, h0))
     = Some (ConflictErr completeDocConflict)
  /\ evalNot false (fun it => it) (completeDocComplement [r2; r1])
       (fun s => (Some (InternalErr "continuation"), s)) (e0, h0)
     = (None,
        (e0, mkHeap [[([Var "data"; String "t"; String "p"], Some (Number 1))]]
               [] [] [] [] [] 0 1 [])).
Proof.
  split; [|split; vm_compute; reflexivity].
  intros S B sr np iter fo i inp dat st. split.
  - now rewrite evalNot_stream.
  - now rewrite evalNot_stream.
Qed.

End NegationDefinedFlag.

Section CompleteConflict.

Variable B : Type.
Variable PlugIn : B -> Term -> Term.
Variable applyIn : B -> Term -> Term * B.
Variable evalTerm : Term -> option B -> M St -> M St.
Variable body : Rule -> Search B.
Variable key : Reference.
Variable iter : M St.
Variable fOne : bool.

(** No rule body ends in an error, and the continuation does not fail. *)
Hypothesis body_fin : forall r, fin (body r) = None.
Hypothesis iter_ok : forall t tb s, fst (evalTerm t tb iter s) = None.

Let vals := ruleVals PlugIn body.

Lemma complete_step (rule : Rule) (c : eval) (b : B) (res prev : option Term) (st : St) :
  let v := PlugIn b (HeadValue rule) in
  let ee (vs : RuleVars * St) : Result * (RuleVars * St) :=
    if findOne c && negb (partial c) then (Some (earlyExitError None), vs) else (None, vs) in
  evalExprEnd c (evalValueRuleCallback PlugIn applyIn evalTerm key iter rule b) ((res, prev), st)
  = match prev with
    | Some p =>
        if Equal v p then ee ((Some v, prev), st)
        else (Some (ConflictErr completeDocConflict), ((Some v, prev), st))
    | None =>
        ee ((Some v, Some v),
            snd (evalTerm (fst (applyIn b (HeadValue rule)))
                   (Some (snd (applyIn b (HeadValue rule)))) iter
                   (onHeap (set_virtualCache (vcPut key (Some v))) st)))
    end.
Proof.
  intros v ee. unfold evalExprEnd, evalValueRuleCallback. fold v.
  destruct prev as [p|].
  - destruct (Equal v p); reflexivity.
  - destruct (applyIn b (HeadValue rule)) as [t tb]. cbn [fst snd].
    pose proof (iter_ok t (Some tb) (onHeap (set_virtualCache (vcPut key (Some v))) st)) as Hi.
    destruct (evalTerm t (Some tb) iter (onHeap (set_virtualCache (vcPut key (Some v))) st))
      as [e0 s2].
    simpl in Hi. subst e0. reflexivity.
Qed.

Lemma complete_enumerate (rule : Rule) (c : eval) :
  findOne c = fOne ->
  forall (l : list B) res prev st seen err res' prev' st',
    okPrev prev seen ->
    enumerate l None
      (fun b => evalExprEnd c (evalValueRuleCallback PlugIn applyIn evalTerm key iter rule b))
      ((res, prev), st) = (err, ((res', prev'), st')) ->
    (l = [] -> res' = res) /\ (l <> [] -> res' <> None) /\
    ((err = Some (ConflictErr completeDocConflict) /\
      ~ allSameP (seen ++ map (fun b => PlugIn b (HeadValue rule)) l))
     \/ (err = Some (earlyExitError None) /\ fOne = true)
     \/ (err = None /\
         okPrev prev' (seen ++ map (fun b => PlugIn b (HeadValue rule)) l) /\
         (l <> [] -> res' = prev'))).
Proof.
  intros Hc. induction l as [|b l IH]; intros res prev st seen err res' prev' st' Hok.
  - simpl. intros [= <- <- <- <-]. rewrite app_nil_r.
    split; [auto|]. split; [congruence|]. right. right. split; [reflexivity|].
    split; [exact Hok|congruence].
  - cbn [enumerate map]. unfold andThen. rewrite complete_step.
    set (v := PlugIn b (HeadValue rule)).
    assert (Hcont : forall p s,
               okPrev (Some p) (seen ++ [v]) -> v = p ->
               (let (r0, st0) :=
                  if findOne c && negb (partial c)
                  then (Some (earlyExitError None), ((Some v, Some p), s))
                  else (None, ((Some v, Some p), s)) in
                match r0 with
                | Some e => (Some e, st0)
                | None =>
                    enumerate l None
                      (fun b0 => evalExprEnd c
                         (evalValueRuleCallback PlugIn applyIn evalTerm key iter rule b0)) st0
                end) = (err, ((res', prev'), st')) ->
               (b :: l = [] -> res' = res) /\ (b :: l <> [] -> res' <> None) /\
               ((err = Some (ConflictErr completeDocConflict) /\
                 ~ allSameP (seen ++ v :: map (fun b0 => PlugIn b0 (HeadValue rule)) l))
                \/ (err = Some (earlyExitError None) /\ fOne = true)
                \/ (err = None /\
                    okPrev prev' (seen ++ v :: map (fun b0 => PlugIn b0 (HeadValue rule)) l) /\
                    (b :: l <> [] -> res' = prev')))).
    { intros p s Hok' Hvp Hrun.
      split; [discriminate|].
      destruct (findOne c && negb (partial c)) eqn:Efo.
      - injection Hrun as <- <- <- <-. split; [discriminate|].
        right. left. split; [reflexivity|].
        rewrite <- Hc. now apply andb_prop in Efo.
      - destruct (IH _ _ _ _ _ _ _ _ Hok' Hrun) as (H0 & H1 & Hcase).
        replace (seen ++ v :: map (fun b0 => PlugIn b0 (HeadValue rule)) l)
          with ((seen ++ [v]) ++ map (fun b0 => PlugIn b0 (HeadValue rule)) l)
          by (rewrite <- app_assoc; reflexivity).
        split.
        + intros _. destruct l as [|b1 l1]; [rewrite H0 by reflexivity; discriminate|].
          apply H1. discriminate.
        + destruct Hcase as [Hx|[Hx|(He & Hok2 & Hrp)]]; [now left|right; now left|].
          right. right. split; [exact He|]. split; [exact Hok2|].
          intros _. destruct l as [|b1 l1]; [|apply Hrp; discriminate].
          rewrite H0 by reflexivity.
          simpl in Hrun. injection Hrun as <- <- <- <-. now rewrite Hvp. }
    destruct prev as [p|].
    + destruct (Equal v p) eqn:Evp.
      * apply Equal_true in Evp. intros Hrun.
        apply (Hcont p st); [|exact Evp|exact Hrun].
        destruct Hok as [Hne Hall]. split; [now destruct seen|].
        intros w Hw. apply in_app_or in Hw. destruct Hw as [Hw|[<-|[]]]; auto.
      * intros [= <- <- <- <-].
        split; [discriminate|]. split; [discriminate|].
        left. split; [reflexivity|]. intros Hall.
        apply Equal_false in Evp. apply Evp.
        destruct Hok as [Hne Hall']. destruct seen as [|w seen']; [congruence|].
        rewrite <- (Hall' w (or_introl eq_refl)).
        apply Hall; apply in_or_app; [right; now left|left; now left].
    + simpl in Hok. subst seen. intros Hrun.
      refine (Hcont v _ _ eq_refl Hrun).
      simpl. split; [discriminate|]. intros w [<-|[]]. reflexivity.
Qed.

Lemma evalValueRule_spec (r : Rule) (prev : option Term) (st : St) (seen : list Term)
  (res : option Term) (err : Result) (st' : St) :
  True -> okPrev prev seen ->
  evalValueRule PlugIn applyIn evalTerm (ruleStream body) key iter r prev fOne st
  = ((res, err), st') ->
  (res = None <-> vals r = []) /\
  ((err = Some (ConflictErr completeDocConflict) /\ ~ allSameP (seen ++ vals r))
   \/ (err = Some (earlyExitError None) /\ fOne = true)
   \/ (err = None /\ True /\ okPrev (nextPrev res prev) (seen ++ vals r))).
Proof.
  intros _ Hok. unfold evalValueRule, ruleStream, evalQuery. rewrite body_fin.
  destruct (enumerate (sols (body r)) None
              (fun b => evalExprEnd (set_findOne fOne (child (fst st)))
                          (evalValueRuleCallback PlugIn applyIn evalTerm key iter r b))
              ((None, prev), st)) as [e1 [[res1 prev1] st1]] eqn:Erun.
  intros [= <- <- <-].
  destruct (@complete_enumerate r (set_findOne fOne (child (fst st))) eq_refl
              (sols (body r)) None prev st seen e1 res1 prev1 st1 Hok Erun)
    as (H0 & H1 & Hcase).
  unfold vals, ruleVals.
  split.
  - split.
    + intros ->. destruct (sols (body r)); [reflexivity|]. exfalso. now apply H1.
    + intros E. apply map_eq_nil in E. now apply H0.
  - destruct Hcase as [Hx|[Hx|(He & Hok2 & Hrp)]]; [now left|right; now left|].
    right. right. split; [exact He|]. split; [exact I|].
    destruct (sols (body r)) as [|b l] eqn:Es.
    + simpl in Erun. inversion Erun; subst. simpl. rewrite app_nil_r. exact Hok.
    + assert (Hn : res1 <> None) by (apply H1; discriminate).
      rewrite (Hrp ltac:(discriminate)) in *.
      destruct prev1; [exact Hok2|congruence].
Qed.

Variable ir : IndexResult.

(** The early-exit hint of the rule index: it is set only for rules that all
    have the same value.  A default rule has one value. *)
Hypothesis index_early_exit : fOne = true -> allSameP (flat_map vals (indexedRules ir)).
Hypothesis default_value : forall d, Default ir = Some d -> allSameP (vals d).

Lemma evalValue_outcome (rules : list Rule) (st : St) :
  (forall v, In v (flat_map (fun r => chainVals vals (r :: Else ir r)) rules) ->
             In v (flat_map vals (indexedRules ir))) ->
  vcGet (virtualCache (snd st)) key = (None, false) ->
  fst (evalValue PlugIn applyIn evalTerm (ruleStream body)
         (mkIndexResult rules (Else ir) (Default ir) (EarlyExit ir)) key iter fOne st)
  = if allSame (flat_map (fun r => chainVals vals (r :: Else ir r)) rules)
    then None else Some (ConflictErr completeDocConflict).
Proof.
  intros Hsub Hmiss. unfold evalValue. rewrite Hmiss. unfold withSuppressEarlyExit.
  rewrite evalValueRules_loop. cbn [Rules].
  match goal with
  | |- fst (let (_, _) := ?X in _) = _ => destruct X as [err st'] eqn:Erun
  end.
  pose proof (@loopRules_conflicts _
                (mkIndexResult rules (Else ir) (Default ir) (EarlyExit ir)) _
                vals completeDocConflict fOne (fun _ => True)
                evalValueRule_spec default_value rules None _ [] err st' I eq_refl Erun)
    as H.
  cbn [Else app] in H.
  destruct H as [[-> Hns]|[[-> Hf]|[-> Hs]]]; cbn [fst suppressEarlyExit].
  - destruct (allSame _) eqn:E; [|reflexivity].
    exfalso. apply Hns. now apply allSame_iff.
  - assert (E : allSame (flat_map (fun r => chainVals vals (r :: Else ir r)) rules) = true).
    { apply allSame_iff. intros v1 v2 H1 H2.
      apply (index_early_exit Hf); now apply Hsub. }
    now rewrite E.
  - apply allSame_iff in Hs. now rewrite Hs.
Qed.

End CompleteConflict.

(** C2 (the code breaks the claim: the outcome depends on the order of the
    rules).  The complete document [data.t.p] has the rules

      p = 1 if input.a                 (rule 1)
      p = 1 if not input.b else = 2    (rule 2, else rule 3)

    and is evaluated under the input [{"a": true}] as the complement of the
    query [not data.t.p], whose callback sets the field [defined] of the
    frame the document is evaluated in.  [child] copies that field into the
    frame of each rule.  With rule 1 first, its solution sets the field, the
    frame of rule 2 is a copy, [not input.b] fails there though [input.b]
    has no solution, the else rule gives 2 and the evaluation ends with a
    conflict.  With rule 2 first, [not input.b] succeeds, both rules give 1
    and there is no error.  The two lists hold the same rules. *)
Theorem evalValue_order_dependent :
  let key := [Var "data"; String "t"; String "p"] in
  let r1 := mkRule 1 [] (Number 1) 0 in
  let r2 := mkRule 2 [] (Number 1) 1 in
  let found : M St := modify (fun s => (set_defined true (fst s), snd s)) in
  let run (rules : list Rule) : Result :=
    fst (evalValue (fun (_ : unit) t => t) (fun b t => (t, b)) (fun _ _ it => it)
           negationRules (negationIndex rules) key found false
           (mkEval false false false 0 (Some (Object [(String "a", Boolean true)])) None,
            mkHeap [] [] [] [] [] [] 0 0 [])) in
  Permutation [r1; r2] [r2; r1]
  /\ run [r1; r2] = Some (ConflictErr completeDocConflict)
  /\ run [r2; r1] = None.
Proof.
  intros key r1 r2 found run. split; [apply perm_swap|].
  split; vm_compute; reflexivity.
Qed.

Section EveryQuantifier.

Variable B : Type.
Variable Plug : Term -> Term.
Variable Domain : Term.
Variable domainSaveRequired : bool.
Variable bodySaveRequired : bool.
Variable save : M St -> M St.

(** The solutions of the generator [Domain[Key] = Value]: one for each pair
    drawn from the domain; and the solutions of the body at each of them. *)
Variable gen : Search B.
Variable body : B -> Search B.

Lemma every_body (c : eval) (b : B) (st : St) :
  findOne c = true ->
  fin (body b) = None ->
  exists r,
    queryStream (body b) c (fun _ => modify (fun ds : bool * St => (true, snd ds))) (false, st)
    = (r, (negb (noSolution (body b)), st)) /\ suppressEarlyExit r = None.
Proof.
  intros Hf Hfin. unfold queryStream, evalQuery, noSolution. rewrite Hfin.
  destruct (sols (body b)) as [|b0 rest]; simpl.
  - exists None. split; reflexivity.
  - unfold andThen, evalExprEnd, modify. simpl. rewrite Hf. simpl.
    destruct (partial c); simpl.
    + exists None. split; [|reflexivity].
      assert (H : forall l, enumerate l None
                     (fun _ : B => fun st0 : bool * St =>
                        if true && negb true then (Some (earlyExitError None), (true, snd st0))
                        else (None, (true, snd st0))) (true, st) = (None, (true, st))).
      { induction l as [|y l IH]; simpl; [reflexivity|]. unfold andThen. simpl. exact IH. }
      simpl in H. simpl. apply H.
    + exists (Some (earlyExitError None)). split; reflexivity.
Qed.

Lemma every_loop (e : eval) (iter : M St) (st : St) :
  forall (l : list B) (all : bool),
    (forall b, In b l -> fin (body b) = None) ->
    enumerate l None
      (fun b =>
         evalExprEnd (closure e)
           (fun als : bool * St =>
              let (all, s) := als in
              if negb all then (None, (all, s))
              else
                let '(err, (done, s')) :=
                  queryStream (body b) (set_findOne true (closure (closure e)))
                    (fun _ => modify (fun ds : bool * St => (true, snd ds))) (false, s) in
                (suppressEarlyExit err, (if negb done then false else all, s'))))
      (all, st)
    = (None, (all && forallb (fun b => negb (noSolution (body b))) l, st)).
Proof.
  induction l as [|b l IH]; intros all Hfin; simpl.
  - now rewrite andb_true_r.
  - unfold andThen, evalExprEnd at 1. simpl.
    destruct all; simpl.
    + destruct (@every_body (set_findOne true (closure (closure e))) b st eq_refl
                  (Hfin b (or_introl eq_refl))) as (r & Hr & Hs).
      rewrite Hr, Hs. simpl.
      rewrite IH by (intros b' Hb'; apply Hfin; now right).
      destruct (noSolution (body b)); reflexivity.
    + rewrite IH by (intros b' Hb'; apply Hfin; now right). reflexivity.
Qed.

(** C3. [every k, v in D { body }] with no unknowns.  If the plugged domain
    is not an array, an object or a set, the expression fails silently: no
    error, and the continuation is not called.  Otherwise (no evaluation
    error in the generator or in a body) the continuation is called, once, if
    and only if the body has at least one solution at every pair the
    generator draws from the domain. *)
Theorem evalEvery_succeeds_iff (iter : M St) (st : St) :
  (partial (fst st) && domainSaveRequired || partial (fst st) && bodySaveRequired) = false ->
  (isIterableValue (Plug Domain) = false ->
   evalEvery Plug Domain domainSaveRequired bodySaveRequired save
     (queryStream gen) (fun b => queryStream (body b)) iter st = (None, st)) /\
  (isIterableValue (Plug Domain) = true ->
   fin gen = None ->
   (forall b, In b (sols gen) -> fin (body b) = None) ->
   evalEvery Plug Domain domainSaveRequired bodySaveRequired save
     (queryStream gen) (fun b => queryStream (body b)) iter st
   = if forallb (fun b => negb (noSolution (body b))) (sols gen)
     then iter st else (None, st)).
Proof.
  intros Hk. split.
  - intros Hit. unfold evalEvery. rewrite Hk, Hit. reflexivity.
  - intros Hit Hg Hb. unfold evalEvery. rewrite Hk, Hit. simpl negb. cbv iota.
    unfold queryStream at 1. unfold evalQuery. rewrite Hg.
    rewrite (every_loop (fst st) iter st (sols gen) true Hb). simpl.
    destruct (forallb (fun b => negb (noSolution (body b))) (sols gen)); reflexivity.
Qed.

End EveryQuantifier.

(** [every x in [1, 2, 3] { x > 0 }]: one solution of the body at each
    element, and the continuation runs; with the string "not iterable" as
    the domain it does not (scenario 5 of the specification). *)
Lemma evalEvery_succeeds_iff_witness :
  let st := (mkEval false false false 0 None None, mkHeap [] [] [] [] [] [] 0 0 []) in
  let gen := mkSearch [Number 1; Number 2; Number 3] None in
  let body := fun x : Term => mkSearch [x] None in
  evalEvery (fun t => t) (Array [Number 1; Number 2; Number 3]) false false (fun iter => iter)
    (queryStream gen) (fun b => queryStream (body b)) (fun s => (Some CancelErr, s)) st
  = (Some CancelErr, st)
  /\ evalEvery (fun t => t) (String "not iterable") false false (fun iter => iter)
       (queryStream gen) (fun b => queryStream (body b)) (fun s => (Some CancelErr, s)) st
     = (None, st).
Proof.
  intros st gen body. split.
  - apply (proj2 (@evalEvery_succeeds_iff Term (fun t => t)
                    (Array [Number 1; Number 2; Number 3]) false false (fun iter => iter)
                    gen body (fun s => (Some CancelErr, s)) st eq_refl) eq_refl eq_refl).
    intros b _. reflexivity.
  - apply (proj1 (@evalEvery_succeeds_iff Term (fun t => t)
                    (String "not iterable") false false (fun iter => iter)
                    gen body (fun s => (Some CancelErr, s)) st eq_refl) eq_refl).
Defined.

(** ** with: the replaced state is put back *)

Section WithIsolation.

Variable B : Type.
Variable isFunction : Term -> bool.
Variable isBuiltin : Term -> bool.
Variable Plug : Term -> Term.
Variable mergeTermWithValues : option Term -> list (Term * Term) -> option Term + string.
Variable withValueUnknown : bool.
Variable disable : list Reference.
Variable saveExprMarkUnknowns : M St -> M St.
Variable evalExpr : M St -> M St.
Variable s : Search B.
Variable ws : list With.
Variable iter : M St.

(** [evalWithPush] keeps the old term only when the merged term is not nil,
    and [evalWithPop] assigns what was kept: the merge gives nil only for a
    term that is nil. *)
Hypothesis merge_nil :
  forall t pairs, mergeTermWithValues t pairs = inl None -> t = None.

(** C4. An expression with [with] modifiers is evaluated and the expression
    is not saved whole (outside partial evaluation, or no replacement value is
    unknown); the rest of the body leaves the input, the data, the function
    mocks, the targets and the scopes of the two caches as it finds them.
    Then these are, when [evalWith] returns, what they were when it was
    entered, whether the merge of a replacement fails, the expression has no
    solution, the walk ends in an error or it succeeds; and when the merges
    succeed the rest of the body runs, at each solution of the expression, on
    the state with the replacements popped: [evalWith] is the walk of the
    solutions with [next] run on the state it was entered with. *)
Theorem evalWith_restores (st : St) :
  partial (fst st) && withValueUnknown = false ->
  (forall s0, withFrame s0 = withFrame st ->
              withFrame (snd (evalExpr iter s0)) = withFrame st) ->
  withFrame
    (snd (evalWith isFunction isBuiltin Plug mergeTermWithValues withValueUnknown disable
            saveExprMarkUnknowns evalExpr (stepStream s) ws iter st))
  = withFrame st
  /\ (forall input' data',
         mergeTermWithValues (input (fst st))
           (fst (fst (fst (partitionWith isFunction isBuiltin Plug ws)))) = inl input' ->
         mergeTermWithValues (data (fst st))
           (snd (fst (fst (partitionWith isFunction isBuiltin Plug ws)))) = inl data' ->
         evalWith isFunction isBuiltin Plug mergeTermWithValues withValueUnknown disable
           saveExprMarkUnknowns evalExpr (stepStream s) ws iter st
         = enumerate (sols s) (fin s) (fun _ => next evalExpr iter) st).
Proof.
  intros Hp HK.
  destruct (mergeTermWithValues (input (fst st))
              (fst (fst (fst (partitionWith isFunction isBuiltin Plug ws)))))
    as [input'|msg] eqn:Ei.
  - destruct (mergeTermWithValues (data (fst st))
                (snd (fst (fst (partitionWith isFunction isBuiltin Plug ws)))))
      as [data'|msg] eqn:Ed.
    + assert (Hi : input' = None -> input (fst st) = None).
      { intros ->. exact (@merge_nil _ _ Ei). }
      assert (Hd : data' = None -> data (fst st) = None).
      { intros ->. exact (@merge_nil _ _ Ed). }
      destruct (@evalWith_stream B isFunction isBuiltin Plug mergeTermWithValues
                  withValueUnknown disable saveExprMarkUnknowns evalExpr s ws iter st
                  (withFrame st) input' data' Hp Ei Ed Hi Hd eq_refl HK) as [He HF].
      split; [exact HF|]. intros i' d' [= <-] [= <-]. exact He.
    + split; [|discriminate].
      unfold evalWith. rewrite Hp.
      destruct (partitionWith isFunction isBuiltin Plug ws) as [[[pin pdat] mocks] targets].
      simpl in Ei, Ed. now rewrite Ei, Ed.
  - split; [|discriminate].
    unfold evalWith. rewrite Hp.
    destruct (partitionWith isFunction isBuiltin Plug ws) as [[[pin pdat] mocks] targets].
    simpl in Ei. now rewrite Ei.
Qed.

End WithIsolation.

(** [input.a == 1 with input as {"a": 1}] under the input [{"a": 2}]; the
    rest of the body is empty, and the input is [{"a": 2}] afterwards. *)
Lemma evalWith_restores_witness :
  let merge := fun (t : option Term) (pairs : list (Term * Term)) =>
                 @inl (option Term) string
                   (match pairs with [] => t | p :: _ => Some (snd p) end) in
  let ws := [mkWith (Ref [Var "input"]) (Object [(String "a", Number 1)])] in
  let st := (mkEval false false false 0 (Some (Object [(String "a", Number 2)])) None,
             mkHeap [] [] [] [] [] [] 0 0 []) in
  withFrame
    (snd (evalWith (fun _ => false) (fun _ => false) (fun t => t) merge false []
            (fun it => it) (fun it => it) (stepStream (mkSearch [tt] None)) ws
            (ret None) st))
  = (Some (Object [(String "a", Number 2)]), None, [], [], [], []).
Proof.
  intros merge ws st.
  refine (proj1 (@evalWith_restores unit (fun _ => false) (fun _ => false) (fun t => t)
                   merge false [] (fun it => it) (fun it => it) (mkSearch [tt] None) ws
                   (ret None) _ st eq_refl (fun s0 H => H))).
  intros t [|p pairs]; unfold merge; intros H; [now injection H|discriminate H].
Defined.

(** ** Function calls: conflicts, equal values and the default rule *)

Section FunctionConflict.

Variable B : Type.
Variable PlugIn : B -> Term -> Term.
Variable Plug : Term -> Term.
Variable IsGround : Term -> bool.
Variable unify : Term -> Term -> M St -> M St.
Variable saveContains : B -> Term -> bool.
Variable saveExpr : B -> Term -> M St -> M St.
Variable body : Rule -> Search B.
Variable terms : list Term.
Variable iter : M St.
Variable fOne : bool.
Variable argCount : nat.

(** No rule ends in an error of its own; outside partial evaluation the save
    set is nil; the continuation does not fail (and leaves the frame outside
    partial evaluation). *)
Hypothesis body_fin : forall r, fin (body r) = None.
Hypothesis save_nil : forall b t, saveContains b t = false.
Hypothesis iter_ok :
  forall s, partial (fst s) = false ->
            fst (iter s) = None /\ partial (fst (snd (iter s))) = false.

Let vals := ruleVals PlugIn body.
Let Good (s : St) : Prop := partial (fst s) = false.

(** The cache key [evalCache] computes. *)
Let key : Reference :=
  map (fun t => if IsGround t then t else Plug t)
    (firstn (if length terms =? argCount + 2 then pred (length terms) else length terms) terms).

Let put (v : Term) (s : St) : St := onHeap (set_virtualCache (vcPut key (Some v))) s.

(** Whether the continuation is called for the value [v] of a rule with the
    head arguments [args]: not for the literal false when the call leaves the
    output out. *)
Let falseCase (rule : Rule) (v : Term) : bool :=
  noOutput terms (length (HeadArgs rule)) && isFalse v.

Lemma func_step (rule : Rule) (c : eval) (b : B) (res prev : option Term) (st : St) :
  Good st -> partial c = false ->
  let v := PlugIn b (HeadValue rule) in
  let ee (vs : RuleVars * St) : Result * (RuleVars * St) :=
    if findOne c then (Some (earlyExitError None), vs) else (None, vs) in
  evalExprEnd c (evalOneRuleCallback PlugIn saveContains saveExpr terms iter rule (Some key) b)
    ((res, prev), st)
  = match prev with
    | Some p =>
        if Equal p v then ee ((Some v, Some v), put v st)
        else (Some (ConflictErr functionConflict), ((Some v, prev), put v st))
    | None =>
        ee ((Some v, Some v), if falseCase rule v then put v st else snd (iter (put v st)))
    end.
Proof.
  intros HG Hpc v ee. unfold evalExprEnd, evalOneRuleCallback.
  rewrite save_nil, andb_false_r. fold v. fold (put v st). fold (falseCase rule v).
  assert (HGp : partial (fst (put v st)) = false) by exact HG.
  rewrite HGp, Hpc. cbn [negb]. rewrite andb_true_r. unfold ee.
  destruct (falseCase rule v).
  - destruct prev as [p|]; [|reflexivity].
    destruct (Equal p v) eqn:E; reflexivity.
  - destruct prev as [p|].
    + destruct (Equal p v) eqn:E; cbn [negb]; [|reflexivity].
      apply Equal_true in E. subst p. reflexivity.
    + destruct (iter_ok (put v st) HGp) as [Hi _].
      destruct (iter (put v st)) as [e0 s2]. simpl in Hi. subst e0. reflexivity.
Qed.

Lemma Good_put (v : Term) (s : St) : Good s -> Good (put v s).
Proof. exact (fun H => H). Qed.

Lemma Good_first (rule : Rule) (v : Term) (s : St) :
  Good s -> Good (if falseCase rule v then put v s else snd (iter (put v s))).
Proof.
  intros H. destruct (falseCase rule v); [exact H|].
  now destruct (iter_ok (put v s) H).
Qed.

Lemma func_enumerate (rule : Rule) (c : eval) :
  findOne c = fOne -> partial c = false ->
  forall (l : list B) res prev st seen err res' prev' st',
    Good st -> okPrev prev seen ->
    enumerate l None
      (fun b => evalExprEnd c
         (evalOneRuleCallback PlugIn saveContains saveExpr terms iter rule (Some key) b))
      ((res, prev), st) = (err, ((res', prev'), st')) ->
    (l = [] -> res' = res /\ prev' = prev) /\ (l <> [] -> res' <> None) /\
    ((err = Some (ConflictErr functionConflict) /\
      ~ allSameP (seen ++ map (fun b => PlugIn b (HeadValue rule)) l))
     \/ (err = Some (earlyExitError None) /\ fOne = true)
     \/ (err = None /\ Good st' /\
         okPrev prev' (seen ++ map (fun b => PlugIn b (HeadValue rule)) l) /\
         (l <> [] -> res' = prev'))).
Proof.
  intros Hc Hpc.
  induction l as [|b l IH]; intros res prev st seen err res' prev' st' HG Hok.
  - simpl. intros [= <- <- <- <-]. rewrite app_nil_r.
    split; [auto|]. split; [congruence|]. right. right. split; [reflexivity|].
    split; [exact HG|]. split; [exact Hok|congruence].
  - cbn [enumerate map]. unfold andThen. rewrite (@func_step rule c b res prev st HG Hpc).
    set (v := PlugIn b (HeadValue rule)).
    assert (Hcont : forall s,
               Good s -> okPrev (Some v) (seen ++ [v]) ->
               (let (r0, st0) :=
                  if findOne c
                  then (Some (earlyExitError None), ((Some v, Some v), s))
                  else (None, ((Some v, Some v), s)) in
                match r0 with
                | Some e => (Some e, st0)
                | None =>
                    enumerate l None
                      (fun b0 => evalExprEnd c
                         (evalOneRuleCallback PlugIn saveContains saveExpr terms iter rule
                            (Some key) b0)) st0
                end) = (err, ((res', prev'), st')) ->
               (b :: l = [] -> res' = res /\ prev' = prev) /\ (b :: l <> [] -> res' <> None) /\
               ((err = Some (ConflictErr functionConflict) /\
                 ~ allSameP (seen ++ v :: map (fun b0 => PlugIn b0 (HeadValue rule)) l))
                \/ (err = Some (earlyExitError None) /\ fOne = true)
                \/ (err = None /\ Good st' /\
                    okPrev prev' (seen ++ v :: map (fun b0 => PlugIn b0 (HeadValue rule)) l) /\
                    (b :: l <> [] -> res' = prev')))).
    { intros s HGs Hok' Hrun.
      split; [discriminate|].
      destruct (findOne c) eqn:Efo.
      - injection Hrun as <- <- <- <-. split; [discriminate|].
        right. left. split; [reflexivity|]. now rewrite <- Hc.
      - destruct (IH _ _ _ _ _ _ _ _ HGs Hok' Hrun) as (H0 & H1 & Hcase).
        replace (seen ++ v :: map (fun b0 => PlugIn b0 (HeadValue rule)) l)
          with ((seen ++ [v]) ++ map (fun b0 => PlugIn b0 (HeadValue rule)) l)
          by (rewrite <- app_assoc; reflexivity).
        split.
        + intros _. destruct l as [|b1 l1].
          * destruct (H0 eq_refl) as [-> _]. discriminate.
          * apply H1. discriminate.
        + destruct Hcase as [Hx|[Hx|(He & HG2 & Hok2 & Hrp)]]; [now left|right; now left|].
          right. right. split; [exact He|]. split; [exact HG2|]. split; [exact Hok2|].
          intros _. destruct l as [|b1 l1]; [|apply Hrp; discriminate].
          destruct (H0 eq_refl) as [-> ->]. reflexivity. }
    destruct prev as [p|].
    + destruct (Equal p v) eqn:Evp.
      * apply Equal_true in Evp. subst p. intros Hrun.
        apply (Hcont (put v st)); [exact HG| |exact Hrun].
        destruct Hok as [Hne Hall]. split; [now destruct seen|].
        intros w Hw. apply in_app_or in Hw. destruct Hw as [Hw|[<-|[]]]; auto.
      * intros [= <- <- <- <-].
        split; [discriminate|]. split; [discriminate|].
        left. split; [reflexivity|]. intros Hall.
        apply Equal_false in Evp. apply Evp.
        destruct Hok as [Hne Hall']. destruct seen as [|w seen']; [congruence|].
        rewrite <- (Hall' w (or_introl eq_refl)).
        apply Hall; apply in_or_app; [left; now left|right; now left].
    + simpl in Hok. subst seen. intros Hrun.
      refine (Hcont _ (@Good_first rule v st HG) _ Hrun).
      simpl. split; [discriminate|]. intros w [<-|[]]. reflexivity.
Qed.

Lemma evalOneRule_spec (r : Rule) (prev : option Term) (st : St) (seen : list Term)
  (res : option Term) (err : Result) (st' : St) :
  Good st -> okPrev prev seen ->
  evalOneRule PlugIn saveContains saveExpr (ruleStream body) terms iter r (Some key) prev fOne st
  = ((res, err), st') ->
  (res = None <-> vals r = []) /\
  ((err = Some (ConflictErr functionConflict) /\ ~ allSameP (seen ++ vals r))
   \/ (err = Some (earlyExitError None) /\ fOne = true)
   \/ (err = None /\ Good st' /\ okPrev (nextPrev res prev) (seen ++ vals r))).
Proof.
  intros HG Hok. unfold evalOneRule, ruleStream, evalQuery. rewrite body_fin.
  destruct (enumerate (sols (body r)) None
              (fun b => evalExprEnd (set_findOne fOne (child (fst st)))
                          (evalOneRuleCallback PlugIn saveContains saveExpr terms iter r
                             (Some key) b))
              ((None, prev), st)) as [e1 [[res1 prev1] st1]] eqn:Erun.
  intros [= <- <- <-].
  destruct (@func_enumerate r (set_findOne fOne (child (fst st))) eq_refl HG
              (sols (body r)) None prev st seen e1 res1 prev1 st1 HG Hok Erun)
    as (H0 & H1 & Hcase).
  unfold vals, ruleVals.
  split.
  - split.
    + intros ->. destruct (sols (body r)); [reflexivity|]. exfalso. now apply H1.
    + intros E. apply map_eq_nil in E. now apply H0.
  - destruct Hcase as [Hx|[Hx|(He & HG2 & Hok2 & Hrp)]]; [now left|right; now left|].
    right. right. split; [exact He|]. split; [exact HG2|].
    destruct (sols (body r)) as [|b l] eqn:Es.
    + destruct (H0 eq_refl) as [-> ->]. exact Hok2.
    + assert (Hn : res1 <> None) by (apply H1; discriminate).
      rewrite (Hrp ltac:(discriminate)) in *.
      destruct prev1; [exact Hok2|congruence].
Qed.

(** *** Rules with equal values *)

Variable ir : IndexResult.

Let one := fun r p => evalOneRule PlugIn saveContains saveExpr (ruleStream body) terms iter r
                        (Some key) p fOne.

(** The state after the first value [v] of the call: the value is cached and
    the continuation is called, unless the call leaves the output out and the
    value is false. *)
Let callFirst (v : Term) (s : St) : St :=
  if noOutput terms argCount && isFalse v then put v s else snd (iter (put v s)).

Let firstStep (prev : option Term) (v : Term) (s : St) : St :=
  match prev with None => callFirst v s | Some _ => put v s end.

Let putN (n : nat) (v : Term) (s : St) : St := Nat.iter n (put v) s.

Lemma Good_putN (n : nat) (v : Term) (s : St) : Good s -> Good (putN n v s).
Proof. intros H. induction n as [|n IH]; [exact H|exact IH]. Qed.

Lemma Good_firstStep (prev : option Term) (v : Term) (s : St) :
  Good s -> Good (firstStep prev v s).
Proof.
  intros H. destruct prev as [p|]; [exact H|].
  unfold firstStep, callFirst.
  destruct (noOutput terms argCount && isFalse v); [exact H|].
  now destruct (iter_ok (put v s) H).
Qed.

Lemma func_enumerate_same (rule : Rule) (c : eval) (v0 : Term) :
  findOne c = fOne -> partial c = false -> length (HeadArgs rule) = argCount ->
  forall (l : list B) res prev st,
    Good st -> prev = None \/ prev = Some v0 ->
    (forall b, In b l -> PlugIn b (HeadValue rule) = v0) ->
    enumerate l None
      (fun b => evalExprEnd c
         (evalOneRuleCallback PlugIn saveContains saveExpr terms iter rule (Some key) b))
      ((res, prev), st)
    = match l with
      | [] => (None, ((res, prev), st))
      | _ :: rest =>
          if fOne then (Some (earlyExitError None), ((Some v0, Some v0), firstStep prev v0 st))
          else (None, ((Some v0, Some v0), putN (length rest) v0 (firstStep prev v0 st)))
      end.
Proof.
  intros Hc Hpc Har.
  induction l as [|b l IH]; intros res prev st HG Hprev Hall; [reflexivity|].
  cbn [enumerate]. unfold andThen. rewrite (@func_step rule c b res prev st HG Hpc).
  rewrite (Hall b (or_introl eq_refl)).
  assert (Hall' : forall b0, In b0 l -> PlugIn b0 (HeadValue rule) = v0)
    by (intros b0 Hb0; apply Hall; now right).
  assert (Hstep : forall s, Good s ->
            (let (r0, st0) :=
               if findOne c
               then (Some (earlyExitError None), ((Some v0, Some v0), s))
               else (None, ((Some v0, Some v0), s)) in
             match r0 with
             | Some e => (Some e, st0)
             | None =>
                 enumerate l None
                   (fun b0 => evalExprEnd c
                      (evalOneRuleCallback PlugIn saveContains saveExpr terms iter rule
                         (Some key) b0)) st0
             end)
            = if fOne then (Some (earlyExitError None), ((Some v0, Some v0), s))
              else (None, ((Some v0, Some v0), putN (length l) v0 s))).
  { intros s HGs. rewrite Hc. destruct fOne; [reflexivity|].
    rewrite (IH (Some v0) (Some v0) s HGs (or_intror eq_refl) Hall').
    destruct l as [|b1 l1]; [reflexivity|].
    cbn [length firstStep]. unfold putN.
    now rewrite <- Nat.iter_succ_r. }
  destruct Hprev as [-> | ->].
  - unfold falseCase. rewrite Har. fold (callFirst v0 st).
    apply Hstep. apply (@Good_firstStep None v0 st HG).
  - rewrite Equal_refl. apply Hstep. exact HG.
Qed.

Lemma evalOneRule_same (r : Rule) (v0 : Term) (prev : option Term) (st : St) :
  Good st -> prev = None \/ prev = Some v0 ->
  length (HeadArgs r) = argCount ->
  (forall v, In v (vals r) -> v = v0) ->
  one r prev st
  = match vals r with
    | [] => ((None, None), st)
    | _ :: rest =>
        if fOne then ((Some v0, Some (earlyExitError None)), firstStep prev v0 st)
        else ((Some v0, None), putN (length rest) v0 (firstStep prev v0 st))
    end.
Proof.
  intros HG Hprev Har Hall. unfold one, evalOneRule, ruleStream, evalQuery.
  rewrite body_fin.
  rewrite (@func_enumerate_same r (set_findOne fOne (child (fst st))) v0 eq_refl HG Har
             (sols (body r)) None prev st HG Hprev).
  - unfold vals, ruleVals. destruct (sols (body r)) as [|b l]; [reflexivity|].
    cbn [map length]. rewrite length_map. destruct fOne; reflexivity.
  - intros b Hb. apply Hall. unfold vals, ruleVals.
    apply in_map with (f := fun b0 => PlugIn b0 (HeadValue r)). exact Hb.
Qed.

Lemma loopElse_same (v0 : Term) :
  forall erules prev st,
    Good st -> prev = None \/ prev = Some v0 ->
    (forall r, In r erules -> length (HeadArgs r) = argCount) ->
    (forall v, In v (chainVals vals erules) -> v = v0) ->
    loopElse one erules prev None st
    = match chainVals vals erules with
      | [] => (inr (None, None), st)
      | _ :: rest =>
          if fOne then (inl (earlyExitError None), firstStep prev v0 st)
          else (inr (Some v0, None), putN (length rest) v0 (firstStep prev v0 st))
      end.
Proof.
  induction erules as [|r rest IH]; intros prev st HG Hprev Har Hall; [reflexivity|].
  cbn [loopElse chainVals] in *.
  assert (Hr : forall v, In v (vals r) -> v = v0).
  { intros v Hv. apply Hall. destruct (vals r); [destruct Hv|exact Hv]. }
  rewrite (@evalOneRule_same r v0 prev st HG Hprev (Har r (or_introl eq_refl)) Hr).
  destruct (vals r) as [|w ws].
  - apply IH; auto. intros r0 H0. apply Har. now right.
  - destruct fOne; reflexivity.
Qed.

Lemma loopRules_same (v0 : Term) :
  forall rules prev st,
    Good st -> prev = None \/ prev = Some v0 ->
    (forall r r', In r rules -> In r' (r :: Else ir r) -> length (HeadArgs r') = argCount) ->
    (forall v, In v (flat_map (fun r => chainVals vals (r :: Else ir r)) rules) -> v = v0) ->
    loopRules one ir (fun _ s => s) rules prev None st
    = match flat_map (fun r => chainVals vals (r :: Else ir r)) rules with
      | [] =>
          match Default ir, prev with
          | Some d, None => let '((_, err), st1) := one d prev st in (err, st1)
          | _, _ => (None, st)
          end
      | _ :: rest =>
          if fOne then (Some (earlyExitError None), firstStep prev v0 st)
          else (None, putN (length rest) v0 (firstStep prev v0 st))
      end.
Proof.
  induction rules as [|r rest IH]; intros prev st HG Hprev Har Hall; [reflexivity|].
  cbn [loopRules flat_map].
  assert (Hc : forall v, In v (chainVals vals (r :: Else ir r)) -> v = v0).
  { intros v Hv. apply Hall. cbn [flat_map]. apply in_or_app. now left. }
  assert (Hrest : forall v,
             In v (flat_map (fun r0 => chainVals vals (r0 :: Else ir r0)) rest) -> v = v0).
  { intros v Hv. apply Hall. cbn [flat_map]. apply in_or_app. now right. }
  assert (Har' : forall r0 r', In r0 rest -> In r' (r0 :: Else ir r0) ->
                               length (HeadArgs r') = argCount).
  { intros r0 r' H0 H1. apply (Har r0 r'); [now right|exact H1]. }
  rewrite (@loopElse_same v0 (r :: Else ir r) prev st HG Hprev
             (fun r' H => Har r r' (or_introl eq_refl) H) Hc).
  destruct (chainVals vals (r :: Else ir r)) as [|w ws].
  - cbn [app]. apply IH; auto.
  - cbn [app]. destruct fOne; [reflexivity|].
    rewrite (IH (Some v0) _ (Good_putN (length ws) v0 (@Good_firstStep prev v0 st HG))
               (or_intror eq_refl) Har' Hrest).
    destruct (flat_map (fun r0 => chainVals vals (r0 :: Else ir r0)) rest) as [|u us].
    + rewrite app_nil_r. now destruct (Default ir).
    + rewrite length_app. cbn [length firstStep]. unfold putN.
      rewrite <- Nat.iter_succ_r, <- Nat.iter_add.
      f_equal. f_equal. lia.
Qed.

(** *** The outcome of a call *)

(** The index sets the early-exit hint only for rules that all have the same
    value; the default rule has one value; the rules of a function have the
    same number of arguments. *)
Hypothesis index_early_exit :
  fOne = true -> allSameP (flat_map vals (indexedRules ir)).
Hypothesis default_value : forall d, Default ir = Some d -> allSameP (vals d).
Hypothesis arity :
  forall r, In r (indexedRules ir) -> length (HeadArgs r) = argCount.

Lemma evalFuncValue_miss (ir0 : IndexResult) (st : St) :
  partial (fst st) = false ->
  fst (vcGet (virtualCache (snd st)) key) = None ->
  evalFuncValue PlugIn Plug IsGround unify saveContains saveExpr (ruleStream body) terms ir0
    iter argCount fOne st
  = withSuppressEarlyExit
      (loopRules one ir0 (fun _ s => s) (Rules ir0) None None)
      (onHeap incr_virtualCacheMiss st).
Proof.
  intros HG Hmiss. unfold evalFuncValue, evalCache. rewrite HG. cbn [negb].
  fold key. rewrite Hmiss. unfold withSuppressEarlyExit.
  now rewrite evalRules_loop.
Qed.

(** C5. A function is called outside partial evaluation and the call is not
    in the virtual cache (no rule body ends in an error of its own, the
    continuation does not fail, and the index sets the early-exit hint only
    for rules that all have the same value).  The values of the call are the
    plugged head values at the solutions of each rule of the index result, or
    of the first rule of its else chain that has a solution.  The call ends
    with a functionConflict error if two of these values are distinct and with
    no error if they are all equal.  When they are all equal the continuation
    is called for the first value only (not at all where the call leaves the
    output out and the value is false), and every further value is only
    written to the cache again.  When a rule of the index result has a value,
    the call runs as it does with no default rule. *)
Theorem evalFunc_conflict_dedupe_default (st : St) :
  partial (fst st) = false ->
  fst (vcGet (virtualCache (snd st)) (funcCacheKey IsGround Plug terms argCount)) = None ->
  fst (evalFuncValue PlugIn Plug IsGround unify saveContains saveExpr (ruleStream body) terms
         ir iter argCount fOne st)
  = (if allSame (allVals vals ir) then None else Some (ConflictErr functionConflict))
  /\ (allSame (allVals vals ir) = false <->
      exists v1 v2, In v1 (allVals vals ir) /\ In v2 (allVals vals ir) /\ v1 <> v2)
  /\ (forall v rest,
         allVals vals ir = v :: rest -> allSame (v :: rest) = true ->
         evalFuncValue PlugIn Plug IsGround unify saveContains saveExpr (ruleStream body)
           terms ir iter argCount fOne st
         = (None,
            let key := funcCacheKey IsGround Plug terms argCount in
            let st1 := firstValue terms iter argCount key v (onHeap incr_virtualCacheMiss st) in
            if fOne then st1 else Nat.iter (length rest) (cachePut key v) st1))
  /\ (allVals vals ir <> [] ->
      evalFuncValue PlugIn Plug IsGround unify saveContains saveExpr (ruleStream body)
        terms ir iter argCount fOne st
      = evalFuncValue PlugIn Plug IsGround unify saveContains saveExpr (ruleStream body)
          terms (mkIndexResult (Rules ir) (Else ir) None (EarlyExit ir)) iter argCount fOne st).
Proof.
  intros HG Hmiss.
  split; [|split; [apply allSame_false_iff|split]].
  - rewrite (@evalFuncValue_miss ir st HG Hmiss). unfold withSuppressEarlyExit.
    destruct (loopRules one ir (fun _ s => s) (Rules ir) None None
                (onHeap incr_virtualCacheMiss st)) as [err st'] eqn:Erun.
    pose proof (@loopRules_conflicts one ir (fun _ s => s) vals functionConflict fOne Good
                  evalOneRule_spec default_value (Rules ir) None
                  (onHeap incr_virtualCacheMiss st) [] err st' HG eq_refl Erun)
      as H.
    cbn [app] in H. fold (allVals vals ir) in H.
    destruct H as [[-> Hns]|[[-> Hf]|[-> Hs]]]; cbn [fst suppressEarlyExit].
    + destruct (allSame _) eqn:E; [|reflexivity].
      exfalso. apply Hns. now apply allSame_iff.
    + assert (E : allSame (allVals vals ir) = true).
      { apply allSame_iff. intros v1 v2 H1 H2.
        apply (index_early_exit Hf); now apply allVals_indexed. }
      now rewrite E.
    + apply allSame_iff in Hs. now rewrite Hs.
  - intros v rest Hv Hsame.
    change (evalFuncValue PlugIn Plug IsGround unify saveContains saveExpr (ruleStream body)
              terms ir iter argCount fOne st
            = (None,
               if fOne then callFirst v (onHeap incr_virtualCacheMiss st)
               else putN (length rest) v (callFirst v (onHeap incr_virtualCacheMiss st)))).
    rewrite (@evalFuncValue_miss ir st HG Hmiss). unfold withSuppressEarlyExit.
    rewrite (@loopRules_same v (Rules ir) None (onHeap incr_virtualCacheMiss st) HG
               (or_introl eq_refl)).
    + fold (allVals vals ir). rewrite Hv. cbn [firstStep].
      destruct fOne; reflexivity.
    + intros r r' Hr Hr'. apply arity. unfold indexedRules.
      apply in_flat_map. exists r. auto.
    + fold (allVals vals ir). rewrite Hv. intros w [<-|Hw]; [reflexivity|].
      apply allSame_iff in Hsame. apply Hsame; [now right|now left].
  - intros Hne.
    rewrite (@evalFuncValue_miss ir st HG Hmiss).
    rewrite (@evalFuncValue_miss (mkIndexResult (Rules ir) (Else ir) None (EarlyExit ir))
               st HG Hmiss).
    unfold withSuppressEarlyExit. cbn [Rules].
    now rewrite (@loopRules_default_unused one ir (fun _ s => s) vals functionConflict fOne
                   Good evalOneRule_spec (Rules ir) None (onHeap incr_virtualCacheMiss st)
                   [] HG eq_refl Hne).
Qed.

End FunctionConflict.

(** The call [f(7, x)] with two rules that both give 1; the continuation
    counts its calls in the hit counter: it is called once, and the value is
    written to the cache twice. *)
Lemma evalFunc_conflict_dedupe_default_witness :
  let body := fun _ : Rule => mkSearch [Number 1] None in
  let r1 := mkRule 1 [Var "a"] (Number 1) 0 in
  let r2 := mkRule 2 [Var "a"] (Number 1) 1 in
  let ir := mkIndexResult [r1; r2] (fun _ => []) None false in
  let terms := [Ref [Var "data"; String "f"]; Number 7; Var "x"] in
  let key := [Ref [Var "data"; String "f"]; Number 7] in
  let count : M St := fun s => (None, onHeap incr_virtualCacheHit s) in
  let st := (mkEval false false false 0 None None, mkHeap [] [] [] [] [] [] 0 0 []) in
  evalFuncValue (fun (b : Term) _ => b) (fun t => t) (fun _ => true) (fun _ _ it => it)
    (fun _ _ => false) (fun _ _ it => it) (ruleStream body) terms ir count 1 false st
  = (None,
     (mkEval false false false 0 None None,
      mkHeap [[(key, Some (Number 1)); (key, Some (Number 1))]] [] [] [] [] [] 1 1 [])).
Proof.
  intros body r1 r2 ir terms key count st.
  refine (proj1 (proj2 (proj2
    (@evalFunc_conflict_dedupe_default Term (fun b _ => b) (fun t => t) (fun _ => true)
       (fun _ _ it => it) (fun _ _ => false) (fun _ _ it => it) body terms count false 1
       (fun _ => eq_refl) (fun _ _ => eq_refl) (fun s H => conj eq_refl H) ir
       (fun H : false = true => match Bool.diff_false_true H with end)
       (fun d (H : None = Some d) =>
          match H in _ = o return match o with Some _ => _ | None => True end
          with eq_refl => I end)
       _ st eq_refl eq_refl))) (Number 1) [Number 1] eq_refl eq_refl).
  intros r [<-|[<-|[]]]; reflexivity.
Defined.

Section ObjectComprehensionConflict.

Variable B : Type.
Variable PlugIn : B -> Term -> Term.
Variable biunifyResult : Term -> M St -> M St.
Variable Key : Term.
Variable Val : Term.

(** The callback of [biunifyComprehensionObject] at one solution. *)
Let collect (b : B) : M (Obj * St) :=
  fun rs =>
    let (result, s) := rs in
    match Get result (PlugIn b Key) with
    | Some existing =>
        if negb (Equal existing (PlugIn b Val))
        then (Some (ConflictErr objectDocKeyConflict), (result, s))
        else (None, (Insert result (PlugIn b Key) (PlugIn b Val), s))
    | None => (None, (Insert result (PlugIn b Key) (PlugIn b Val), s))
    end.

Lemma collect_loop (c : eval) (r : Result) (st : St) :
  findOne c = false ->
  forall (l : list B) (result : Obj),
    (exists result',
        enumerate l r (fun b => evalExprEnd c (collect b)) (result, st)
        = (Some (ConflictErr objectDocKeyConflict), (result', st)))
    \/
    (exists result',
        enumerate l r (fun b => evalExprEnd c (collect b)) (result, st) = (r, (result', st)) /\
        (forall b, In b l -> Get result' (PlugIn b Key) = Some (PlugIn b Val)) /\
        (forall k v, Get result k = Some v -> Get result' k = Some v)).
Proof.
  intros Hf. induction l as [|b l IH]; intros result; simpl.
  - right. exists result. split; [reflexivity|]. split; [intros b []|auto].
  - unfold andThen, evalExprEnd at 1 3, collect at 1 3. rewrite Hf. simpl.
    assert (Hins : forall res0,
               Get res0 (PlugIn b Key) = None \/ Get res0 (PlugIn b Key) = Some (PlugIn b Val) ->
               forall k v, Get res0 k = Some v ->
                           Get (Insert res0 (PlugIn b Key) (PlugIn b Val)) k = Some v).
    { intros res0 H k v Hk.
      destruct (Value_eq_dec (PlugIn b Key) k) as [<-|Hne].
      - rewrite Get_Insert_eq. destruct H as [H|H]; congruence.
      - now rewrite Get_Insert_ne. }
    assert (Hgo : Get result (PlugIn b Key) = None \/
                  Get result (PlugIn b Key) = Some (PlugIn b Val) ->
                  (exists result',
                      enumerate l r (fun b0 => evalExprEnd c (collect b0))
                        (Insert result (PlugIn b Key) (PlugIn b Val), st)
                      = (Some (ConflictErr objectDocKeyConflict), (result', st)))
                  \/
                  (exists result',
                      enumerate l r (fun b0 => evalExprEnd c (collect b0))
                        (Insert result (PlugIn b Key) (PlugIn b Val), st) = (r, (result', st)) /\
                      (forall b0, b = b0 \/ In b0 l ->
                                  Get result' (PlugIn b0 Key) = Some (PlugIn b0 Val)) /\
                      (forall k v, Get result k = Some v -> Get result' k = Some v))).
    { intros H.
      destruct (IH (Insert result (PlugIn b Key) (PlugIn b Val))) as [Hc|(res' & He & Hin & Hkeep)];
        [now left|right].
      exists res'. split; [exact He|]. split.
      - intros b0 [<-|Hb0]; [|now apply Hin].
        apply Hkeep. apply Get_Insert_eq.
      - intros k v Hk. apply Hkeep. now apply Hins. }
    destruct (Get result (PlugIn b Key)) as [existing|] eqn:HG.
    + destruct (Equal existing (PlugIn b Val)) eqn:HE; simpl.
      * apply Equal_true in HE. subst existing. apply Hgo. now right.
      * left. now exists result.
    + simpl. apply Hgo. now left.
Qed.

(** The direct materialisation detects every conflict: two solutions of the
    body with the same key and values that are not equal end it with an
    object-key conflict. *)
Lemma biunifyComprehensionObject_conflict (s : Search B) (iter : M St) (st : St)
  (b1 b2 : B) :
  In b1 (sols s) -> In b2 (sols s) ->
  PlugIn b1 Key = PlugIn b2 Key ->
  PlugIn b1 Val <> PlugIn b2 Val ->
  biunifyComprehensionObject PlugIn (queryStream s) biunifyResult Key Val iter st
  = (Some (ConflictErr objectDocKeyConflict), st).
Proof.
  intros H1 H2 Hk Hv. unfold biunifyComprehensionObject, queryStream, evalQuery.
  cbv zeta.
  destruct (@collect_loop (closure (fst st)) (fin s) st eq_refl (sols s) [])
    as [(res' & He)|(res' & He & Hin & _)].
  - match goal with
    | |- (let (_, _) := ?X in _) = _ =>
        assert (Heq : X = (Some (ConflictErr objectDocKeyConflict), (res', st))) by exact He;
        rewrite Heq
    end.
    reflexivity.
  - exfalso. pose proof (Hin b1 H1) as E1. pose proof (Hin b2 H2) as E2.
    rewrite Hk in E1. congruence.
Qed.

End ObjectComprehensionConflict.

(** C6 (the code breaks the claim on the cache path).  The body of an object
    comprehension with the index key [x] has two solutions, both with [x = 1]
    and the key ["a"], one with the value 1 and one with the value 2.  The
    direct materialisation ends with an object-key conflict;
    [buildComprehensionCacheObject] returns no error and a node in which the
    second value has replaced the first, and [biunifyComprehension], which
    goes through the cache when the compiler gave an index, hands the object
    [{"a": 2}] to the unification. *)
Theorem buildComprehensionCacheObject_overwrites :
  let PlugIn := fun (b : Term * Term * Term) (t : Term) =>
                  match t with
                  | Var "x" => fst (fst b)
                  | Var "k" => snd (fst b)
                  | Var "v" => snd b
                  | _ => t
                  end in
  let s := mkSearch [(Number 1, String "a", Number 1); (Number 1, String "a", Number 2)] None in
  let st := (mkEval false false false 0 None None, mkHeap [] [] [] [] [] [] 0 0 []) in
  let a := ObjectComprehension (Var "k") (Var "v") 0 in
  let unifyWith := fun (t : Term) (iter : M St) (s0 : St) =>
                     (Some (InternalErr "unified"), onFrame (set_input (Some t)) s0) in
  biunifyComprehensionObject PlugIn (queryStream s) unifyWith (Var "k") (Var "v")
    (ret None) st
  = (Some (ConflictErr objectDocKeyConflict), st)
  /\ buildComprehensionCacheObject PlugIn (queryStream s) (Var "k") (Var "v") [Var "x"] st
     = (([([Number 1], Object [(String "a", Number 2)])], None), st)
  /\ fst (biunifyComprehension PlugIn (queryStream s) unifyWith
            (fun _ => Number 1) false (fun iter => iter)
            (fun _ => Some [Var "x"])
            (fun _ _ s0 => (([], None), s0)) (fun _ iter => iter) a (ret None) st)
     = Some (InternalErr "unified")
  /\ input (fst (snd (biunifyComprehension PlugIn (queryStream s) unifyWith
            (fun _ => Number 1) false (fun iter => iter)
            (fun _ => Some [Var "x"])
            (fun _ _ s0 => (([], None), s0)) (fun _ iter => iter) a (ret None) st)))
     = Some (Object [(String "a", Number 2)]).
Proof.
  repeat split; vm_compute; reflexivity.
Qed.

Section BuiltinErrors.

Variable Plug : Term -> Term.
Variable bi : Builtin.
Variable hasNDBCache : bool.
Variable f : list Term -> (Term -> M St) -> M St.
Variable unify : Term -> Term -> M St -> M St.
Variable terms : list Term.

(** C7. The implementation of a built-in is called (no cached result of a
    non-deterministic built-in stands in for it).  If it returns an error
    that is not a [Halt], the error is appended to the query's list of
    built-in errors and [eval] returns no error; if the implementation
    returned without calling back, the outcome is the same whatever the
    continuation is: the call is undefined.  If it returns an error wrapped
    in [Halt], [eval] returns the wrapped error and records nothing.  An
    error of the continuation always reaches the implementation wrapped in
    [Halt]. *)
Theorem evalBuiltin_errors (iter : M St) (st : St) :
  ndbLookup Plug bi hasNDBCache terms st = None ->
  (forall err st',
      f (operandsOf Plug terms) (builtinCallback Plug bi hasNDBCache unify terms iter) st
      = (Some err, st') ->
      (forall x, err <> Halt x) ->
      evalBuiltin Plug bi hasNDBCache f unify terms iter st
      = (None, onHeap (set_builtinErrors (fun l => l ++ [err])) st')) /\
  (forall err st',
      (forall cb, f (operandsOf Plug terms) cb st = (Some err, st')) ->
      (forall x, err <> Halt x) ->
      forall iter',
        evalBuiltin Plug bi hasNDBCache f unify terms iter' st
        = (None, onHeap (set_builtinErrors (fun l => l ++ [err])) st')) /\
  (forall x st',
      f (operandsOf Plug terms) (builtinCallback Plug bi hasNDBCache unify terms iter) st
      = (Some (Halt x), st') ->
      evalBuiltin Plug bi hasNDBCache f unify terms iter st = (Some x, st')) /\
  (forall output s err,
      fst (builtinCallback Plug bi hasNDBCache unify terms iter output s) = Some err ->
      exists x, err = Halt x /\ fst (handleOutput Plug bi unify terms iter output s) = Some x).
Proof.
  intros Hmiss.
  assert (Hgen : forall it err st',
             f (operandsOf Plug terms) (builtinCallback Plug bi hasNDBCache unify terms it) st
             = (Some err, st') ->
             (forall x, err <> Halt x) ->
             evalBuiltin Plug bi hasNDBCache f unify terms it st
             = (None, onHeap (set_builtinErrors (fun l => l ++ [err])) st')).
  { intros it err st' Hf Hnh. unfold evalBuiltin.
    assert (Hm : ndbLookup Plug bi hasNDBCache terms st = None) by exact Hmiss.
    rewrite Hm, Hf. destruct err; try reflexivity. exfalso. now apply (Hnh err). }
  split; [apply Hgen|]. split.
  - intros err st' Hf Hnh iter'. apply Hgen; [apply Hf|exact Hnh].
  - split.
    + intros x st' Hf. unfold evalBuiltin. now rewrite Hmiss, Hf.
    + intros output s err. unfold builtinCallback.
      destruct (handleOutput Plug bi unify terms iter output s) as [[x|] s1]; simpl.
      * intros [= <-]. now exists x.
      * discriminate.
Qed.

End BuiltinErrors.

(** A built-in of one argument with a result whose implementation fails with
    "div by zero": the error is recorded, the continuation (which would
    cancel) does not run, and no error comes back. *)
Lemma evalBuiltin_errors_witness :
  let bi := mkBuiltin "div" 2 true false in
  let f := fun (_ : list Term) (_ : Term -> M St) (s : St) =>
             (Some (BuiltinErr "div by zero"), s) in
  let st := (mkEval false false false 0 None None, mkHeap [] [] [] [] [] [] 0 0 []) in
  evalBuiltin (fun t => t) bi false f (fun _ _ iter => iter)
    [Number 1; Number 0; Var "x"] (fun s => (Some CancelErr, s)) st
  = (None, (mkEval false false false 0 None None,
            mkHeap [] [] [] [] [] [BuiltinErr "div by zero"] 0 0 [])).
Proof.
  intros bi f st.
  apply (proj1 (@evalBuiltin_errors (fun t => t) bi false f (fun _ _ iter => iter)
                  [Number 1; Number 0; Var "x"] (fun s => (Some CancelErr, s)) st
                  eq_refl)
           (BuiltinErr "div by zero") st eq_refl).
  intros x. discriminate.
Defined.

(** C8. [mergeObjects] is total and never reports failure: for every pair of
    objects it returns a merged object with [ok = true].  At a key present in
    both objects where the value of at least one side is not an object, the
    value of the first (overlay) object is kept (the keys of an object are
    pairwise distinct).  Hence [merge] never reports failure either, and the
    resolver's read of a [data] reference returns an error only when reading
    the store returned that error: its merge-conflict branches are never
    taken. *)
Theorem mergeObjects_never_fails (objA objB : Obj) :
  snd (mergeObjects objA objB) = true /\
  (forall k v v2,
      NoDup (map fst objA) ->
      Get objA k = Some v -> Get objB k = Some v2 ->
      isObject v && isObject v2 = false ->
      Get (fst (mergeObjects objA objB)) k = Some v) /\
  (forall a b, snd (merge a b) = true) /\
  (forall repValue prefixed rd ref c err,
      snd (fst (ResolveData repValue prefixed rd ref c)) = Some err ->
      rd = ReadErr err).
Proof.
  split; [apply mergeObjects_ok|].
  split.
  - intros k v v2 Hnd HA HB Hno.
    rewrite mergeObjects_eq.
    pose proof (@mergeUntil_overlay objB k v v2 objA [] Hnd HA HB Hno) as Hk.
    pose proof (@mergeUntil_stop objB objA []
                  (fun _ o1 o2 _ => mergeObjects_ok o1 o2)) as Hs.
    destruct (mergeUntil objB objA []) as [result stop]. simpl in *. subst stop.
    simpl. apply mergeRest_Get; [congruence|exact Hk].
  - split; [apply merge_ok|].
    intros repValue prefixed rd ref c err. unfold ResolveData.
    destruct prefixed; [discriminate|].
    destruct (baseCacheGet c ref) as [realValue|].
    + destruct repValue as [rep|]; [|discriminate].
      pose proof (merge_ok rep realValue) as Hok.
      destruct (merge rep realValue) as [merged ok]. simpl in Hok. subst ok.
      discriminate.
    + unfold resolveReadFromStorage.
      destruct (refContainsNonScalar ref); [discriminate|].
      destruct rd as [e| |v]; simpl; try discriminate.
      * now intros [= ->].
      * destruct repValue as [a|]; [|discriminate].
        pose proof (merge_ok a v) as Hok.
        destruct (merge a v) as [merged ok]. simpl in Hok. subst ok.
        discriminate.
Qed.

(** The overlapping keys of TestMergeOverlappingKeys: the mock's value is kept. *)
Lemma mergeObjects_never_fails_witness :
  Get (fst (mergeObjects [(String "foo", String "blah")] [(String "foo", String "bar")]))
      (String "foo") = Some (String "blah").
Proof.
  apply (proj1 (proj2 (mergeObjects_never_fails
                         [(String "foo", String "blah")]
                         [(String "foo", String "bar")]))
           (String "foo") (String "blah") (String "bar")).
  - repeat constructor. simpl. tauto.
  - reflexivity.
  - reflexivity.
  - reflexivity.
Defined.

Section SameVariable.

Variable Bindings : Type.
Variable apply : Bindings -> Frame -> Term -> Term * Frame.
Variable bind : Frame -> Term -> Term -> Frame -> Bindings -> Bindings.
Variable undoBind : Frame -> Term -> Bindings -> Bindings.
Variable PlugF : Bindings -> Frame -> Term -> Term.
Variable Contains : SaveSet -> Bindings -> Term -> Frame -> bool.
Variable ContainsRecursive : SaveSet -> Bindings -> Term -> Frame -> bool.
Variable savePairsOfVars : Bindings -> Term -> Frame -> list (Term * Frame).
Variable biunifyRef : Term -> Term -> Frame -> Frame -> M (UState Bindings) -> M (UState Bindings).
Variable biunifyComprehensionU :
  Term -> Term -> Frame -> Frame -> bool -> M (UState Bindings) -> M (UState Bindings).
Variable biunifyArrays :
  list Term -> list Term -> Frame -> Frame -> M (UState Bindings) -> M (UState Bindings).
Variable biunifyObjects :
  Obj -> Obj -> Frame -> Frame -> M (UState Bindings) -> M (UState Bindings).

(** C9. Two terms that each dereference to the same variable of the same
    bindings frame unify by calling the continuation exactly once, and no
    binding is made: the continuation gets the bindings as they are, and the
    bindings it leaves are the bindings after the unification.  (When the
    variable is in the save set of a partial evaluation, the equality is on
    the save stack while the continuation runs; with no save set the
    unification is the continuation.) *)
Theorem biunify_same_variable (a b : Term) (b1 b2 : Frame) (st : UState Bindings)
  (x : string) (fr : Frame) :
  apply (frames st) b1 a = (Var x, fr) ->
  apply (frames st) b2 b = (Var x, fr) ->
  (exists pre post : UState Bindings -> UState Bindings,
      (forall s, frames (pre s) = frames s) /\
      (forall s, frames (post s) = frames s) /\
      forall iter,
        biunify apply bind undoBind PlugF Contains ContainsRecursive savePairsOfVars
          biunifyRef biunifyComprehensionU biunifyArrays biunifyObjects a b b1 b2 iter st
        = (let (err, st') := iter (pre st) in (err, post st'))) /\
  (saveSet st = None ->
   forall iter,
     biunify apply bind undoBind PlugF Contains ContainsRecursive savePairsOfVars
       biunifyRef biunifyComprehensionU biunifyArrays biunifyObjects a b b1 b2 iter st
     = iter st).
Proof.
  intros Ha Hb.
  assert (Hun : forall iter,
             biunify apply bind undoBind PlugF Contains ContainsRecursive savePairsOfVars
               biunifyRef biunifyComprehensionU biunifyArrays biunifyObjects a b b1 b2 iter st
             = if saveSetContains Contains st (Var x) fr
               then saveUnify savePairsOfVars (Var x) (Var x) fr fr iter st
               else iter st).
  { intros iter. unfold biunify. rewrite Ha, Hb. unfold biunifyValues. simpl.
    destruct (saveSetContains Contains st (Var x) fr); simpl; [reflexivity|].
    now rewrite Nat.eqb_refl, Equal_refl. }
  split.
  - destruct (saveSetContains Contains st (Var x) fr) eqn:Hs.
    + exists (fun s => saveStackPush (Var x) (Var x) fr fr
                         (saveSetPush [(Var x, fr)] (saveSetPush [(Var x, fr)] s))),
             (fun s => saveSetPop 2 (saveStackPop s)).
      split; [reflexivity|]. split; [reflexivity|].
      intros iter. rewrite Hun. reflexivity.
    + exists (fun s => s), (fun s => s).
      split; [reflexivity|]. split; [reflexivity|].
      intros iter. rewrite Hun. now destruct (iter st).
  - intros Hnone iter. rewrite Hun. unfold saveSetContains. now rewrite Hnone.
Qed.

End SameVariable.

(** [x = y] where [y] is bound to [x] in frame 0 and [x] is free: both sides
    dereference to [x] of frame 0. *)
Lemma biunify_same_variable_witness :
  let apply := fun (bs : list (string * Term)) (fr : Frame) (t : Term) =>
                 match t with
                 | Var "y"%string => (Var "x", fr)
                 | _ => (t, fr)
                 end in
  let st := mkUState [("y"%string, Var "x")] None [] in
  let skip := fun (_ _ : Term) (_ _ : Frame) (iter : M (UState (list (string * Term)))) => iter in
  biunify apply (fun _ _ _ _ bs => bs) (fun _ _ bs => bs) (fun _ _ t => t)
    (fun _ _ _ _ => false) (fun _ _ _ _ => false) (fun _ _ _ => [])
    skip (fun _ _ _ _ _ iter => iter) (fun _ _ _ _ iter => iter) (fun _ _ _ _ iter => iter)
    (Var "x") (Var "y") 0 0 (fun s => (Some CancelErr, s)) st
  = (Some CancelErr, st).
Proof.
  intros apply st skip.
  apply (proj2 (@biunify_same_variable (list (string * Term)) apply
                  (fun _ _ _ _ bs => bs) (fun _ _ bs => bs) (fun _ _ t => t)
                  (fun _ _ _ _ => false) (fun _ _ _ _ => false) (fun _ _ _ => [])
                  skip (fun _ _ _ _ _ iter => iter) (fun _ _ _ _ iter => iter)
                  (fun _ _ _ _ iter => iter)
                  (Var "x") (Var "y") 0 0 st "x"%string 0 eq_refl eq_refl) eq_refl).
Defined.

Section FunctionCacheHit.

Variable B : Type.
Variable PlugIn : B -> Term -> Term.
Variable Plug : Term -> Term.
Variable IsGround : Term -> bool.
Variable unify : Term -> Term -> M St -> M St.
Variable saveContains : B -> Term -> bool.
Variable saveExpr : B -> Term -> M St -> M St.
Variable terms : list Term.
Variable ir : IndexResult.

(** C10. A user function is called without capturing its output, outside
    partial evaluation, and the virtual cache holds a term for the call's
    key.  If the term is the literal false the call is undefined: the
    continuation is not invoked.  Otherwise the call succeeds at once: the
    continuation is invoked, once.  Either way one virtual-cache hit is
    counted, nothing else of the state changes before the continuation runs,
    and the outcome does not depend on how the rules evaluate ([evalRule]):
    they are not entered. *)
Theorem evalFunc_cache_hit_no_output
  (evalRule : Rule -> eval -> forall T : Type, (B -> M T) -> M T)
  (argCount : nat) (fOne : bool) (st : St) (cached : Term) (iter : M St) :
  partial (fst st) = false ->
  noOutput terms argCount = true ->
  fst (vcGet (virtualCache (snd st))
         (map (fun t => if IsGround t then t else Plug t) terms)) = Some cached ->
  evalFuncValue PlugIn Plug IsGround unify saveContains saveExpr evalRule terms ir
    iter argCount fOne st
  = (if isFalse cached then (None, onHeap incr_virtualCacheHit st)
     else iter (onHeap incr_virtualCacheHit st))
  /\ virtualCacheHit (snd (onHeap incr_virtualCacheHit st)) = S (virtualCacheHit (snd st))
  /\ virtualCacheMiss (snd (onHeap incr_virtualCacheHit st)) = virtualCacheMiss (snd st)
  /\ virtualCache (snd (onHeap incr_virtualCacheHit st)) = virtualCache (snd st).
Proof.
  intros Hp Hno Hc. split; [|repeat split].
  unfold evalFuncValue, evalCache. rewrite Hp. simpl negb. cbv iota.
  assert (Hlen : (length terms =? argCount + 2) = false).
  { unfold noOutput in Hno. apply Nat.eqb_eq in Hno. apply Nat.eqb_neq. lia. }
  rewrite Hlen, firstn_all, Hc, Hno.
  destruct (isFalse cached); [reflexivity|].
  destruct (iter (onHeap incr_virtualCacheHit st)) as [[err|] st']; reflexivity.
Qed.

End FunctionCacheHit.

(** [data.p.f(1); data.p.f(1)] (TestTopdownVirtualCache, "same args"): at the
    second call the cache holds 12 and the continuation runs. *)
Lemma evalFunc_cache_hit_no_output_witness :
  let call := [Ref [Var "data"; String "p"; String "f"]; Number 1] in
  let h := mkHeap [[(call, Some (Number 12))]] [] [] [] [] [] 0 1 [] in
  let e := mkEval false false false 0 None None in
  evalFuncValue (fun (_ : unit) t => t) (fun t => t) (fun _ => true)
    (fun _ _ iter => iter) (fun _ _ => false) (fun _ _ iter => iter)
    (ruleStream (fun _ => mkSearch [] None)) call
    (mkIndexResult [] (fun _ => []) None false)
    (fun s => (Some CancelErr, s)) 1 false (e, h)
  = (Some CancelErr, (e, mkHeap [[(call, Some (Number 12))]] [] [] [] [] [] 1 1 [])).
Proof.
  intros call h e.
  apply (proj1 (@evalFunc_cache_hit_no_output unit (fun _ t => t) (fun t => t)
                  (fun _ => true) (fun _ _ iter => iter) (fun _ _ => false)
                  (fun _ _ iter => iter) call
                  (mkIndexResult [] (fun _ => []) None false)
                  (ruleStream (fun _ => mkSearch [] None)) 1 false (e, h)
                  (Number 12) (fun s => (Some CancelErr, s))
                  eq_refl eq_refl eq_refl)).
Defined.

(** * More properties of the code *)

(** ** merge and mergeObjects: what the merged object holds *)

Lemma Get_notin (obj : Obj) (k : Term) : ~ In k (map fst obj) -> Get obj k = None.
Proof.
  induction obj as [|[k' v'] rest IH]; simpl; [reflexivity|].
  intros H. destruct (Equal k' k) eqn:E.
  - apply Equal_true in E. tauto.
  - apply IH. tauto.
Qed.

Lemma mergeUntil_Get_notin (objB : Obj) (k : Term) :
  forall items result,
    ~ In k (map fst items) ->
    Get (fst (mergeUntil objB items result)) k = Get result k.
Proof.
  induction items as [|[k' v'] rest IH]; intros result Hnin; simpl; [reflexivity|].
  simpl in Hnin.
  assert (Hne : k' <> k) by tauto.
  assert (Hnin' : ~ In k (map fst rest)) by tauto.
  destruct (Get objB k') as [v2|].
  - destruct v'; try (rewrite IH by exact Hnin'; now apply Get_Insert_ne).
    destruct v2; try (rewrite IH by exact Hnin'; now apply Get_Insert_ne).
    pose proof (mergeObjects_ok items items0) as Hok.
    destruct (mergeObjects items items0) as [obj3 ok]. simpl in Hok. subst ok.
    rewrite IH by exact Hnin'. now apply Get_Insert_ne.
  - rewrite IH by exact Hnin'. now apply Get_Insert_ne.
Qed.

(** The value [mergeObjects] gives to a key of the first object. *)
Definition mergedValue (v : Term) (other : option Term) : Term :=
  match v, other with
  | Object o1, Some (Object o2) => Object (fst (mergeObjects o1 o2))
  | _, _ => v
  end.

Lemma mergeUntil_Get_in (objB : Obj) (k v : Term) :
  forall items result,
    NoDup (map fst items) ->
    Get items k = Some v ->
    Get (fst (mergeUntil objB items result)) k = Some (mergedValue v (Get objB k)).
Proof.
  induction items as [|[k' v'] rest IH]; intros result Hnd HA; simpl in *; [discriminate|].
  inversion Hnd as [|? ? Hnin Hnd']; subst.
  destruct (Equal k' k) eqn:E.
  - apply Equal_true in E. subst k'. injection HA as ->.
    unfold mergedValue.
    destruct (Get objB k) as [v2|].
    + destruct v; try (rewrite mergeUntil_Get_notin by exact Hnin; now apply Get_Insert_eq).
      destruct v2; try (rewrite mergeUntil_Get_notin by exact Hnin; now apply Get_Insert_eq).
      pose proof (mergeObjects_ok items items0) as Hok.
      destruct (mergeObjects items items0) as [obj3 ok]. simpl in Hok. subst ok.
      rewrite mergeUntil_Get_notin by exact Hnin. now apply Get_Insert_eq.
    + rewrite mergeUntil_Get_notin by exact Hnin.
      destruct v; now apply Get_Insert_eq.
  - destruct (Get objB k') as [v2|].
    + destruct v'; try (now apply IH).
      destruct v2; try (now apply IH).
      pose proof (mergeObjects_ok items items0) as Hok.
      destruct (mergeObjects items items0) as [obj3 ok]. simpl in Hok. subst ok.
      now apply IH.
    + now apply IH.
Qed.

Lemma mergeRest_Get_full (objA : Obj) (k : Term) :
  forall objB result,
    NoDup (map fst objB) ->
    Get (mergeRest objA objB result) k
    = match Get objA k with
      | Some _ => Get result k
      | None => match Get objB k with Some v => Some v | None => Get result k end
      end.
Proof.
  induction objB as [|[k' v'] rest IH]; intros result Hnd; simpl.
  - now destruct (Get objA k).
  - inversion Hnd as [|? ? Hnin Hnd']; subst.
    destruct (Equal k' k) eqn:E.
    + apply Equal_true in E. subst k'.
      destruct (Get objA k) eqn:EA.
      * rewrite IH by exact Hnd'. try rewrite EA. reflexivity.
      * rewrite IH by exact Hnd'. try rewrite EA. rewrite (Get_notin rest k Hnin).
        apply Get_Insert_eq.
    + apply Equal_false in E.
      destruct (Get objA k') eqn:EA'.
      * now rewrite IH.
      * rewrite IH by exact Hnd'. now rewrite (Get_Insert_ne result v' E).
Qed.

(** X1. The object [mergeObjects] returns holds the keys of both objects
    (each with pairwise distinct keys): a key of the first object has the
    value of the first object, or, where both objects have an object there, the
    merge of the two; a key of the second object only has the value of the
    second; no other key is present. *)
Theorem mergeObjects_lookup (objA objB : Obj) (k : Term) :
  NoDup (map fst objA) -> NoDup (map fst objB) ->
  Get (fst (mergeObjects objA objB)) k
  = match Get objA k with
    | Some v => Some (mergedValue v (Get objB k))
    | None => Get objB k
    end.
Proof.
  intros HA HB. rewrite mergeObjects_eq.
  pose proof (mergeUntil_stop objB objA []
                (fun _ o1 o2 _ => mergeObjects_ok o1 o2)) as Hs.
  destruct (mergeUntil objB objA []) as [result stop] eqn:Eu. simpl in Hs. subst stop.
  cbn [fst]. rewrite mergeRest_Get_full by exact HB.
  destruct (Get objA k) as [v|] eqn:EA.
  - pose proof (@mergeUntil_Get_in objB k v objA [] HA EA) as H.
    now rewrite Eu in H.
  - assert (Hn : ~ In k (map fst objA)).
    { intros Hin. apply in_map_iff in Hin. destruct Hin as [[k0 v0] [<- Hin]].
      clear -EA Hin. induction objA as [|[k1 v1] rest IH]; [destruct Hin|].
      simpl in EA. destruct (Equal k1 k0) eqn:E; [discriminate|].
      destruct Hin as [[= -> ->]|Hin]; [now rewrite Equal_refl in E|auto]. }
    pose proof (@mergeUntil_Get_notin objB k objA [] Hn) as H.
    rewrite Eu in H. simpl in H. rewrite H. now destruct (Get objB k).
Qed.

(** [{"a": {"x": 1}, "b": 2}] merged with [{"a": {"y": 3}, "c": 4}]: the key
    ["a"] holds the merge of the two objects. *)
Lemma mergeObjects_lookup_witness :
  Get (fst (mergeObjects
              [(String "a", Object [(String "x", Number 1)]); (String "b", Number 2)]
              [(String "a", Object [(String "y", Number 3)]); (String "c", Number 4)]))
      (String "a")
  = Some (Object [(String "x", Number 1); (String "y", Number 3)]).
Proof.
  refine (mergeObjects_lookup
            [(String "a", Object [(String "x", Number 1)]); (String "b", Number 2)]
            [(String "a", Object [(String "y", Number 3)]); (String "c", Number 4)]
            (String "a") _ _);
    repeat constructor; simpl; intuition discriminate.
Defined.

(** ** Inlined negation *)

Lemma enumerate_app {S B} (l1 l2 : list B) (r : Result) (k : B -> M S) (st : S) :
  enumerate (l1 ++ l2) r k st = (enumerate l1 None k ;; enumerate l2 r k) st.
Proof.
  revert st. induction l1 as [|b l1 IH]; intros st; [reflexivity|].
  cbn [app enumerate]. unfold andThen.
  destruct (k b st) as [[err|] st1]; [reflexivity|].
  rewrite IH. reflexivity.
Qed.

Lemma andThen_ext {S} (m m' k k' : M S) (st : S) :
  m st = m' st -> (forall s, k s = k' s) -> (m ;; k) st = (m' ;; k') st.
Proof.
  intros Hm Hk. unfold andThen. rewrite Hm.
  destruct (m' st) as [[err|] st1]; [reflexivity|apply Hk].
Qed.

Lemma cartesian_length {Expr} (queries : list (list Expr)) :
  length (cartesian queries) = productSize queries.
Proof.
  induction queries as [|query rest IH]; [reflexivity|].
  cbn [cartesian productSize fold_right]. fold (productSize rest). rewrite <- IH.
  induction query as [|expr more IHq]; [reflexivity|].
  cbn [flat_map length]. rewrite length_app, length_map, IHq. reflexivity.
Qed.

(** X2. [complementedCartesianProduct] calls [iter] with the bodies of the
    product of the queries, first query first, every expression
    complemented, after the expressions of [curr]; it stops at the first
    error of [iter].  The number of bodies is the product of the lengths of
    the queries: none when a query is empty, and the one body [curr] when
    there is no query. *)
Theorem complementedCartesianProduct_enumerates {Expr S} (Complement : Expr -> Expr)
  (iter : list Expr -> M S) (queries : list (list Expr)) (curr : list Expr) (st : S) :
  complementedCartesianProduct Complement queries curr iter st
  = enumerate (map (fun body => curr ++ map Complement body) (cartesian queries)) None iter st
  /\ length (cartesian queries) = productSize queries.
Proof.
  split; [|apply cartesian_length].
  revert curr st. induction queries as [|query rest IH]; intros curr st.
  - cbn. rewrite app_nil_r. unfold andThen, ret.
    now destruct (iter curr st) as [[err|] st1].
  - cbn [complementedCartesianProduct cartesian].
    revert st. induction query as [|expr more IHq]; intros st; [reflexivity|].
    cbn [flat_map]. rewrite map_app, enumerate_app, map_map.
    assert (E : map (fun x => curr ++ map Complement (expr :: x)) (cartesian rest)
                = map (fun body => (curr ++ [Complement expr]) ++ map Complement body)
                    (cartesian rest)).
    { apply map_ext. intros body. cbn [map]. now rewrite <- app_assoc. }
    rewrite E.
    apply andThen_ext; [apply IH|exact IHq].
Qed.

Lemma wrapInt_id (z : Z) : (- 2 ^ 63 <= z < 2 ^ 63)%Z -> wrapInt z = z.
Proof. intros H. unfold wrapInt. rewrite Z.mod_small; lia. Qed.

Lemma wrapInt_range (z : Z) : (- 2 ^ 63 <= wrapInt z < 2 ^ 63)%Z.
Proof.
  unfold wrapInt. pose proof (Z.mod_pos_bound (z + 2 ^ 63) (2 ^ 64) ltac:(lia)). lia.
Qed.

Lemma wrapInt_mul (a b : Z) : wrapInt (wrapInt a * b) = wrapInt (a * b).
Proof.
  unfold wrapInt.
  rewrite (Z.mod_eq (a + 2 ^ 63) (2 ^ 64)) by lia.
  replace ((a + 2 ^ 63 - 2 ^ 64 * ((a + 2 ^ 63) / 2 ^ 64) - 2 ^ 63) * b + 2 ^ 63)%Z
    with (a * b + 2 ^ 63 + (- ((a + 2 ^ 63) / 2 ^ 64) * b) * 2 ^ 64)%Z by ring.
  now rewrite Z_mod_plus_full.
Qed.

Lemma canInlineNegationFrom_spec {Expr} (Negated containsNestedRefOrCall unsafeVars : Expr -> bool)
  (queries : list (list Expr)) :
  forall size,
    (- 2 ^ 63 <= size < 2 ^ 63)%Z ->
    canInlineNegationFrom Negated containsNestedRefOrCall unsafeVars queries size
    = forallb (inlinableExprs Negated containsNestedRefOrCall unsafeVars) queries
      && (wrapInt (size * Z.of_nat (productSize queries)) <=? 16)%Z.
Proof.
  induction queries as [|query rest IH]; intros size Hs.
  - cbn. rewrite Z.mul_1_r, wrapInt_id by exact Hs. reflexivity.
  - cbn [canInlineNegationFrom forallb productSize fold_right]. fold (productSize rest).
    destruct (inlinableExprs Negated containsNestedRefOrCall unsafeVars query);
      [|reflexivity].
    rewrite IH by apply wrapInt_range. cbn [andb].
    rewrite wrapInt_mul, Nat2Z.inj_mul, Z.mul_assoc. reflexivity.
Qed.

(** X3. [canInlineNegation] answers true exactly when every expression of
    every query passes its two checks (no nested reference or call; a
    positive expression has no unsafe variable) and the product of the
    lengths of the queries, computed in machine integers, is at most 16.
    When the product does not overflow, a true answer bounds what
    [complementedCartesianProduct] produces: at most 16 bodies.  The bound
    needs the premise: for 64 queries of two expressions each the product
    wraps around to 0 and the answer is true. *)
Theorem canInlineNegation_bound {Expr} (Negated containsNestedRefOrCall unsafeVars : Expr -> bool)
  (queries : list (list Expr)) :
  canInlineNegation Negated containsNestedRefOrCall unsafeVars queries
  = forallb (inlinableExprs Negated containsNestedRefOrCall unsafeVars) queries
    && (wrapInt (Z.of_nat (productSize queries)) <=? 16)%Z
  /\ ((Z.of_nat (productSize queries) < 2 ^ 63)%Z ->
      canInlineNegation Negated containsNestedRefOrCall unsafeVars queries = true ->
      length (cartesian queries) <= 16)
  /\ canInlineNegation (fun _ : unit => true) (fun _ => false) (fun _ => false)
       (repeat [tt; tt] 64) = true.
Proof.
  assert (E : canInlineNegation Negated containsNestedRefOrCall unsafeVars queries
              = forallb (inlinableExprs Negated containsNestedRefOrCall unsafeVars) queries
                && (wrapInt (Z.of_nat (productSize queries)) <=? 16)%Z).
  { unfold canInlineNegation. rewrite canInlineNegationFrom_spec by lia.
    now rewrite Z.mul_1_l. }
  split; [exact E|]. split; [|vm_compute; reflexivity].
  intros Hsmall Htrue. rewrite E in Htrue.
  apply andb_true_iff in Htrue. destruct Htrue as [_ Hle].
  rewrite wrapInt_id in Hle by lia. apply Z.leb_le in Hle.
  rewrite cartesian_length. lia.
Qed.

(** ** Scopes of virtual-cache keys *)

(** Two scope elements that [vcKeyScope.Compare] takes for the same. *)
Definition scopeElemSame (t1 t2 : Term) : Prop :=
  (isVar t1 = true /\ isVar t2 = true) \/ t1 = t2.

Lemma vcKeyScopeCompareLoop_zero (r1 r2 : list Term) :
  length r1 = length r2 ->
  (vcKeyScopeCompareLoop r1 r2 = 0%Z <-> Forall2 scopeElemSame r1 r2).
Proof.
  revert r2. induction r1 as [|t1 r1 IH]; intros [|t2 r2] Hlen; try discriminate.
  - split; [constructor|reflexivity].
  - injection Hlen as Hlen. cbn [vcKeyScopeCompareLoop].
    destruct (isVar t1 && isVar t2) eqn:Ev.
    + apply andb_true_iff in Ev. rewrite (IH r2 Hlen). split.
      * intros H. constructor; [now left|exact H].
      * intros H. now inversion H.
    + destruct (Equal t1 t2) eqn:Ee; cbn [negb].
      * apply Equal_true in Ee. rewrite (IH r2 Hlen). split.
        -- intros H. constructor; [now right|exact H].
        -- intros H. now inversion H.
      * apply Equal_false in Ee. split; [discriminate|].
        intros H. inversion H as [|? ? ? ? [[H1 H2]|H1] _]; subst.
        -- rewrite H1, H2 in Ev. discriminate.
        -- congruence.
Qed.

Lemma vcKeyScopeCompare_zero (q1 q2 : list Term) :
  vcKeyScopeCompare q1 (inl q2) = 0%Z <-> Forall2 scopeElemSame q1 q2.
Proof.
  unfold vcKeyScopeCompare. destruct (length q1 =? length q2) eqn:El; cbn [negb].
  - apply Nat.eqb_eq in El. now apply vcKeyScopeCompareLoop_zero.
  - apply Nat.eqb_neq in El. split; [discriminate|].
    intros H. apply Forall2_length in H. contradiction.
Qed.

Lemma vcKeyScopeCompareLoop_values (r1 r2 : list Term) :
  vcKeyScopeCompareLoop r1 r2 = 0%Z \/ vcKeyScopeCompareLoop r1 r2 = (-1)%Z.
Proof.
  revert r2. induction r1 as [|t1 r1 IH]; intros [|t2 r2]; cbn; auto.
  destruct (isVar t1 && isVar t2); [apply IH|].
  destruct (Equal t1 t2); cbn; [apply IH|auto].
Qed.

Lemma vcKeyScopeHashFrom_same (valueHash : Term -> Z) (q1 q2 : list Term) :
  Forall2 scopeElemSame q1 q2 ->
  forall h, vcKeyScopeHashFrom valueHash h q1 = vcKeyScopeHashFrom valueHash h q2.
Proof.
  induction 1 as [|t1 t2 r1 r2 Hs _ IH]; intros h; [reflexivity|].
  cbn [vcKeyScopeHashFrom].
  destruct Hs as [[H1 H2]| ->]; [rewrite H1, H2|]; apply IH.
Qed.

(** X4. [vcKeyScope.Compare] on two scopes answers 0 or -1, never 1, and 0
    exactly when the scopes have one length and at every position both hold
    a variable (whatever its name) or both hold the same term.  So it is an
    equivalence on scopes and not an order; a value that is no scope gets 1.
    [vcKeyScope.Hash] agrees with it: scopes that compare as 0 have the
    same hash. *)
Theorem vcKeyScope_compare_hash :
  (forall q1 q2, vcKeyScopeCompare q1 (inl q2) = 0%Z <-> Forall2 scopeElemSame q1 q2)
  /\ (forall q1 q2, vcKeyScopeCompare q1 (inl q2) = 0%Z
                    \/ vcKeyScopeCompare q1 (inl q2) = (-1)%Z)
  /\ (forall q, vcKeyScopeCompare q (inl q) = 0%Z)
  /\ (forall q1 q2, vcKeyScopeCompare q1 (inl q2) = 0%Z ->
                    vcKeyScopeCompare q2 (inl q1) = 0%Z)
  /\ (forall q1 q2 q3,
         vcKeyScopeCompare q1 (inl q2) = 0%Z -> vcKeyScopeCompare q2 (inl q3) = 0%Z ->
         vcKeyScopeCompare q1 (inl q3) = 0%Z)
  /\ (forall valueHash q1 q2,
         vcKeyScopeCompare q1 (inl q2) = 0%Z ->
         vcKeyScopeHash valueHash q1 = vcKeyScopeHash valueHash q2)
  /\ (forall q t, vcKeyScopeCompare q (inr t) = 1%Z).
Proof.
  split; [exact vcKeyScopeCompare_zero|].
  split.
  { intros q1 q2. unfold vcKeyScopeCompare.
    destruct (negb (length q1 =? length q2)); [now right|apply vcKeyScopeCompareLoop_values]. }
  split.
  { intros q. apply vcKeyScopeCompare_zero.
    induction q; constructor; [now right|assumption]. }
  split.
  { intros q1 q2 H. apply vcKeyScopeCompare_zero in H. apply vcKeyScopeCompare_zero.
    induction H as [|t1 t2 r1 r2 Hs _ IH]; constructor; [|exact IH].
    destruct Hs as [[H1 H2]| ->]; [left; auto|now right]. }
  split.
  { intros q1 q2 q3 H12 H23.
    apply vcKeyScopeCompare_zero in H12. apply vcKeyScopeCompare_zero in H23.
    apply vcKeyScopeCompare_zero.
    revert q3 H23. induction H12 as [|t1 t2 r1 r2 Hs _ IH]; intros q3 H23;
      inversion H23 as [|? t3 ? r3 Hs' H23']; subst; constructor; [|now apply IH].
    destruct Hs as [[H1 H2]| ->]; [|exact Hs'].
    destruct Hs' as [[H2' H3]| <-]; left; auto. }
  split; [|reflexivity].
  intros valueHash q1 q2 H. apply vcKeyScopeCompare_zero in H.
  unfold vcKeyScopeHash. now apply vcKeyScopeHashFrom_same.
Qed.

Lemma vcKeyScopeReduceIndex_le (q : list Term) (i : nat) : vcKeyScopeReduceIndex q i <= i.
Proof. induction i as [|j IH]; cbn; [lia|]. destruct (isVar (nth j q Null)); lia. Qed.

Lemma vcKeyScopeReduceIndex_vars (q : list Term) (i : nat) :
  forall j, vcKeyScopeReduceIndex q i <= j < i -> isVar (nth j q Null) = true.
Proof.
  induction i as [|i IH]; intros j Hj; cbn in Hj; [lia|].
  destruct (isVar (nth i q Null)) eqn:E; [|lia].
  destruct (Nat.eq_dec j i) as [->|Hne]; [exact E|]. apply IH. lia.
Qed.

Lemma vcKeyScopeReduceIndex_last (q : list Term) (i : nat) :
  forall j, vcKeyScopeReduceIndex q i = S j -> isVar (nth j q Null) = false.
Proof.
  induction i as [|i IH]; intros j Hj; cbn in Hj; [discriminate|].
  destruct (isVar (nth i q Null)) eqn:E; [now apply IH|].
  injection Hj as <-. exact E.
Qed.

Lemma vcKeyScopeReduceIndex_stable (q : list Term) (i : nat) :
  forall j, vcKeyScopeReduceIndex q i = S j ->
            vcKeyScopeReduceIndex q (S j) = S j.
Proof.
  intros j Hj. cbn. now rewrite (@vcKeyScopeReduceIndex_last q i j Hj).
Qed.

Lemma nth_firstn_lt {A} (l : list A) (n j : nat) (d : A) :
  j < n -> nth j (firstn n l) d = nth j l d.
Proof.
  revert n j. induction l as [|x l IH]; intros n j H.
  - now rewrite firstn_nil.
  - destruct n; [lia|]. destruct j; cbn; [reflexivity|apply IH; lia].
Qed.

Lemma vcKeyScopeReduceIndex_ext (q q' : list Term) (i : nat) :
  (forall j, j < i -> nth j q Null = nth j q' Null) ->
  vcKeyScopeReduceIndex q i = vcKeyScopeReduceIndex q' i.
Proof.
  induction i as [|i IH]; intros H; [reflexivity|]. cbn.
  rewrite (H i) by lia. rewrite IH; [reflexivity|]. intros j Hj. apply H. lia.
Qed.

(** X5. [vcKeyScope.reduce] removes the variables at the tail of a scope
    and nothing else: the scope is the reduced scope followed by variables
    only, the reduced scope does not end in a variable, reducing again
    changes nothing, and the reduced scope is empty exactly when the scope
    holds variables only. *)
Theorem vcKeyScope_reduce (q : list Term) :
  (exists vs, q = vcKeyScopeReduce q ++ vs /\ forallb isVar vs = true)
  /\ (forall l t, vcKeyScopeReduce q = l ++ [t] -> isVar t = false)
  /\ vcKeyScopeReduce (vcKeyScopeReduce q) = vcKeyScopeReduce q
  /\ vcKeyScopeEmpty (vcKeyScopeReduce q) = forallb isVar q.
Proof.
  remember (vcKeyScopeReduceIndex q (length q)) as n eqn:Hdef.
  assert (Hn : n <= length q) by (subst n; apply vcKeyScopeReduceIndex_le).
  assert (Hv : forall j, n <= j < length q -> isVar (nth j q Null) = true).
  { intros j Hj. apply (@vcKeyScopeReduceIndex_vars q (length q)). now rewrite <- Hdef. }
  assert (Hl : forall j, n = S j -> isVar (nth j q Null) = false).
  { intros j Hj. apply (@vcKeyScopeReduceIndex_last q (length q)). now rewrite <- Hdef. }
  assert (Hred : vcKeyScopeReduce q = firstn n q).
  { unfold vcKeyScopeReduce. now rewrite <- Hdef. }
  assert (Hlen : length (vcKeyScopeReduce q) = n).
  { rewrite Hred, length_firstn. lia. }
  assert (Hvars : forallb isVar (skipn n q) = true).
  { apply forallb_forall. intros t Ht.
    apply (In_nth _ _ Null) in Ht. destruct Ht as (j & Hj & <-).
    rewrite length_skipn in Hj. rewrite nth_skipn. apply Hv. lia. }
  split; [|split; [|split]].
  - exists (skipn n q). split; [|exact Hvars].
    rewrite Hred. now rewrite firstn_skipn.
  - intros l t Hlt.
    assert (Hn' : n = S (length l)).
    { rewrite <- Hlen, Hlt, length_app. cbn. lia. }
    assert (Ht : nth (length l) (vcKeyScopeReduce q) Null = t).
    { rewrite Hlt, app_nth2 by lia. now rewrite Nat.sub_diag. }
    rewrite Hred, nth_firstn_lt in Ht by lia. rewrite <- Ht. now apply Hl.
  - unfold vcKeyScopeReduce at 1. rewrite Hlen.
    assert (E : vcKeyScopeReduceIndex (vcKeyScopeReduce q) n = n).
    { rewrite (@vcKeyScopeReduceIndex_ext (vcKeyScopeReduce q) q n).
      - destruct n as [|j]; [reflexivity|].
        cbn. now rewrite (Hl j eq_refl).
      - intros j Hj. rewrite Hred. now apply nth_firstn_lt. }
    rewrite E. apply firstn_all2. lia.
  - unfold vcKeyScopeEmpty. rewrite Hlen.
    destruct n as [|j].
    + cbn. symmetry. apply forallb_forall. intros t Ht.
      apply (In_nth _ _ Null) in Ht. destruct Ht as (i & Hi & <-).
      apply Hv. split; [apply Nat.le_0_l|exact Hi].
    + cbn. symmetry. apply not_true_is_false. intros Hall.
      pose proof (Hl j eq_refl) as Hlast.
      rewrite forallb_forall in Hall.
      rewrite (Hall (nth j q Null)) in Hlast; [discriminate|].
      apply nth_In. lia.
Qed.

(** ** maxRefLength *)

Lemma ruleRefLength_nonneg (refLen : Rule -> nat) (multiValue : Rule -> bool) (r : Rule) :
  (0 <= ruleRefLength refLen multiValue r)%Z.
Proof. unfold ruleRefLength. destruct (multiValue r); lia. Qed.

Lemma maxRefLengthFrom_spec (refLen : Rule -> nat) (multiValue : Rule -> bool)
  (rules : list Rule) (ceil : Z) :
  forall l, (0 <= l <= ceil)%Z ->
    maxRefLengthFrom refLen multiValue rules ceil l
    = Z.min ceil (Z.max l (longestRuleRef refLen multiValue rules)).
Proof.
  induction rules as [|r rest IH]; intros l Hl; cbn [maxRefLengthFrom longestRuleRef fold_right].
  - lia.
  - fold (longestRuleRef refLen multiValue rest).
    pose proof (ruleRefLength_nonneg refLen multiValue r) as Hr.
    destruct (ruleRefLength refLen multiValue r >=? ceil)%Z eqn:E.
    + apply Z.geb_le in E. lia.
    + rewrite Z.geb_leb in E. apply Z.leb_gt in E.
      destruct (ruleRefLength refLen multiValue r >? l)%Z eqn:E2.
      * rewrite Z.gtb_ltb in E2. apply Z.ltb_lt in E2. rewrite IH by lia. lia.
      * rewrite Z.gtb_ltb in E2. apply Z.ltb_ge in E2. rewrite IH by lia. lia.
Qed.

(** X6. For a ceiling that is not negative, [maxRefLength] is the length of
    the longest rule reference (a multi-value rule counting one more) cut off
    at the ceiling: never more than the ceiling, never more than the longest
    reference, and 0 for no rules. *)
Theorem maxRefLength_min (refLen : Rule -> nat) (multiValue : Rule -> bool)
  (rules : list Rule) (ceil : Z) :
  (0 <= ceil)%Z ->
  maxRefLength refLen multiValue rules ceil
  = Z.min ceil (longestRuleRef refLen multiValue rules).
Proof.
  intros Hc. unfold maxRefLength. rewrite maxRefLengthFrom_spec by lia.
  assert (H : (0 <= longestRuleRef refLen multiValue rules)%Z).
  { destruct rules as [|r rest]; cbn; [lia|].
    pose proof (ruleRefLength_nonneg refLen multiValue r). lia. }
  lia.
Qed.

(** Rules with references of the lengths 2 and 5 and the ceiling 3. *)
Lemma maxRefLength_min_witness :
  maxRefLength (fun r => ruleId r) (fun _ => false)
    [mkRule 2 [] Null 0; mkRule 5 [] Null 0] 3 = 3%Z.
Proof.
  apply (@maxRefLength_min (fun r => ruleId r) (fun _ => false)
           [mkRule 2 [] Null 0; mkRule 5 [] Null 0] 3).
  discriminate.
Defined.

(** ** hasCollisions *)

Lemma HasPrefix_app (ref other : Reference) :
  HasPrefix ref other = true <-> exists rest, ref = other ++ rest.
Proof.
  revert ref. induction other as [|o other IH]; intros ref; cbn.
  - split; [intros _; now exists ref|reflexivity].
  - destruct ref as [|r ref].
    + split; [discriminate|]. intros [rest H]. discriminate.
    + rewrite andb_true_iff, Equal_true, IH. split.
      * intros [-> [rest ->]]. now exists rest.
      * intros [rest H]. injection H as -> ->. split; [reflexivity|now exists rest].
Qed.

Lemma refEqual_eq (ref other : Reference) : refEqual ref other = true <-> ref = other.
Proof.
  unfold refEqual. rewrite Equal_true. split; [now intros [= ->]|now intros ->].
Qed.

(** X7. [hasCollisions] reports a collision exactly when a reference
    visited before is a proper prefix of the plugged path; then the visited
    references stay as they are, and otherwise the plugged path is appended
    to them.  The test looks one way only: a path is not reported when a
    longer path that extends it was visited before, and a path visited
    twice is not reported either. *)
Theorem hasCollisions_proper_prefix (Plug : Reference -> Reference) (path : Reference)
  (visitedRefs : list Reference) :
  (fst (hasCollisions Plug path visitedRefs) = true <->
   exists c rest, In c visitedRefs /\ rest <> [] /\ Plug path = c ++ rest)
  /\ snd (hasCollisions Plug path visitedRefs)
     = (if fst (hasCollisions Plug path visitedRefs) then visitedRefs
        else visitedRefs ++ [Plug path])
  /\ (forall rest, fst (hasCollisions Plug path [Plug path ++ rest]) = false).
Proof.
  unfold hasCollisions. split; [|split].
  - destruct (existsb _ visitedRefs) eqn:E; cbn [fst].
    + split; [intros _|reflexivity].
      apply existsb_exists in E. destruct E as (c & Hin & Hc).
      apply andb_true_iff in Hc. destruct Hc as [Hp Hne].
      apply HasPrefix_app in Hp. destruct Hp as [rest Hp].
      exists c, rest. split; [exact Hin|]. split; [|exact Hp].
      intros ->. rewrite app_nil_r in Hp.
      apply negb_true_iff in Hne. apply not_true_iff_false in Hne.
      apply Hne. now apply refEqual_eq.
    + split; [discriminate|]. intros (c & rest & Hin & Hne & Hp). exfalso.
      apply not_true_iff_false in E. apply E.
      apply existsb_exists. exists c. split; [exact Hin|].
      apply andb_true_iff. split.
      * apply HasPrefix_app. now exists rest.
      * apply negb_true_iff. apply not_true_iff_false. intros Heq.
        apply refEqual_eq in Heq. rewrite Heq in Hp.
        apply Hne. rewrite <- (app_nil_r c) in Hp at 1.
        now apply app_inv_head in Hp.
  - now destruct (existsb _ visitedRefs).
  - intros rest. cbn [existsb].
    destruct (HasPrefix (Plug path) (Plug path ++ rest)) eqn:Hp; [|reflexivity].
    apply HasPrefix_app in Hp. destruct Hp as [rest' Hp].
    rewrite <- app_assoc in Hp. rewrite <- (app_nil_r (Plug path)) in Hp at 1.
    apply app_inv_head in Hp. symmetry in Hp. apply app_eq_nil in Hp.
    destruct Hp as [-> _]. rewrite app_nil_r.
    assert (E : refEqual (Plug path) (Plug path) = true) by now apply refEqual_eq.
    now rewrite E.
Qed.

(** ** updateSavedMocks and the modifiers evalWith merges *)

Ltac string_bit H b := destruct b; try discriminate H.

Lemma isInputRef_shape (t : Term) :
  isInputRef t = true -> exists rest, t = Ref (Var "input" :: rest).
Proof.
  destruct t as [| | | | |terms| | | | | | |]; try discriminate.
  destruct terms as [|h terms]; [discriminate|].
  destruct h as [| | | |name| | | | | | | |]; try discriminate.
  cbn. intros H.
  do 5 (destruct name as [|[b0 b1 b2 b3 b4 b5 b6 b7] name]; [discriminate H|];
        string_bit H b0; string_bit H b1; string_bit H b2; string_bit H b3;
        string_bit H b4; string_bit H b5; string_bit H b6; string_bit H b7).
  destruct name; [|discriminate H].
  now exists terms.
Qed.

Lemma isInputRef_not_data (t : Term) : isInputRef t = true -> isDataRef t = false.
Proof. intros H. apply isInputRef_shape in H. destruct H as [rest ->]. reflexivity. Qed.

(** X8. Of the modifiers of an expression (their targets are references),
    [updateSavedMocks] keeps, in order, those that replace a part of [input]
    or of [data] and no function; they are the modifiers whose pairs
    [evalWith] merges into the input and into the data.  A modifier that
    replaces a function or a built-in is never kept. *)
Theorem updateSavedMocks_keeps_merged (isFunction isBuiltin : Term -> bool)
  (Plug : Term -> Term) (ws : list With) :
  Forall (fun w => isRef (Target w) = true) ws ->
  updateSavedMocks isFunction ws = Some (filter (keepsWith isFunction) ws)
  /\ fst (fst (fst (partitionWith isFunction isBuiltin Plug ws)))
     = map (withPair Plug)
         (filter (fun w => isInputRef (Target w)) (filter (keepsWith isFunction) ws))
  /\ snd (fst (fst (partitionWith isFunction isBuiltin Plug ws)))
     = map (withPair Plug)
         (filter (fun w => isDataRef (Target w)) (filter (keepsWith isFunction) ws)).
Proof.
  induction 1 as [|w rest Hw _ IH]; [now cbn|].
  destruct IH as (Hu & Hi & Hd).
  cbn [updateSavedMocks partitionWith filter]. rewrite Hu.
  destruct (partitionWith isFunction isBuiltin Plug rest) as [[[pin pdat] mocks] targets].
  cbn [fst snd] in Hi, Hd. subst pin pdat.
  assert (HK : keepsWith isFunction w
               = negb (isFunction (Target w))
                 && (isInputRef (Target w) || isDataRef (Target w))) by reflexivity.
  assert (HP : withPair Plug w = (Target w, Plug (WithValue w))) by reflexivity.
  unfold isOtherRef.
  destruct (Target w) as [| | | | |terms| | | | | | |] eqn:ET; try discriminate Hw.
  destruct (isFunction (Ref terms)) eqn:Ef;
    [|destruct (isInputRef (Ref terms)) eqn:Ei;
      [pose proof (isInputRef_not_data _ Ei) as Ed
      |destruct (isDataRef (Ref terms)) eqn:Ed; [|destruct (isBuiltin (Ref terms))]]];
    rewrite HK; try rewrite Ed;
    cbn [negb andb orb filter map fst snd];
    rewrite ?orb_true_r; cbn [negb andb orb filter map fst snd];
    rewrite ?ET, ?Ei, ?Ed; cbn [map]; rewrite ?HP; auto.
Qed.

(** [input.a with input.a as 1 with data.f as 2 with count as 3], where
    [data.f] is a function: the first modifier is kept. *)
Lemma updateSavedMocks_keeps_merged_witness :
  let ws := [mkWith (Ref [Var "input"; String "a"]) (Number 1);
             mkWith (Ref [Var "data"; String "f"]) (Number 2);
             mkWith (Ref [Var "count"]) (Number 3)] in
  updateSavedMocks (fun t => isDataRef t) ws
  = Some [mkWith (Ref [Var "input"; String "a"]) (Number 1)].
Proof.
  intros ws.
  refine (proj1 (@updateSavedMocks_keeps_merged (fun t => isDataRef t) (fun _ => true)
                   (fun t => t) ws _)).
  repeat constructor.
Defined.

(** ** Negation: a complement with a solution, or with an error *)

(** X9. Outside partial evaluation, when the complement of a negated
    expression has a solution and ends without an error, [evalNot] returns
    nil without calling the continuation, and the frame of the expression is
    as it was: the [defined] flag is set in the closure only.  An error that
    ends the evaluation of the complement is returned as it is. *)
Theorem evalNot_solution_or_error {S B : Type} (sr : bool)
  (np : M (eval * S) -> M (eval * S)) (s : Search B) (iter : M (eval * S))
  (e : eval) (st : S) :
  partial e = false ->
  (sols s <> [] -> fin s = None ->
   evalNot sr np (streamEval s) iter (e, st) = (None, (e, st)))
  /\ (forall err, fin s = Some err ->
                  evalNot sr np (streamEval s) iter (e, st) = (Some err, (e, st))).
Proof.
  intros Hp. rewrite (@evalNot_stream S B sr np s iter e st Hp). split.
  - intros Hs Hf. rewrite Hf. unfold noSolution.
    destruct (sols s); [contradiction|]. now rewrite andb_false_r.
  - intros err Hf. now rewrite Hf.
Qed.

(** [not input.a] where [input.a] has one solution: the continuation (which
    would fail) is not called. *)
Lemma evalNot_solution_or_error_witness :
  evalNot false (fun it => it) (streamEval (mkSearch [tt] None))
    (fun s => (Some (InternalErr "continuation"), s))
    (mkEval false false false 0 None None, tt)
  = (None, (mkEval false false false 0 None None, tt)).
Proof.
  refine (proj1 (@evalNot_solution_or_error unit unit false (fun it => it)
                   (mkSearch [tt] None) (fun s => (Some (InternalErr "continuation"), s))
                   (mkEval false false false 0 None None) tt eq_refl) _ eq_refl).
  discriminate.
Defined.

(** ** Built-ins: the cache of non-deterministic built-ins *)

Lemma ndbGet_head (c : list (string * list Term * Value)) (name : string)
  (ops : list Term) (v : Value) :
  ndbGet ((name, ops, v) :: c) name ops = Some v.
Proof.
  cbn. destruct (string_dec name name) as [_|H]; [|contradiction].
  destruct (list_eq_dec Value_eq_dec ops ops) as [_|H]; [reflexivity|contradiction].
Qed.

(** X10. A non-deterministic built-in is called with a cache of
    non-deterministic built-ins that has no entry for the call, and its
    implementation hands one output to the callback.  Then the output is in
    the cache afterwards, whatever the continuation did, and a second call
    with the same operands does not run the implementation: it handles the
    cached output as the output of a call is handled, whatever the
    implementation would do. *)
Theorem evalBuiltin_ndb_replay (Plug : Term -> Term) (bi : Builtin)
  (f : list Term -> (Term -> M St) -> M St) (unify : Term -> Term -> M St -> M St)
  (terms : list Term) (iter : M St) (st : St) (output : Term) :
  canUseNDBCache bi true = true ->
  ndbLookup Plug bi true terms st = None ->
  f (operandsOf Plug terms) (builtinCallback Plug bi true unify terms iter) st
  = builtinCallback Plug bi true unify terms iter output st ->
  let st' := snd (evalBuiltin Plug bi true f unify terms iter st) in
  ndbLookup Plug bi true terms st' = Some output
  /\ forall f' iter',
       evalBuiltin Plug bi true f' unify terms iter' st'
       = handleOutput Plug bi unify terms iter' output st'.
Proof.
  intros Hc Hmiss Hf st'.
  assert (Hl : ndbLookup Plug bi true terms st' = Some output).
  { unfold st', evalBuiltin. rewrite Hmiss, Hf.
    unfold builtinCallback, ndbLookup. rewrite Hc.
    destruct (handleOutput Plug bi unify terms iter output st) as [[x|] s1];
      cbn; apply ndbGet_head. }
  split; [exact Hl|].
  intros f' iter'. unfold evalBuiltin. now rewrite Hl.
Qed.

(** [time.now_ns()], called twice: the second call gets the first output. *)
Lemma evalBuiltin_ndb_replay_witness :
  let bi := mkBuiltin "time.now_ns" 0 true true in
  let st := (mkEval false false false 0 None None, mkHeap [] [] [] [] [] [] 0 0 []) in
  let f := fun (_ : list Term) (cb : Term -> M St) => cb (Number 42) in
  let unify := fun (a b : Term) (it : M St) (s : St) =>
                 if Equal a b then it s else (None, s) in
  ndbLookup (fun t => t) bi true [Var "x"]
    (snd (evalBuiltin (fun t => t) bi true f unify [Var "x"] (ret None) st))
  = Some (Number 42).
Proof.
  intros bi st f unify.
  exact (proj1 (@evalBuiltin_ndb_replay (fun t => t) bi f unify [Var "x"] (ret None) st
                  (Number 42) eq_refl eq_refl eq_refl)).
Defined.

(** ** The end of a query: early exits are wrapped and unwrapped *)

(** X11. At the end of its query a frame wraps an early exit its
    continuation returns, and returns an early exit of its own when it asks
    for one solution; [suppressEarlyExit] takes off exactly that: the end
    of a query under [withSuppressEarlyExit] returns what the continuation
    returned, error or nil, in the state the continuation left.  The early
    exit of a frame that asks for one solution, crossing the end of the
    query of a frame that does not, is a deferred early exit, and it is
    still an early exit once suppressed. *)
Theorem evalExprEnd_suppress_transparent {S : Type} (c : eval) (k : M S) (st : S) :
  withSuppressEarlyExit (evalExprEnd c k) st = k st
  /\ forall c',
       findOne c' = true -> partial c' = false -> findOne c = false ->
       fst (k st) = None ->
       exists x,
         fst (evalExprEnd c (evalExprEnd c' k) st) = Some x
         /\ isDeferredEarlyExit x = true
         /\ suppressEarlyExit (Some x) = Some (earlyExitError None).
Proof.
  split.
  - unfold withSuppressEarlyExit, evalExprEnd.
    destruct (k st) as [[x|] st1].
    + unfold wrapErr. destruct x; cbn; try reflexivity; destruct (findOne c); reflexivity.
    + destruct (findOne c && negb (partial c)); reflexivity.
  - intros c' Hf' Hp' Hf Hk.
    exists (deferredEarlyExitError (Some (earlyExitError None))).
    unfold evalExprEnd. destruct (k st) as [r st1]. cbn [fst] in Hk. subst r.
    rewrite Hf', Hp', Hf. cbn. auto.
Qed.

(** ** Unification leaves no trace *)

Lemma saveSetPush_rev (pairs : list (Term * Frame)) (ss : SaveSet) :
  fold_left (fun acc p => ([fst p], snd p) :: acc) pairs ss
  = rev (map (fun p : Term * Frame => ([fst p], snd p)) pairs) ++ ss.
Proof.
  revert ss. induction pairs as [|p pairs IH]; intros ss; [reflexivity|].
  cbn [fold_left map rev]. rewrite IH, <- app_assoc. reflexivity.
Qed.

Lemma skipn_saveSetPush (pairsA pairsB : list (Term * Frame)) (ss : SaveSet) :
  skipn (length pairsA + length pairsB)
    (fold_left (fun acc p => ([fst p], snd p) :: acc) pairsB
       (fold_left (fun acc p => ([fst p], snd p) :: acc) pairsA ss))
  = ss.
Proof.
  rewrite !saveSetPush_rev, app_assoc.
  rewrite skipn_app.
  assert (E : length (rev (map (fun p : Term * Frame => ([fst p], snd p)) pairsB)
                      ++ rev (map (fun p : Term * Frame => ([fst p], snd p)) pairsA))
              = length pairsA + length pairsB).
  { rewrite length_app, !length_rev, !length_map. apply Nat.add_comm. }
  rewrite <- E, skipn_all, Nat.sub_diag. reflexivity.
Qed.

Section UnifyNeutral.

Variable Bindings : Type.
Variable apply : Bindings -> Frame -> Term -> Term * Frame.
Variable bind : Frame -> Term -> Term -> Frame -> Bindings -> Bindings.
Variable undoBind : Frame -> Term -> Bindings -> Bindings.
Variable PlugF : Bindings -> Frame -> Term -> Term.
Variable IsGround : Term -> bool.
Variable Contains : SaveSet -> Bindings -> Term -> Frame -> bool.
Variable ContainsRecursive : SaveSet -> Bindings -> Term -> Frame -> bool.
Variable savePairsOfVars : Bindings -> Term -> Frame -> list (Term * Frame).
Variable biunifyRef :
  Term -> Term -> Frame -> Frame -> M (UState Bindings) -> M (UState Bindings).
Variable biunifyComprehensionU :
  Term -> Term -> Frame -> Frame -> bool -> M (UState Bindings) -> M (UState Bindings).

(** [undo.Undo()] takes back what [bind] did; the evaluation of a reference
    and of a comprehension leave no trace when their continuation leaves
    none. *)
Hypothesis undo_bind :
  forall b1 a b b2 bs, undoBind b1 a (bind b1 a b b2 bs) = bs.
Hypothesis ref_neutral :
  forall a b b1 b2 iter, neutral iter -> neutral (biunifyRef a b b1 b2 iter).
Hypothesis comprehension_neutral :
  forall a b b1 b2 swap iter,
    neutral iter -> neutral (biunifyComprehensionU a b b1 b2 swap iter).

Lemma saveUnify_neutral (a b : Term) (b1 b2 : Frame) (iter : M (UState Bindings)) :
  neutral iter -> neutral (saveUnify savePairsOfVars a b b1 b2 iter).
Proof.
  intros Hi st. unfold saveUnify.
  match goal with
  | |- snd (let (_, _) := iter ?s in _) = _ =>
      pose proof (Hi s) as H; destruct (iter s) as [err st4]
  end.
  cbn [snd] in H |- *. subst st4.
  destruct st as [fr [ss|] stack];
    unfold saveSetPop, saveStackPop, saveStackPush, saveSetPush;
    cbn [frames saveSet saveStack option_map tl]; [|reflexivity].
  now rewrite skipn_saveSetPush.
Qed.

Lemma bindIter_neutral (b1 : Frame) (a b : Term) (b2 : Frame) (iter : M (UState Bindings)) :
  neutral iter -> neutral (bindIter bind undoBind b1 a b b2 iter).
Proof.
  intros Hi st. unfold bindIter.
  match goal with
  | |- snd (let (_, _) := iter ?s in _) = _ =>
      pose proof (Hi s) as H; destruct (iter s) as [err st2]
  end.
  cbn [snd] in H |- *. subst st2. cbn. rewrite undo_bind. now destruct st.
Qed.

Lemma biunifyValues_neutral (a b : Term) (b1 b2 : Frame) (iter : M (UState Bindings)) :
  neutral iter ->
  neutral (biunifyValues bind undoBind PlugF Contains ContainsRecursive savePairsOfVars
             biunifyRef biunifyComprehensionU a b b1 b2 iter).
Proof.
  intros Hi st. unfold biunifyValues.
  repeat match goal with
         | |- snd (if ?c then _ else _) = _ => destruct c
         | |- snd (match ?c with true => _ | false => _ end) = _ => destruct c
         | |- snd (let (_, _) := ?c in _) = _ => destruct c
         end;
    try reflexivity; try apply Hi;
    try (apply ref_neutral; exact Hi);
    try (apply comprehension_neutral; exact Hi);
    try (apply saveUnify_neutral; exact Hi);
    try (apply bindIter_neutral; exact Hi).
Qed.

Lemma biunifyArrays_neutral
  (un : Term -> Term -> Frame -> Frame -> M (UState Bindings) -> M (UState Bindings))
  (a b : list Term) (b1 b2 : Frame) (iter : M (UState Bindings)) :
  (forall x y c1 c2 it, neutral it -> neutral (un x y c1 c2 it)) ->
  neutral iter -> neutral (biunifyArrays un a b b1 b2 iter).
Proof.
  intros Hun Hi. unfold biunifyArrays.
  destruct (negb (length a =? length b)); [now intros st|].
  revert b. induction a as [|x a IH]; intros [|y b]; cbn [biunifyArraysRec];
    try exact Hi; try (now intros st).
  apply Hun. apply IH.
Qed.

Lemma biunifyObjects_neutral
  (un : Term -> Term -> Frame -> Frame -> M (UState Bindings) -> M (UState Bindings))
  (a b : Obj) (b1 b2 : Frame) (iter : M (UState Bindings)) :
  (forall x y c1 c2 it, neutral it -> neutral (un x y c1 c2 it)) ->
  neutral iter -> neutral (biunifyObjects PlugF IsGround un a b b1 b2 iter).
Proof.
  intros Hun Hi st. unfold biunifyObjects.
  destruct (negb (length a =? length b)); [reflexivity|].
  generalize (if nonGroundKeys IsGround a then plugKeys PlugF (frames st) a b1 else a).
  generalize (if nonGroundKeys IsGround b then plugKeys PlugF (frames st) b b2 else b).
  intros b' a'. generalize (map fst a'). intros keys. revert st.
  induction keys as [|key rest IH]; cbn [biunifyObjectsRec]; [exact Hi|].
  destruct (Get b' key); [|now intros st].
  apply Hun. exact IH.
Qed.

(** X12. Unification leaves the bindings, the save set and the save stack
    as it finds them when its continuation does (and [Undo] takes back what
    [bind] did): a binding made for the continuation is undone, and what
    [saveUnify] pushes on the save set and on the save stack is popped,
    whether the continuation returns an error or not.  This holds for terms
    of every nesting, arrays and objects included. *)
Theorem biunify_neutral (n : nat) (a b : Term) (b1 b2 : Frame)
  (iter : M (UState Bindings)) :
  neutral iter ->
  neutral (biunifyN apply bind undoBind PlugF IsGround Contains ContainsRecursive
             savePairsOfVars biunifyRef biunifyComprehensionU n a b b1 b2 iter).
Proof.
  revert a b b1 b2 iter. induction n as [|n IH]; intros a b b1 b2 iter Hi st;
    [reflexivity|].
  cbn [biunifyN]. unfold biunify.
  destruct (apply (frames st) b1 a) as [a' b1'].
  destruct (apply (frames st) b2 b) as [b' b2'].
  destruct a'; try destruct b'; try reflexivity;
    try (apply biunifyValues_neutral; exact Hi);
    try (apply biunifyArrays_neutral; [exact IH|exact Hi]);
    try (apply biunifyObjects_neutral; [exact IH|exact Hi]).
Qed.

End UnifyNeutral.

(** [[x, 1] = [2, 1]] with bindings kept in a list: the continuation sees the
    binding of [x], and the binding is gone afterwards. *)
Lemma biunify_neutral_witness :
  let apply := fun (_ : list (Term * Term)) (f : Frame) (t : Term) => (t, f) in
  let bind := fun (_ : Frame) (a b : Term) (_ : Frame) (bs : list (Term * Term)) =>
                (a, b) :: bs in
  let undoBind := fun (_ : Frame) (_ : Term) (bs : list (Term * Term)) => tl bs in
  let st := mkUState (@nil (Term * Term)) None [] in
  snd (biunifyN apply bind undoBind (fun _ _ t => t) (fun _ => true)
         (fun _ _ _ _ => false) (fun _ _ _ _ => false) (fun _ _ _ => [])
         (fun _ _ _ _ it => it) (fun _ _ _ _ _ it => it) 2
         (Array [Var "x"; Number 1]) (Array [Number 2; Number 1]) 0 0
         (fun s => (match frames s with [] => None | _ => Some CancelErr end, s)) st)
  = st.
Proof.
  intros apply bind undoBind st.
  refine (@biunify_neutral (list (Term * Term)) apply bind undoBind (fun _ _ t => t)
            (fun _ => true) (fun _ _ _ _ => false) (fun _ _ _ _ => false)
            (fun _ _ _ => []) (fun _ _ _ _ it => it) (fun _ _ _ _ _ it => it)
            (fun _ _ _ _ _ => eq_refl) (fun _ _ _ _ _ H => H) (fun _ _ _ _ _ _ H => H)
            2 (Array [Var "x"; Number 1]) (Array [Number 2; Number 1]) 0 0 _ _ st).
  intros s. reflexivity.
Defined.

(** ** Unification of ground scalars and arrays is equality *)

Lemma plainTerm_Array (l : list Term) : plainTerm (Array l) = forallb plainTerm l.
Proof. induction l as [|x l IH]; [reflexivity|]. cbn in *. now rewrite IH. Qed.

Lemma Equal_Array_cons (x y : Term) (a b : list Term) :
  Equal (Array (x :: a)) (Array (y :: b)) = Equal x y && Equal (Array a) (Array b).
Proof.
  destruct (Equal x y) eqn:Exy; destruct (Equal (Array a) (Array b)) eqn:Eab; cbn [andb].
  - apply Equal_true in Exy. apply Equal_true in Eab. injection Eab as ->. subst.
    apply Equal_refl.
  - apply Equal_false. apply Equal_false in Eab. intros [= -> ->]. now apply Eab.
  - apply Equal_false. apply Equal_false in Exy. intros [= -> ->]. now apply Exy.
  - apply Equal_false. apply Equal_false in Exy. intros [= -> ->]. now apply Exy.
Qed.

Lemma vsize_elem (x : Term) (l : list Term) : In x l -> vsize x < vsize (Array l).
Proof.
  cbn. induction l as [|y l IH]; [intros []|].
  intros [->|H]; [lia|]. specialize (IH H). lia.
Qed.

Section UnifyPlain.

Variable Bindings : Type.
Variable apply : Bindings -> Frame -> Term -> Term * Frame.
Variable bind : Frame -> Term -> Term -> Frame -> Bindings -> Bindings.
Variable undoBind : Frame -> Term -> Bindings -> Bindings.
Variable PlugF : Bindings -> Frame -> Term -> Term.
Variable IsGround : Term -> bool.
Variable Contains : SaveSet -> Bindings -> Term -> Frame -> bool.
Variable ContainsRecursive : SaveSet -> Bindings -> Term -> Frame -> bool.
Variable savePairsOfVars : Bindings -> Term -> Frame -> list (Term * Frame).
Variable biunifyRef :
  Term -> Term -> Frame -> Frame -> M (UState Bindings) -> M (UState Bindings).
Variable biunifyComprehensionU :
  Term -> Term -> Frame -> Frame -> bool -> M (UState Bindings) -> M (UState Bindings).

(** [apply] looks up variables only. *)
Hypothesis apply_nonvar :
  forall bs f t, isVar t = false -> apply bs f t = (t, f).

Lemma biunifyValues_scalars (a b : Term) (b1 b2 : Frame) (iter : M (UState Bindings))
  (st : UState Bindings) :
  IsScalar a = true -> IsScalar b = true -> saveSet st = None ->
  biunifyValues bind undoBind PlugF Contains ContainsRecursive savePairsOfVars
    biunifyRef biunifyComprehensionU a b b1 b2 iter st
  = if Equal a b then iter st else (None, st).
Proof.
  intros Ha Hb Hs. unfold biunifyValues, saveSetContains, saveSetContainsRecursive.
  rewrite Hs.
  destruct a; try discriminate Ha; destruct b; try discriminate Hb; reflexivity.
Qed.

Lemma biunifyArraysRec_equal
  (un : Term -> Term -> Frame -> Frame -> M (UState Bindings) -> M (UState Bindings))
  (b1 b2 : Frame) (iter : M (UState Bindings)) (st : UState Bindings) :
  forall a b,
    length a = length b ->
    (forall x y, In x a -> In y b ->
                 forall it, un x y b1 b2 it st = if Equal x y then it st else (None, st)) ->
    biunifyArraysRec un a b b1 b2 iter st
    = if Equal (Array a) (Array b) then iter st else (None, st).
Proof.
  induction a as [|x a IH]; intros [|y b] Hlen Hun; try discriminate Hlen.
  - reflexivity.
  - cbn [biunifyArraysRec]. rewrite Equal_Array_cons.
    rewrite (Hun x y (or_introl eq_refl) (or_introl eq_refl)).
    destruct (Equal x y); [|reflexivity]. cbn [andb].
    apply IH; [now injection Hlen|].
    intros x' y' Hx Hy. apply Hun; now right.
Qed.

(** X13. Two terms made of scalars and arrays only, with no save set in
    force, unify exactly when they are equal: the continuation is called
    once, on the state as it is, when they are, and not at all when they
    differ (in kind, in length or in an element), and no error arises.  The
    nesting bound of the recursion is enough as soon as it is the size of
    the first term. *)
Theorem biunify_plain_equal (n : nat) (a b : Term) (b1 b2 : Frame)
  (iter : M (UState Bindings)) (st : UState Bindings) :
  plainTerm a = true -> plainTerm b = true -> vsize a <= n -> saveSet st = None ->
  biunifyN apply bind undoBind PlugF IsGround Contains ContainsRecursive
    savePairsOfVars biunifyRef biunifyComprehensionU n a b b1 b2 iter st
  = if Equal a b then iter st else (None, st).
Proof.
  intros Ha Hb Hn Hs. revert a b b1 b2 iter Ha Hb Hn.
  induction n as [|n IH]; intros a b b1 b2 iter Ha Hb Hn.
  - destruct a; cbn in Hn; lia.
  - cbn [biunifyN]. unfold biunify.
    assert (Hva : isVar a = false) by (destruct a; try discriminate Ha; reflexivity).
    assert (Hvb : isVar b = false) by (destruct b; try discriminate Hb; reflexivity).
    rewrite (@apply_nonvar (frames st) b1 a Hva), (@apply_nonvar (frames st) b2 b Hvb).
    destruct a; try discriminate Ha; destruct b; try discriminate Hb;
      try (apply biunifyValues_scalars; [reflexivity|reflexivity|exact Hs]);
      try reflexivity.
    rewrite plainTerm_Array in Ha, Hb.
    unfold biunifyArrays.
    match goal with
    | |- (if negb ?c then _ else _) _ = _ => destruct c eqn:El; cbn [negb]
    end.
    + apply Nat.eqb_eq in El.
      apply biunifyArraysRec_equal; [exact El|].
      intros x y Hx Hy it.
      apply IH.
      * rewrite forallb_forall in Ha. now apply Ha.
      * rewrite forallb_forall in Hb. now apply Hb.
      * pose proof (@vsize_elem x elems Hx). lia.
    + apply Nat.eqb_neq in El.
      assert (E : Equal (Array elems) (Array elems0) = false).
      { apply Equal_false. intros [= ->]. now apply El. }
      now rewrite E.
Qed.

End UnifyPlain.

(** [[1, ["a"]] = [1, ["a"]]]: the continuation is called. *)
Lemma biunify_plain_equal_witness :
  let a := Array [Number 1; Array [String "a"]] in
  biunifyN (fun (_ : unit) (f : Frame) (t : Term) => (t, f)) (fun _ _ _ _ bs => bs)
    (fun _ _ bs => bs) (fun _ _ t => t) (fun _ => true)
    (fun _ _ _ _ => false) (fun _ _ _ _ => false) (fun _ _ _ => [])
    (fun _ _ _ _ it => it) (fun _ _ _ _ _ it => it) 5 a a 0 0
    (fun s => (Some CancelErr, s)) (mkUState tt None [])
  = (Some CancelErr, mkUState tt None []).
Proof.
  intros a.
  refine (@biunify_plain_equal unit (fun _ f t => (t, f)) (fun _ _ _ _ bs => bs)
            (fun _ _ bs => bs) (fun _ _ t => t) (fun _ => true)
            (fun _ _ _ _ => false) (fun _ _ _ _ => false) (fun _ _ _ => [])
            (fun _ _ _ _ it => it) (fun _ _ _ _ _ it => it)
            (fun _ _ _ _ => eq_refl) 5 a a 0 0 (fun s => (Some CancelErr, s))
            (mkUState tt None []) eq_refl eq_refl _ eq_refl).
  cbn. repeat constructor.
Defined.

(** ** Array and set comprehensions *)

Lemma enumerate_fold {S B} (l : list B) (r : Result) (k : B -> M S) (f : B -> S -> S) :
  (forall b st, k b st = (None, f b st)) ->
  forall st, enumerate l r k st = (r, fold_left (fun s b => f b s) l st).
Proof.
  intros Hk. induction l as [|b l IH]; intros st; [reflexivity|].
  cbn [enumerate fold_left]. unfold andThen. rewrite Hk. apply IH.
Qed.

Lemma elemGet_elemPut_eq (node : CacheElem) (values : list Term) (t : Term) :
  elemGet (elemPut node values t) values = Some t.
Proof.
  induction node as [|[vs t'] node IH]; cbn.
  - destruct (list_eq_dec Value_eq_dec values values); [reflexivity|contradiction].
  - destruct (list_eq_dec Value_eq_dec vs values) as [->|Hne]; cbn.
    + destruct (list_eq_dec Value_eq_dec values values); [reflexivity|contradiction].
    + destruct (list_eq_dec Value_eq_dec vs values); [contradiction|exact IH].
Qed.

Lemma elemGet_elemPut_ne (node : CacheElem) (values other : list Term) (t : Term) :
  values <> other -> elemGet (elemPut node values t) other = elemGet node other.
Proof.
  intros Hne. induction node as [|[vs t'] node IH]; cbn.
  - destruct (list_eq_dec Value_eq_dec values other); [contradiction|reflexivity].
  - destruct (list_eq_dec Value_eq_dec vs values) as [->|Hne']; cbn.
    + destruct (list_eq_dec Value_eq_dec values other); [contradiction|reflexivity].
    + destruct (list_eq_dec Value_eq_dec vs other); [reflexivity|exact IH].
Qed.

Lemma solutionsAt_snoc {B} (PlugIn : B -> Term -> Term) (keys values : list Term)
  (done : list B) (b : B) :
  solutionsAt PlugIn keys values (done ++ [b])
  = solutionsAt PlugIn keys values done
    ++ (if list_eq_dec Value_eq_dec (map (PlugIn b) keys) values then [b] else []).
Proof.
  unfold solutionsAt. rewrite filter_app. cbn.
  now destruct (list_eq_dec Value_eq_dec (map (PlugIn b) keys) values).
Qed.

Section ArraySetComprehensionFacts.

Variable B : Type.
Variable PlugIn : B -> Term -> Term.
Variable biunifyResult : Term -> M St -> M St.
Variable s : Search B.
Variable head : Term.
Variable keys : list Term.

Let heads (l : list B) : list Term := map (fun b => PlugIn b head) l.

Lemma collect_array (st : St) :
  queryStream s (closure (fst st))
    (fun (b : B) (rs : list Term * St) =>
       let (result, s0) := rs in (None, (result ++ [PlugIn b head], s0))) ([], st)
  = (fin s, (heads (sols s), st)).
Proof.
  unfold queryStream, evalQuery.
  rewrite (@enumerate_fold _ _ _ _ _
             (fun b (rs : list Term * St) => (fst rs ++ [PlugIn b head], snd rs))).
  - f_equal. cbv beta.
    assert (E : forall l acc,
               fold_left (fun (rs : list Term * St) b => (fst rs ++ [PlugIn b head], snd rs))
                 l (acc, st) = (acc ++ heads l, st)).
    { induction l as [|b l IH]; intros acc; cbn; [now rewrite app_nil_r|].
      rewrite IH, <- app_assoc. reflexivity. }
    rewrite (E (sols s) []). reflexivity.
  - intros b [result s0]. reflexivity.
Qed.

Lemma collect_node (step : B -> CacheElem -> CacheElem) (c : eval) (st : St) :
  findOne c = false ->
  queryStream s c
    (fun (b : B) (ns : CacheElem * St) => let (node, s0) := ns in (None, (step b node, s0)))
    ([], st)
  = (fin s, (fold_left (fun node b => step b node) (sols s) [], st)).
Proof.
  intros Hc. unfold queryStream, evalQuery.
  rewrite (@enumerate_fold _ _ _ _ _
             (fun b (ns : CacheElem * St) => (step b (fst ns), snd ns))).
  - f_equal. cbv beta. generalize (@nil (list Term * Term)) as acc.
    induction (sols s) as [|b l IH]; intros acc; [reflexivity|]. cbn. apply IH.
  - intros b [node s0]. unfold evalExprEnd. rewrite Hc. reflexivity.
Qed.

(** What the node of an array comprehension holds once the solutions [done]
    have been seen. *)
Let arrayNode (node : CacheElem) (done : list B) : Prop :=
  forall values,
    elemGet node values
    = match solutionsAt PlugIn keys values done with
      | [] => None
      | l => Some (Array (heads l))
      end.

Lemma cacheArrayStep_node (node : CacheElem) (done : list B) (b : B) :
  arrayNode node done -> arrayNode (cacheArrayStep PlugIn head keys b node) (done ++ [b]).
Proof.
  intros Hinv values. rewrite solutionsAt_snoc. unfold cacheArrayStep.
  rewrite (Hinv (map (PlugIn b) keys)).
  destruct (list_eq_dec Value_eq_dec (map (PlugIn b) keys) values) as [<-|Hne].
  - destruct (solutionsAt PlugIn keys (map (PlugIn b) keys) done) as [|b0 l] eqn:Ed.
    + rewrite elemGet_elemPut_eq. reflexivity.
    + rewrite elemGet_elemPut_eq. cbn [app]. unfold heads. cbn [map].
      rewrite map_app. reflexivity.
  - rewrite app_nil_r.
    destruct (solutionsAt PlugIn keys (map (PlugIn b) keys) done) as [|b0 l];
      rewrite elemGet_elemPut_ne by exact Hne; apply Hinv.
Qed.

Lemma cacheArray_fold (l : list B) :
  forall node done,
    arrayNode node done ->
    arrayNode (fold_left (fun node b => cacheArrayStep PlugIn head keys b node) l node)
      (done ++ l).
Proof.
  induction l as [|b l IH]; intros node done Hinv; cbn [fold_left].
  - now rewrite app_nil_r.
  - replace (done ++ b :: l) with ((done ++ [b]) ++ l) by now rewrite <- app_assoc.
    apply IH. now apply cacheArrayStep_node.
Qed.

(** X14. An array comprehension whose body ends without an error is
    materialised as the array of the plugged head terms at the solutions of
    the body, in the order of the solutions, and unified once; an error of
    the body is returned and nothing is unified.  The cache builder files
    the same terms under the plugged values of the index keys: the entry for
    given values is the array of the head terms at the solutions that have
    these values, in order, and there is no entry for values no solution
    has. *)
Theorem array_comprehension_materialised (iter : M St) (st : St) :
  biunifyComprehensionArray PlugIn (queryStream s) biunifyResult head iter st
  = match fin s with
    | Some err => (Some err, st)
    | None => biunifyResult (Array (map (fun b => PlugIn b head) (sols s))) iter st
    end
  /\ snd (fst (buildComprehensionCacheArray PlugIn (queryStream s) head keys st)) = fin s
  /\ snd (buildComprehensionCacheArray PlugIn (queryStream s) head keys st) = st
  /\ forall values,
       elemGet (fst (fst (buildComprehensionCacheArray PlugIn (queryStream s) head keys st)))
         values
       = match solutionsAt PlugIn keys values (sols s) with
         | [] => None
         | l => Some (Array (map (fun b => PlugIn b head) l))
         end.
Proof.
  split.
  - unfold biunifyComprehensionArray. rewrite collect_array. now destruct (fin s).
  - unfold buildComprehensionCacheArray.
    rewrite (@collect_node (cacheArrayStep PlugIn head keys) (child (fst st)) st eq_refl).
    cbn [fst snd]. split; [reflexivity|]. split; [reflexivity|].
    apply (@cacheArray_fold (sols s) [] []). intros values. reflexivity.
Qed.

Lemma setAdd_spec (elems : list Term) (x : Term) :
  (NoDup elems -> NoDup (setAdd elems x))
  /\ (forall y, In y (setAdd elems x) <-> In y elems \/ y = x).
Proof.
  unfold setAdd. destruct (existsb (Equal x) elems) eqn:E.
  - apply existsb_exists in E. destruct E as (z & Hz & Hxz).
    apply Equal_true in Hxz. subst z.
    split; [auto|]. intros y. split; [auto|]. intros [H| ->]; assumption.
  - split.
    + intros Hnd. apply NoDup_app; [exact Hnd|repeat constructor; intros []|].
      intros y Hy [->|[]].
      apply not_true_iff_false in E. apply E. apply existsb_exists.
      exists y. split; [exact Hy|apply Equal_refl].
    + intros y. rewrite in_app_iff. cbn. intuition.
Qed.

Lemma setAdd_fold (l : list Term) :
  forall acc,
    (NoDup acc -> NoDup (fold_left setAdd l acc))
    /\ (forall y, In y (fold_left setAdd l acc) <-> In y acc \/ In y l).
Proof.
  induction l as [|x l IH]; intros acc; cbn [fold_left].
  - split; [auto|]. intros y. cbn. tauto.
  - destruct (IH (setAdd acc x)) as [Hn Hi]. destruct (setAdd_spec acc x) as [Hn' Hi'].
    split; [auto|]. intros y. rewrite Hi, Hi'. cbn. intuition.
Qed.

Lemma collect_set (st : St) :
  queryStream s (closure (fst st))
    (fun (b : B) (rs : list Term * St) =>
       let (result, s0) := rs in (None, (setAdd result (PlugIn b head), s0))) ([], st)
  = (fin s, (setOf (heads (sols s)), st)).
Proof.
  unfold queryStream, evalQuery.
  rewrite (@enumerate_fold _ _ _ _ _
             (fun b (rs : list Term * St) => (setAdd (fst rs) (PlugIn b head), snd rs))).
  - f_equal. cbv beta. unfold setOf. generalize (@nil Term) as acc.
    induction (sols s) as [|b l IH]; intros acc; [reflexivity|]. cbn. apply IH.
  - intros b [result s0]. reflexivity.
Qed.

Let setNode (node : CacheElem) (done : list B) : Prop :=
  forall values,
    elemGet node values
    = match solutionsAt PlugIn keys values done with
      | [] => None
      | l => Some (SetV (setOf (heads l)))
      end.

Lemma cacheSetStep_node (node : CacheElem) (done : list B) (b : B) :
  setNode node done -> setNode (cacheSetStep PlugIn head keys b node) (done ++ [b]).
Proof.
  intros Hinv values. rewrite solutionsAt_snoc. unfold cacheSetStep.
  rewrite (Hinv (map (PlugIn b) keys)).
  destruct (list_eq_dec Value_eq_dec (map (PlugIn b) keys) values) as [<-|Hne].
  - destruct (solutionsAt PlugIn keys (map (PlugIn b) keys) done) as [|b0 l] eqn:Ed.
    + rewrite elemGet_elemPut_eq. reflexivity.
    + rewrite elemGet_elemPut_eq. cbn [app]. unfold heads, setOf.
      change (b0 :: l ++ [b]) with ((b0 :: l) ++ [b]).
      rewrite map_app, fold_left_app. reflexivity.
  - rewrite app_nil_r.
    destruct (solutionsAt PlugIn keys (map (PlugIn b) keys) done) as [|b0 l];
      rewrite elemGet_elemPut_ne by exact Hne; apply Hinv.
Qed.

Lemma cacheSet_fold (l : list B) :
  forall node done,
    setNode node done ->
    setNode (fold_left (fun node b => cacheSetStep PlugIn head keys b node) l node)
      (done ++ l).
Proof.
  induction l as [|b l IH]; intros node done Hinv; cbn [fold_left].
  - now rewrite app_nil_r.
  - replace (done ++ b :: l) with ((done ++ [b]) ++ l) by now rewrite <- app_assoc.
    apply IH. now apply cacheSetStep_node.
Qed.

(** X15. A set comprehension whose body ends without an error is
    materialised as a set that holds each plugged head term of a solution,
    once however many solutions give it, and nothing else, and is unified
    once; an error of the body is returned and nothing is unified.  The
    cache builder files, under the plugged values of the index keys, the set
    of the head terms at the solutions that have these values. *)
Theorem set_comprehension_materialised (iter : M St) (st : St) :
  biunifyComprehensionSet PlugIn (queryStream s) biunifyResult head iter st
  = match fin s with
    | Some err => (Some err, st)
    | None =>
        biunifyResult (SetV (setOf (map (fun b => PlugIn b head) (sols s)))) iter st
    end
  /\ NoDup (setOf (map (fun b => PlugIn b head) (sols s)))
  /\ (forall x, In x (setOf (map (fun b => PlugIn b head) (sols s)))
                <-> exists b, In b (sols s) /\ PlugIn b head = x)
  /\ forall values,
       elemGet (fst (fst (buildComprehensionCacheSet PlugIn (queryStream s) head keys st)))
         values
       = match solutionsAt PlugIn keys values (sols s) with
         | [] => None
         | l => Some (SetV (setOf (map (fun b => PlugIn b head) l)))
         end.
Proof.
  destruct (setAdd_fold (map (fun b => PlugIn b head) (sols s)) []) as [Hn Hi].
  split; [|split; [|split]].
  - unfold biunifyComprehensionSet. rewrite collect_set. now destruct (fin s).
  - apply Hn. constructor.
  - intros x. unfold setOf. rewrite Hi, in_map_iff. cbn.
    split.
    + intros [[]|(b & Hb & Hin)]. now exists b.
    + intros (b & Hin & Hb). right. now exists b.
  - unfold buildComprehensionCacheSet.
    rewrite (@collect_node (cacheSetStep PlugIn head keys) (child (fst st)) st eq_refl).
    cbn [fst snd].
    apply (@cacheSet_fold (sols s) [] []). intros values. reflexivity.
Qed.

End ArraySetComprehensionFacts.

(** ** The comprehension cache: the node is built once *)

Lemma ccElem_ccSet (a : Term) (el : CacheElem) (cc : list CCScope) :
  ccElem (ccSet a el cc) a = Some el.
Proof. destruct cc as [|sc rest]; cbn; now rewrite Equal_refl. Qed.

(** X16. A comprehension with an index is met for the first time in the
    current scope of the comprehension cache, and its node is built without
    an error.  Then the node is in the cache, and the next look at the same
    comprehension in the state this leaves evaluates no body: whatever the
    body and the builders would do, it returns what the node holds for the
    plugged values of the index keys, and leaves the state as it is. *)
Theorem buildComprehensionCache_reuse {B : Type} (PlugIn : B -> Term -> Term)
  (bodyEval : eval -> forall T : Type, (B -> M T) -> M T) (Plug : Term -> Term)
  (comprehensionIndex : Term -> option (list Term))
  (other : Term -> list Term -> St -> CacheElem * Result * St)
  (a : Term) (keys : list Term) (st : St) :
  comprehensionIndex a = Some keys ->
  ccElem (comprehensionCache (snd st)) a = None ->
  snd (fst (buildComprehensionCache PlugIn bodyEval Plug comprehensionIndex other a st))
  = None ->
  let r := buildComprehensionCache PlugIn bodyEval Plug comprehensionIndex other a st in
  (exists node, ccElem (comprehensionCache (snd (snd r))) a = Some node
                /\ fst (fst r) = elemGet node (map Plug keys))
  /\ forall (B' : Type) (PlugIn' : B' -> Term -> Term)
            (bodyEval' : eval -> forall T : Type, (B' -> M T) -> M T)
            (other' : Term -> list Term -> St -> CacheElem * Result * St),
       buildComprehensionCache PlugIn' bodyEval' Plug comprehensionIndex other' a (snd r)
       = (fst r, snd r).
Proof.
  intros Hidx Hmiss. unfold buildComprehensionCache. rewrite Hidx, Hmiss.
  match goal with
  | |- context [let '(_, _) := (let '(_, _) := ?X in _) in _] =>
      destruct X as [[cache [err|]] s1]
  end; cbn [fst snd]; [discriminate|]. intros _.
  split.
  - exists cache. split; [|reflexivity].
    destruct s1 as [e h]. cbn. apply ccElem_ccSet.
  - intros B' PlugIn' bodyEval' other'.
    destruct s1 as [e h]. cbn [onHeap fst snd].
    assert (E : ccElem (comprehensionCache (set_comprehensionCache (ccSet a cache) h)) a
                = Some cache) by (cbn; apply ccElem_ccSet).
    rewrite E. reflexivity.
Qed.

(** [[x | x = data.xs[_]; x > i]] with the index key [i], built for [i = 1]. *)
Lemma buildComprehensionCache_reuse_witness :
  let a := ArrayComprehension (Var "x") 0 in
  let st := (mkEval false false false 0 None None, mkHeap [] [] [] [] [] [] 0 0 []) in
  let build := buildComprehensionCacheArray (fun (b : Term * Term) t =>
                   match t with Var "x" => fst b | _ => snd b end)
                 (queryStream (mkSearch [(Number 2, Number 1); (Number 3, Number 1)] None))
                 (Var "x") in
  fst (fst (buildComprehensionCache
              (fun (b : Term * Term) t => match t with Var "x" => fst b | _ => snd b end)
              (queryStream (mkSearch [(Number 2, Number 1); (Number 3, Number 1)] None))
              (fun _ => Number 1) (fun _ => Some [Var "i"]) (fun _ keys => build keys)
              a st))
  = Some (Array [Number 2; Number 3]).
Proof.
  intros a st build.
  destruct (@buildComprehensionCache_reuse (Term * Term)
              (fun b t => match t with Var "x" => fst b | _ => snd b end)
              (queryStream (mkSearch [(Number 2, Number 1); (Number 3, Number 1)] None))
              (fun _ => Number 1) (fun _ => Some [Var "i"]) (fun _ keys => build keys)
              a [Var "i"] st eq_refl eq_refl eq_refl) as [(node & Hn & Hv) _].
  rewrite Hv. cbn in Hn. injection Hn as <-. reflexivity.
Defined.

(** ** with: the caches inside and outside *)

Lemma vcPut_tl (puts : list (Reference * option Term)) (sc : VCScope) (rest : VirtualCache) :
  exists sc', fold_right (fun p c => vcPut (fst p) (snd p) c) (sc :: rest) puts = sc' :: rest.
Proof.
  induction puts as [|p puts [sc' IH]]; cbn [fold_right]; [now exists sc|].
  rewrite IH. cbn. eauto.
Qed.

Lemma ccSet_tl (sets : list (Term * CacheElem)) (sc : CCScope) (rest : list CCScope) :
  exists sc', fold_right (fun p c => ccSet (fst p) (snd p) c) (sc :: rest) sets = sc' :: rest.
Proof.
  induction sets as [|p sets [sc' IH]]; cbn [fold_right]; [now exists sc|].
  rewrite IH. cbn. eauto.
Qed.

(** X17. What the virtual cache and the comprehension cache hold when an
    expression with [with] modifiers is entered is out of sight while the
    expression is evaluated: after [evalWithPush] every key of the virtual
    cache is a miss and no comprehension has a node.  And whatever is put into
    the two caches in between, after [evalWithPop] they are what they were
    before [evalWithPush]. *)
Theorem evalWith_caches_isolated (input' data' old old' : option Term)
  (mocks : list (Term * Term)) (targets dis : list Reference) (st : St) :
  let st1 := snd (evalWithPush input' data' mocks targets dis st) in
  (forall k, vcGet (virtualCache (snd st1)) k = (None, false))
  /\ (forall a, ccElem (comprehensionCache (snd st1)) a = None)
  /\ forall (puts : list (Reference * option Term)) (sets : list (Term * CacheElem)),
       let st2 :=
         onHeap (set_comprehensionCache
                   (fun c => fold_right (fun p c => ccSet (fst p) (snd p) c) c sets))
           (onHeap (set_virtualCache
                      (fun c => fold_right (fun p c => vcPut (fst p) (snd p) c) c puts))
              st1) in
       virtualCache (snd (evalWithPop old old' st2)) = virtualCache (snd st)
       /\ comprehensionCache (snd (evalWithPop old old' st2)) = comprehensionCache (snd st).
Proof.
  destruct st as [e h]. unfold evalWithPush.
  assert (Hv : forall puts rest,
             tl (fold_right (fun (p : Reference * option Term) c => vcPut (fst p) (snd p) c)
                   ([] :: rest) puts) = rest).
  { intros puts rest. destruct (vcPut_tl puts [] rest) as [sc1 E].
    exact (f_equal (@tl _) E). }
  assert (Hc : forall sets rest,
             tl (fold_right (fun (p : Term * CacheElem) c => ccSet (fst p) (snd p) c)
                   ([] :: rest) sets) = rest).
  { intros sets rest. destruct (ccSet_tl sets [] rest) as [sc2 E].
    exact (f_equal (@tl _) E). }
  destruct input', data'; cbn -[fold_right]; (split; [reflexivity|]; split; [reflexivity|]);
    intros puts sets; (split; [apply Hv|apply Hc]).
Qed.

(** ** Function calls: the second call is a cache hit *)

Lemma vcGet_vcPut (k : Reference) (v : Term) (c : VirtualCache) :
  vcGet (vcPut k (Some v) c) k = (Some v, false).
Proof.
  destruct c as [|sc rest]; cbn;
    destruct (list_eq_dec Value_eq_dec k k); try contradiction; reflexivity.
Qed.

Section FunctionCoherence.

Variable B : Type.
Variable PlugIn : B -> Term -> Term.
Variable Plug : Term -> Term.
Variable IsGround : Term -> bool.
Variable unify : Term -> Term -> M St -> M St.
Variable saveContains : B -> Term -> bool.
Variable saveExpr : B -> Term -> M St -> M St.
Variable body : Rule -> Search B.
Variable terms : list Term.
Variable iter : M St.
Variable fOne : bool.
Variable argCount : nat.
Variable ir : IndexResult.

(** No rule ends in an error of its own; outside partial evaluation the save
    set is nil; the continuation does not fail and stays outside partial
    evaluation; the rules of the function have the same number of
    arguments. *)
Hypothesis body_fin : forall r, fin (body r) = None.
Hypothesis save_nil : forall b t, saveContains b t = false.
Hypothesis iter_ok :
  forall s, partial (fst s) = false ->
            fst (iter s) = None /\ partial (fst (snd (iter s))) = false.
Hypothesis arity :
  forall r, In r (indexedRules ir) -> length (HeadArgs r) = argCount.

Let key := funcCacheKey IsGround Plug terms argCount.
Let cached (v : Term) (s : St) : Prop :=
  partial (fst s) = false /\ fst (vcGet (virtualCache (snd s)) key) = Some v.

Lemma cached_put (v : Term) (s : St) :
  partial (fst s) = false -> cached v (cachePut key v s).
Proof.
  intros Hp. split; [exact Hp|]. destruct s as [e h]. destruct h. cbn.
  now rewrite vcGet_vcPut.
Qed.

Lemma cached_iter_put (v : Term) (n : nat) (s : St) :
  cached v s -> cached v (Nat.iter n (cachePut key v) s).
Proof.
  intros H. induction n as [|n IH]; [exact H|]. cbn [Nat.iter].
  apply cached_put. apply IH.
Qed.

(** X18. A function is called outside partial evaluation, the call is not
    in the virtual cache, and the values of its rules are all the same value
    (there is one at least).  When the continuation leaves the entry of the
    call in the cache, the entry holds that value after the call, and a
    second call with the same operands in the state the first one leaves is
    a cache hit: no rule is evaluated, whatever the rules are, one hit is
    counted, and the cached value is handled as the value of the call (the
    continuation runs unless the output is left out and the value is false;
    a captured output is unified with it). *)
Theorem evalFunc_second_call_hits (st : St) (v : Term) (rest : list Term) :
  partial (fst st) = false ->
  fst (vcGet (virtualCache (snd st)) key) = None ->
  allVals (ruleVals PlugIn body) ir = v :: rest ->
  allSame (v :: rest) = true ->
  (forall s, fst (vcGet (virtualCache (snd s)) key) = Some v ->
             fst (vcGet (virtualCache (snd (snd (iter s)))) key) = Some v) ->
  let st' := snd (evalFuncValue PlugIn Plug IsGround unify saveContains saveExpr
                    (ruleStream body) terms ir iter argCount fOne st) in
  fst (vcGet (virtualCache (snd st')) key) = Some v
  /\ forall (evalRule' : Rule -> eval -> forall T : Type, (B -> M T) -> M T)
            (ir' : IndexResult) (iter' : M St) (fOne' : bool),
       evalFuncValue PlugIn Plug IsGround unify saveContains saveExpr evalRule' terms ir'
         iter' argCount fOne' st'
       = if noOutput terms argCount
         then if isFalse v then (None, onHeap incr_virtualCacheHit st')
              else iter' (onHeap incr_virtualCacheHit st')
         else unify (last terms Null) v iter' (onHeap incr_virtualCacheHit st').
Proof.
  intros HG Hmiss Hv Hsame Hkeep st'.
  assert (Hst : cached v st').
  { unfold st'.
    rewrite (@evalFuncValue_miss B PlugIn Plug IsGround unify saveContains saveExpr body
               terms iter fOne argCount ir st HG Hmiss).
    unfold withSuppressEarlyExit.
    pose proof (@loopRules_same B PlugIn Plug IsGround saveContains saveExpr body terms
                  iter fOne argCount body_fin save_nil iter_ok ir v (Rules ir) None
                  (onHeap incr_virtualCacheMiss st) HG (or_introl eq_refl)) as H.
    cbv beta in H. rewrite H; clear H.
    - fold (allVals (ruleVals PlugIn body) ir). rewrite Hv.
      assert (Hfirst : cached v
                (if noOutput terms argCount && isFalse v
                 then cachePut key v (onHeap incr_virtualCacheMiss st)
                 else snd (iter (cachePut key v (onHeap incr_virtualCacheMiss st))))).
      { pose proof (@cached_put v (onHeap incr_virtualCacheMiss st) HG) as Hc.
        destruct (noOutput terms argCount && isFalse v); [exact Hc|].
        destruct Hc as [Hp Hg]. split; [now apply iter_ok|now apply Hkeep]. }
      destruct fOne; cbn [snd]; [exact Hfirst|].
      now apply cached_iter_put.
    - intros r r' Hr Hr'. apply arity. unfold indexedRules.
      apply in_flat_map. exists r. auto.
    - fold (allVals (ruleVals PlugIn body) ir). rewrite Hv. intros w [<-|Hw]; [reflexivity|].
      apply allSame_iff in Hsame. apply Hsame; [now right|now left]. }
  destruct Hst as [Hp Hg]. split; [exact Hg|].
  intros evalRule' ir' iter' fOne'.
  unfold evalFuncValue, evalCache. rewrite Hp. cbn [negb].
  fold (funcCacheKey IsGround Plug terms argCount). fold key. rewrite Hg.
  destruct (noOutput terms argCount).
  - destruct (isFalse v); [reflexivity|].
    destruct (iter' (onHeap incr_virtualCacheHit st')) as [[x|] s2]; reflexivity.
  - destruct (unify (last terms Null) v iter' (onHeap incr_virtualCacheHit st'))
      as [[x|] s2]; reflexivity.
Qed.

End FunctionCoherence.

(** The call [f(7, x)] with two rules that both give 1: afterwards the
    cache holds 1 for the call. *)
Lemma evalFunc_second_call_hits_witness :
  let body := fun _ : Rule => mkSearch [Number 1] None in
  let r1 := mkRule 1 [Var "a"] (Number 1) 0 in
  let r2 := mkRule 2 [Var "a"] (Number 1) 1 in
  let ir := mkIndexResult [r1; r2] (fun _ => []) None false in
  let terms := [Ref [Var "data"; String "f"]; Number 7; Var "x"] in
  let count : M St := fun s => (None, onHeap incr_virtualCacheHit s) in
  let st := (mkEval false false false 0 None None, mkHeap [] [] [] [] [] [] 0 0 []) in
  fst (vcGet
         (virtualCache
            (snd (snd (evalFuncValue (fun (b : Term) _ => b) (fun t => t) (fun _ => true)
                         (fun _ _ it => it) (fun _ _ => false) (fun _ _ it => it)
                         (ruleStream body) terms ir count 1 false st))))
         [Ref [Var "data"; String "f"]; Number 7])
  = Some (Number 1).
Proof.
  intros body r1 r2 ir terms count st.
  refine (proj1 (@evalFunc_second_call_hits Term (fun b _ => b) (fun t => t) (fun _ => true)
                   (fun _ _ it => it) (fun _ _ => false) (fun _ _ it => it) body terms
                   count false 1 ir (fun _ => eq_refl) (fun _ _ => eq_refl)
                   (fun s H => conj eq_refl H) _ st (Number 1) [Number 1]
                   eq_refl eq_refl eq_refl eq_refl (fun s H => H))).
  intros r [<-|[<-|[]]]; reflexivity.
Defined.

(** ** Complete documents: an undefined document is cached *)

Lemma vcGet_vcPut_undefined (k : Reference) (c : VirtualCache) :
  vcGet (vcPut k None c) k = (None, true).
Proof.
  destruct c as [|sc rest]; cbn;
    destruct (list_eq_dec Value_eq_dec k k); try contradiction; reflexivity.
Qed.

Section CompleteUndefined.

Variable B : Type.
Variable PlugIn : B -> Term -> Term.
Variable applyIn : B -> Term -> Term * B.
Variable evalTerm : Term -> option B -> M St -> M St.
Variable body : Rule -> Search B.
Variable key : Reference.
Variable ir : IndexResult.

(** The rule bodies have no solution and end without an error; there is no
    default rule. *)
Hypothesis no_solution :
  forall r, In r (indexedRules ir) -> sols (body r) = [] /\ fin (body r) = None.
Hypothesis no_default : Default ir = None.

Lemma evalValueRule_undefined (iter : M St) (r : Rule) (prev : option Term) (fOne : bool)
  (st : St) :
  sols (body r) = [] -> fin (body r) = None ->
  evalValueRule PlugIn applyIn evalTerm (ruleStream body) key iter r prev fOne st
  = ((None, None), st).
Proof.
  intros Hs Hf. unfold evalValueRule, ruleStream, evalQuery. now rewrite Hs, Hf.
Qed.

Lemma evalValueElse_undefined (iter : M St) (fOne : bool) :
  forall erules prev dee st,
    (forall r, In r erules -> sols (body r) = [] /\ fin (body r) = None) ->
    evalValueElse PlugIn applyIn evalTerm (ruleStream body) key iter erules prev fOne dee st
    = (inr (None, dee), st).
Proof.
  induction erules as [|r rest IH]; intros prev dee st H; [reflexivity|].
  cbn [evalValueElse].
  destruct (H r (or_introl eq_refl)) as [Hs Hf].
  rewrite (evalValueRule_undefined iter r prev fOne st Hs Hf).
  apply IH. intros r' Hr'. apply H. now right.
Qed.

Lemma evalValueRules_undefined (iter : M St) (fOne : bool) :
  forall rules st,
    (forall r r', In r rules -> In r' (r :: Else ir r) ->
                  sols (body r') = [] /\ fin (body r') = None) ->
    evalValueRules PlugIn applyIn evalTerm (ruleStream body) ir key iter rules None fOne
      None st
    = (None, onHeap (set_virtualCache (vcPut key None)) st).
Proof.
  induction rules as [|r rest IH]; intros st H.
  - cbn [evalValueRules]. now rewrite no_default.
  - cbn [evalValueRules].
    rewrite evalValueElse_undefined by (intros r' Hr'; apply (H r r'); [now left|exact Hr']).
    apply IH. intros r0 r' H0 H1. apply (H r0 r'); [now right|exact H1].
Qed.

(** X19. A complete document none of whose rules has a solution (and that
    has no default rule) is evaluated at a reference that is not in the
    virtual cache: the continuation is not called, no error is returned, one
    miss is counted and the negative entry is put into the cache.  A second
    evaluation in the state this leaves is a hit on the negative entry: no
    rule is evaluated, whatever the rules are, the continuation is not
    called, and one hit is counted. *)
Theorem evalValue_undefined_cached (iter : M St) (fOne : bool) (st : St) :
  vcGet (virtualCache (snd st)) key = (None, false) ->
  let st' := onHeap (set_virtualCache (vcPut key None)) (onHeap incr_virtualCacheMiss st) in
  evalValue PlugIn applyIn evalTerm (ruleStream body) ir key iter fOne st = (None, st')
  /\ forall (evalBody' : Rule -> eval -> forall T : Type, (B -> M T) -> M T)
            (ir' : IndexResult) (iter' : M St) (fOne' : bool),
       evalValue PlugIn applyIn evalTerm evalBody' ir' key iter' fOne' st'
       = (None, onHeap incr_virtualCacheHit st').
Proof.
  intros Hmiss st'. split.
  - unfold evalValue. rewrite Hmiss. unfold withSuppressEarlyExit.
    rewrite evalValueRules_undefined; [reflexivity|].
    intros r r' Hr Hr'. apply no_solution. unfold indexedRules.
    apply in_flat_map. exists r. auto.
  - intros evalBody' ir' iter' fOne'. unfold evalValue.
    assert (E : vcGet (virtualCache (snd st')) key = (None, true)).
    { unfold st'. destruct st as [e h]. destruct h. cbn. apply vcGet_vcPut_undefined. }
    now rewrite E.
Qed.

End CompleteUndefined.

(** [data.t.p] with the one rule [p := 1 if input.a] and no input. *)
Lemma evalValue_undefined_cached_witness :
  let body := fun _ : Rule => mkSearch (@nil Term) None in
  let ir := mkIndexResult [mkRule 1 [] (Number 1) 0] (fun _ => []) None false in
  let st := (mkEval false false false 0 None None, mkHeap [] [] [] [] [] [] 0 0 []) in
  evalValue (fun (b : Term) _ => b) (fun b t => (t, b)) (fun _ _ it => it)
    (ruleStream body) ir [Var "data"; String "t"; String "p"]
    (fun s => (Some CancelErr, s)) false st
  = (None,
     (mkEval false false false 0 None None,
      mkHeap [[([Var "data"; String "t"; String "p"], None)]] [] [] [] [] [] 0 1 [])).
Proof.
  intros body ir st.
  exact (proj1 (@evalValue_undefined_cached Term (fun b _ => b) (fun b t => (t, b))
                  (fun _ _ it => it) body [Var "data"; String "t"; String "p"] ir
                  (fun _ _ => conj eq_refl eq_refl) eq_refl
                  (fun s => (Some CancelErr, s)) false st eq_refl)).
Defined.

(** ** Complete documents: the value is cached *)

Lemma vcGet_some (c : VirtualCache) (k : Reference) (v : Term) :
  fst (vcGet c k) = Some v -> vcGet c k = (Some v, false).
Proof.
  unfold vcGet. destruct c as [|sc rest]; [discriminate|].
  destruct (scopeGet sc k) as [[t|]|]; try discriminate. now intros [= ->].
Qed.

Section CompleteCoherence.

Variable B : Type.
Variable PlugIn : B -> Term -> Term.
Variable applyIn : B -> Term -> Term * B.
Variable evalTerm : Term -> option B -> M St -> M St.
Variable body : Rule -> Search B.
Variable key : Reference.
Variable iter : M St.
Variable fOne : bool.
Variable ir : IndexResult.

(** No rule body ends in an error, and the continuation does not fail. *)
Hypothesis body_fin : forall r, fin (body r) = None.
Hypothesis iter_ok : forall t tb s, fst (evalTerm t tb iter s) = None.

Variable v0 : Term.

Let vals := ruleVals PlugIn body.

(** The state after the first value: the value is cached and the
    continuation has run. *)
Let firstStep (r : Rule) (b : B) (st : St) : St :=
  snd (evalTerm (fst (applyIn b (HeadValue r))) (Some (snd (applyIn b (HeadValue r)))) iter
         (onHeap (set_virtualCache (vcPut key (Some (PlugIn b (HeadValue r))))) st)).

Let exitOf (c : eval) : Result :=
  if findOne c && negb (partial c) then Some (earlyExitError None) else None.

Lemma coherent_enumerate_some (rule : Rule) (c : eval) :
  forall (l : list B) res st,
    (forall b, In b l -> PlugIn b (HeadValue rule) = v0) ->
    enumerate l None
      (fun b => evalExprEnd c (evalValueRuleCallback PlugIn applyIn evalTerm key iter rule b))
      ((res, Some v0), st)
    = match l with
      | [] => (None, ((res, Some v0), st))
      | _ :: _ => (exitOf c, ((Some v0, Some v0), st))
      end.
Proof.
  induction l as [|b l IH]; intros res st Hall; [reflexivity|].
  cbn [enumerate]. unfold andThen.
  rewrite (@complete_step B PlugIn applyIn evalTerm key iter iter_ok rule c b res
             (Some v0) st).
  rewrite (Hall b (or_introl eq_refl)), Equal_refl. unfold exitOf.
  destruct (findOne c && negb (partial c)) eqn:Ee; [reflexivity|].
  rewrite IH by (intros b' Hb'; apply Hall; now right).
  destruct l; [reflexivity|]. unfold exitOf. now rewrite Ee.
Qed.

Lemma coherent_rule (r : Rule) (prev : option Term) (st : St) :
  prev = None \/ prev = Some v0 ->
  (forall v, In v (vals r) -> v = v0) ->
  evalValueRule PlugIn applyIn evalTerm (ruleStream body) key iter r prev fOne st
  = match sols (body r) with
    | [] => ((None, None), st)
    | b :: _ =>
        ((Some v0, exitOf (set_findOne fOne (child (fst st)))),
         match prev with None => firstStep r b st | Some _ => st end)
    end.
Proof.
  intros Hprev Hall. unfold evalValueRule, ruleStream, evalQuery. rewrite body_fin.
  assert (Hall' : forall b, In b (sols (body r)) -> PlugIn b (HeadValue r) = v0).
  { intros b Hb. apply Hall. unfold vals, ruleVals.
    apply in_map with (f := fun b0 => PlugIn b0 (HeadValue r)). exact Hb. }
  destruct Hprev as [-> | ->].
  - destruct (sols (body r)) as [|b l]; [reflexivity|].
    cbn [enumerate]. unfold andThen.
    rewrite (@complete_step B PlugIn applyIn evalTerm key iter iter_ok r _ b None None st).
    rewrite (Hall' b (or_introl eq_refl)). fold (firstStep r b st).
    unfold exitOf.
    destruct (findOne (set_findOne fOne (child (fst st)))
              && negb (partial (set_findOne fOne (child (fst st))))) eqn:Ee;
      [unfold firstStep; now rewrite (Hall' b (or_introl eq_refl))|].
    rewrite coherent_enumerate_some by (intros b' Hb'; apply Hall'; now right).
    unfold firstStep. rewrite (Hall' b (or_introl eq_refl)).
    destruct l; [reflexivity|]. unfold exitOf. now rewrite Ee.
  - rewrite coherent_enumerate_some by exact Hall'.
    now destruct (sols (body r)).
Qed.

Lemma coherent_else :
  forall erules prev st,
    prev = None \/ prev = Some v0 ->
    (forall v, In v (chainVals vals erules) -> v = v0) ->
    evalValueElse PlugIn applyIn evalTerm (ruleStream body) key iter erules prev fOne None st
    = match firstSolution body erules with
      | None => (inr (None, None), st)
      | Some (r, b) =>
          let st' := match prev with None => firstStep r b st | Some _ => st end in
          match exitOf (set_findOne fOne (child (fst st))) with
          | Some x => (inl x, st')
          | None => (inr (Some v0, None), st')
          end
      end.
Proof.
  induction erules as [|r rest IH]; intros prev st Hprev Hall; [reflexivity|].
  cbn [evalValueElse firstSolution chainVals] in *.
  assert (Hr : forall v, In v (vals r) -> v = v0).
  { intros v Hv. apply Hall. destruct (vals r); [destruct Hv|exact Hv]. }
  rewrite (coherent_rule r st Hprev Hr).
  assert (Hs : vals r = [] <-> sols (body r) = []).
  { unfold vals, ruleVals. split; [apply map_eq_nil|now intros ->]. }
  destruct (sols (body r)) as [|b l] eqn:Es.
  - apply IH; [exact Hprev|]. rewrite (proj2 Hs eq_refl) in Hall. exact Hall.
  - unfold exitOf. now destruct (findOne _ && negb _).
Qed.

Lemma coherent_rules_some :
  forall rules st,
    (forall v, In v (flat_map (fun r => chainVals vals (r :: Else ir r)) rules) -> v = v0) ->
    exists err,
      (err = None \/ err = Some (earlyExitError None))
      /\ evalValueRules PlugIn applyIn evalTerm (ruleStream body) ir key iter rules
           (Some v0) fOne None st = (err, st).
Proof.
  induction rules as [|r rest IH]; intros st Hall.
  - exists None. split; [now left|]. cbn. now destruct (Default ir).
  - cbn [evalValueRules].
    rewrite (coherent_else (r :: Else ir r) st (or_intror eq_refl))
      by (intros v Hv; apply Hall; cbn [flat_map]; apply in_or_app; now left).
    assert (Hrest : forall v,
               In v (flat_map (fun r0 => chainVals vals (r0 :: Else ir r0)) rest) -> v = v0)
      by (intros v Hv; apply Hall; cbn [flat_map]; apply in_or_app; now right).
    destruct (firstSolution body (r :: Else ir r)) as [[r' b]|].
    + cbv zeta. unfold exitOf. destruct (findOne _ && negb _).
      * exists (Some (earlyExitError None)). split; [now right|reflexivity].
      * apply IH. exact Hrest.
    + apply IH. exact Hrest.
Qed.

Lemma firstSolution_app (l1 l2 : list Rule) :
  firstSolution body (l1 ++ l2)
  = match firstSolution body l1 with
    | Some x => Some x
    | None => firstSolution body l2
    end.
Proof.
  induction l1 as [|r l1 IH]; [reflexivity|]. cbn.
  destruct (sols (body r)); [exact IH|reflexivity].
Qed.

Lemma coherent_rules_none :
  forall rules st r b,
    firstSolution body (flat_map (fun r0 => r0 :: Else ir r0) rules) = Some (r, b) ->
    (forall v, In v (flat_map (fun r0 => chainVals vals (r0 :: Else ir r0)) rules) -> v = v0) ->
    exists err,
      (err = None \/ err = Some (earlyExitError None))
      /\ evalValueRules PlugIn applyIn evalTerm (ruleStream body) ir key iter rules
           None fOne None st = (err, firstStep r b st).
Proof.
  induction rules as [|r0 rest IH]; intros st r b Hfirst Hall; [discriminate|].
  cbn [evalValueRules].
  rewrite (coherent_else (r0 :: Else ir r0) st (or_introl eq_refl))
    by (intros v Hv; apply Hall; cbn [flat_map]; apply in_or_app; now left).
  assert (Hrest : forall v,
             In v (flat_map (fun r1 => chainVals vals (r1 :: Else ir r1)) rest) -> v = v0)
    by (intros v Hv; apply Hall; cbn [flat_map]; apply in_or_app; now right).
  cbn [flat_map] in Hfirst. rewrite firstSolution_app in Hfirst.
  destruct (firstSolution body (r0 :: Else ir r0)) as [[r' b']|].
  - injection Hfirst as -> ->. cbv zeta. unfold exitOf.
    destruct (findOne _ && negb _).
    + exists (Some (earlyExitError None)). split; [now right|reflexivity].
    + apply coherent_rules_some. exact Hrest.
  - now apply IH.
Qed.

(** X20. A complete document is evaluated at a reference that is not in
    the virtual cache; its rules have a solution, and the values of its
    rules all are the value at the first solution (no rule body ends in an
    error, the continuation does not fail).  Then the value is put into
    the cache before the continuation runs, the continuation runs once, at
    the first solution, and no error is returned.  When the continuation
    leaves the entry in the cache, a second evaluation in the state this
    leaves is a hit: no rule is evaluated, whatever the rules are, and the
    reference is continued with the cached value. *)
Theorem evalValue_second_evaluation_hits (st : St) (r : Rule) (b : B) :
  vcGet (virtualCache (snd st)) key = (None, false) ->
  firstSolution body (indexedRules ir) = Some (r, b) ->
  v0 = PlugIn b (HeadValue r) ->
  (forall v, In v (allVals vals ir) -> v = v0) ->
  let st' := firstStep r b (onHeap incr_virtualCacheMiss st) in
  evalValue PlugIn applyIn evalTerm (ruleStream body) ir key iter fOne st = (None, st')
  /\ (fst (vcGet (virtualCache (snd st')) key) = Some v0 ->
      forall (evalBody' : Rule -> eval -> forall T : Type, (B -> M T) -> M T)
             (ir' : IndexResult) (iter' : M St) (fOne' : bool),
        evalValue PlugIn applyIn evalTerm evalBody' ir' key iter' fOne' st'
        = evalTerm v0 None iter' (onHeap incr_virtualCacheHit st')).
Proof.
  intros Hmiss Hfirst Hv Hall st'. split.
  - unfold evalValue. rewrite Hmiss. unfold withSuppressEarlyExit.
    destruct (@coherent_rules_none (Rules ir) (onHeap incr_virtualCacheMiss st) r b
                Hfirst Hall) as (err & Herr & ->).
    destruct Herr as [-> | ->]; reflexivity.
  - intros Hkeep evalBody' ir' iter' fOne'. unfold evalValue.
    now rewrite (vcGet_some _ _ Hkeep).
Qed.

End CompleteCoherence.

(** [data.t.p] with the rules [p := 1 if input.a] and [p := 1 if input.b],
    both bodies true; the continuation counts its calls in the hit counter:
    it is called once, and the value is cached once. *)
Lemma evalValue_second_evaluation_hits_witness :
  let body := fun _ : Rule => mkSearch [tt] None in
  let r1 := mkRule 1 [] (Number 1) 0 in
  let r2 := mkRule 2 [] (Number 1) 1 in
  let ir := mkIndexResult [r1; r2] (fun _ => []) None false in
  let key := [Var "data"; String "t"; String "p"] in
  let count : M St := fun s => (None, onHeap incr_virtualCacheHit s) in
  let st := (mkEval false false false 0 None None, mkHeap [] [] [] [] [] [] 0 0 []) in
  evalValue (fun (_ : unit) t => t) (fun b t => (t, b)) (fun _ _ it => it)
    (ruleStream body) ir key count false st
  = (None,
     (mkEval false false false 0 None None,
      mkHeap [[(key, Some (Number 1))]] [] [] [] [] [] 1 1 [])).
Proof.
  intros body r1 r2 ir key count st.
  refine (proj1 (@evalValue_second_evaluation_hits unit (fun _ t => t) (fun b t => (t, b))
                   (fun _ _ it => it) body key count false ir
                   (fun _ => eq_refl) (fun _ _ _ => eq_refl) (Number 1) st r1 tt
                   eq_refl eq_refl eq_refl _)).
  intros v [<-|[<-|[]]]; reflexivity.
Defined.

(** ** The default rule, and a call without a value *)

Section LoopNoValue.

Variable one : Rule -> option Term -> St -> (option Term * Result) * St.
Variable ir : IndexResult.
Variable atEnd : option Term -> St -> St.

Lemma loopElse_no_value :
  forall erules dee st,
    (forall r, In r erules -> forall s, one r None s = ((None, None), s)) ->
    loopElse one erules None dee st = (inr (None, dee), st).
Proof.
  induction erules as [|r rest IH]; intros dee st H; [reflexivity|].
  cbn [loopElse]. rewrite (H r (or_introl eq_refl) st).
  apply IH. intros r' Hr'. apply H. now right.
Qed.

Lemma loopRules_no_value :
  forall rules dee st,
    (forall r r', In r rules -> In r' (r :: Else ir r) ->
                  forall s, one r' None s = ((None, None), s)) ->
    loopRules one ir atEnd rules None dee st = loopRules one ir atEnd [] None dee st.
Proof.
  induction rules as [|r rest IH]; intros dee st H; [reflexivity|].
  cbn [loopRules].
  rewrite loopElse_no_value by (intros r' Hr'; apply (H r r'); [now left|exact Hr']).
  rewrite IH by (intros r0 r' H0 H1; apply (H r0 r'); [now right|exact H1]).
  reflexivity.
Qed.

End LoopNoValue.

Lemma indexedRules_In (ir : IndexResult) (r r' : Rule) :
  In r (Rules ir) -> In r' (r :: Else ir r) -> In r' (indexedRules ir).
Proof.
  intros Hr Hr'. unfold indexedRules. apply in_flat_map. exists r. auto.
Qed.

Section CompleteDefault.

Variable B : Type.
Variable PlugIn : B -> Term -> Term.
Variable applyIn : B -> Term -> Term * B.
Variable evalTerm : Term -> option B -> M St -> M St.
Variable body : Rule -> Search B.
Variable key : Reference.
Variable iter : M St.
Variable fOne : bool.
Variable ir : IndexResult.

(** No rule body ends in an error, and the continuation does not fail. *)
Hypothesis body_fin : forall r, fin (body r) = None.
Hypothesis iter_ok : forall t tb s, fst (evalTerm t tb iter s) = None.

(** X21. A complete document is evaluated at a reference that is not in
    the virtual cache; none of its rules, nor of their else chains, has a
    solution, and there is a default rule, all of whose solutions give the
    same value (no rule body ends in an error, the continuation does not
    fail).  Then the default rule is evaluated like any rule: its value is
    put into the cache, the continuation runs once, at the first solution of
    the default rule, and no error is returned. *)
Theorem evalValue_default_rule (st : St) (d : Rule) (b : B) (l : list B) :
  vcGet (virtualCache (snd st)) key = (None, false) ->
  (forall r, In r (indexedRules ir) -> sols (body r) = []) ->
  Default ir = Some d ->
  sols (body d) = b :: l ->
  (forall b', In b' l -> PlugIn b' (HeadValue d) = PlugIn b (HeadValue d)) ->
  evalValue PlugIn applyIn evalTerm (ruleStream body) ir key iter fOne st
  = (None,
     snd (evalTerm (fst (applyIn b (HeadValue d))) (Some (snd (applyIn b (HeadValue d)))) iter
            (onHeap (set_virtualCache (vcPut key (Some (PlugIn b (HeadValue d)))))
               (onHeap incr_virtualCacheMiss st)))).
Proof.
  intros Hmiss Hnone Hd Hsol Hsame.
  unfold evalValue. rewrite Hmiss. unfold withSuppressEarlyExit.
  rewrite evalValueRules_loop.
  rewrite loopRules_no_value.
  - cbn [loopRules]. rewrite Hd.
    rewrite (@coherent_rule B PlugIn applyIn evalTerm body key iter fOne body_fin iter_ok
               (PlugIn b (HeadValue d)) d None (onHeap incr_virtualCacheMiss st)
               (or_introl eq_refl)).
    + rewrite Hsol. cbv beta.
      destruct (findOne _ && negb _); reflexivity.
    + intros v Hv. unfold ruleVals in Hv. rewrite Hsol in Hv.
      destruct Hv as [<-|Hv]; [reflexivity|].
      apply in_map_iff in Hv. destruct Hv as (b' & <- & Hb'). now apply Hsame.
  - intros r r' Hr Hr' s.
    apply evalValueRule_undefined; [|apply body_fin].
    apply Hnone. now apply indexedRules_In with r.
Qed.

End CompleteDefault.

(** [data.t.p] with the rule [p := 1 if input.a], no input and the default
    rule [default p := 0]; the continuation counts its calls in the hit
    counter. *)
Lemma evalValue_default_rule_witness :
  let r1 := mkRule 1 [] (Number 1) 0 in
  let d := mkRule 2 [] (Number 0) 1 in
  let body := fun r : Rule => mkSearch (if ruleId r =? 2 then [tt] else []) None in
  let ir := mkIndexResult [r1] (fun _ => []) (Some d) false in
  let key := [Var "data"; String "t"; String "p"] in
  let count : M St := fun s => (None, onHeap incr_virtualCacheHit s) in
  let st := (mkEval false false false 0 None None, mkHeap [] [] [] [] [] [] 0 0 []) in
  evalValue (fun (_ : unit) t => t) (fun b t => (t, b)) (fun _ _ it => it)
    (ruleStream body) ir key count false st
  = (None,
     (mkEval false false false 0 None None,
      mkHeap [[(key, Some (Number 0))]] [] [] [] [] [] 1 1 [])).
Proof.
  intros r1 d body ir key count st.
  refine (@evalValue_default_rule unit (fun _ t => t) (fun b t => (t, b))
            (fun _ _ it => it) body key count false ir
            (fun _ => eq_refl) (fun _ _ _ => eq_refl) st d tt [] eq_refl _ eq_refl
            eq_refl (fun _ H => match H with end)).
  intros r [<-|[]]. reflexivity.
Defined.

Section FunctionDefault.

Variable B : Type.
Variable PlugIn : B -> Term -> Term.
Variable Plug : Term -> Term.
Variable IsGround : Term -> bool.
Variable unify : Term -> Term -> M St -> M St.
Variable saveContains : B -> Term -> bool.
Variable saveExpr : B -> Term -> M St -> M St.
Variable body : Rule -> Search B.
Variable terms : list Term.
Variable iter : M St.
Variable fOne : bool.
Variable argCount : nat.
Variable ir : IndexResult.

Let key := funcCacheKey IsGround Plug terms argCount.

Lemma evalOneRule_no_solution (cacheKey : option Reference) (r : Rule)
  (prev : option Term) (st : St) :
  sols (body r) = [] -> fin (body r) = None ->
  evalOneRule PlugIn saveContains saveExpr (ruleStream body) terms iter r cacheKey prev fOne st
  = ((None, None), st).
Proof.
  intros Hs Hf. unfold evalOneRule, ruleStream, evalQuery. now rewrite Hs, Hf.
Qed.

(** X22. A function is called outside partial evaluation and the call is
    not in the virtual cache; none of its rules has a solution (their bodies
    end without an error) and there is no default rule.  Then the call is
    undefined: the continuation is not called, no error is returned and one
    miss is counted.  Nothing is written to the cache, so a second call with
    the same operands is a miss again and evaluates the rules again. *)
Theorem evalFunc_undefined_not_cached (st : St) :
  partial (fst st) = false ->
  fst (vcGet (virtualCache (snd st)) key) = None ->
  (forall r, In r (indexedRules ir) -> sols (body r) = [] /\ fin (body r) = None) ->
  Default ir = None ->
  let call := evalFuncValue PlugIn Plug IsGround unify saveContains saveExpr
                (ruleStream body) terms ir iter argCount fOne in
  call st = (None, onHeap incr_virtualCacheMiss st)
  /\ virtualCache (snd (snd (call st))) = virtualCache (snd st)
  /\ call (snd (call st))
     = (None, onHeap incr_virtualCacheMiss (onHeap incr_virtualCacheMiss st)).
Proof.
  intros HG Hmiss Hnone Hd call.
  assert (Hcall : forall s,
             partial (fst s) = false ->
             fst (vcGet (virtualCache (snd s)) key) = None ->
             call s = (None, onHeap incr_virtualCacheMiss s)).
  { intros s Hp Hm. unfold call.
    rewrite (@evalFuncValue_miss B PlugIn Plug IsGround unify saveContains saveExpr body
               terms iter fOne argCount ir s Hp Hm).
    unfold withSuppressEarlyExit.
    rewrite loopRules_no_value.
    - cbn [loopRules]. now rewrite Hd.
    - intros r r' Hr Hr' s0.
      destruct (Hnone r' (@indexedRules_In ir r r' Hr Hr')) as [Hs Hf].
      now apply evalOneRule_no_solution. }
  assert (Hc : virtualCache (snd (onHeap incr_virtualCacheMiss st)) = virtualCache (snd st))
    by (destruct st as [e h]; destruct h; reflexivity).
  rewrite (Hcall st HG Hmiss). cbn [snd].
  split; [reflexivity|]. split; [exact Hc|].
  apply Hcall.
  - destruct st as [e h]. exact HG.
  - cbn [snd] in Hc. rewrite Hc. exact Hmiss.
Qed.

(** No rule ends in an error of its own; outside partial evaluation the save
    set is nil; the continuation does not fail and stays outside partial
    evaluation. *)
Hypothesis body_fin : forall r, fin (body r) = None.
Hypothesis save_nil : forall b t, saveContains b t = false.
Hypothesis iter_ok :
  forall s, partial (fst s) = false ->
            fst (iter s) = None /\ partial (fst (snd (iter s))) = false.

(** X23. A function is called outside partial evaluation and the call is
    not in the virtual cache; none of its rules, nor of their else chains,
    has a solution, and there is a default rule, with as many arguments as
    the call, all of whose solutions give the same value.  Then the default
    rule gives the value of the call: the value is put into the cache, the
    continuation is called once (not at all where the call leaves the output
    out and the value is false), every further solution of the default rule
    only writes the value to the cache again, and no error is returned. *)
Theorem evalFunc_default_rule (st : St) (d : Rule) (v : Term) (rest : list Term) :
  partial (fst st) = false ->
  fst (vcGet (virtualCache (snd st)) key) = None ->
  (forall r, In r (indexedRules ir) -> sols (body r) = []) ->
  Default ir = Some d ->
  length (HeadArgs d) = argCount ->
  ruleVals PlugIn body d = v :: rest ->
  allSame (v :: rest) = true ->
  evalFuncValue PlugIn Plug IsGround unify saveContains saveExpr (ruleStream body) terms ir
    iter argCount fOne st
  = (None,
     let st1 := firstValue terms iter argCount key v (onHeap incr_virtualCacheMiss st) in
     if fOne then st1 else Nat.iter (length rest) (cachePut key v) st1).
Proof.
  intros HG Hmiss Hnone Hd Har Hv Hsame.
  rewrite (@evalFuncValue_miss B PlugIn Plug IsGround unify saveContains saveExpr body
             terms iter fOne argCount ir st HG Hmiss).
  unfold withSuppressEarlyExit.
  rewrite loopRules_no_value.
  - cbn [loopRules]. rewrite Hd.
    pose proof (@evalOneRule_same B PlugIn Plug IsGround saveContains saveExpr body terms
                  iter fOne argCount body_fin save_nil iter_ok d v None
                  (onHeap incr_virtualCacheMiss st) HG (or_introl eq_refl) Har) as H.
    cbv beta in H. rewrite H; clear H.
    + rewrite Hv. destruct fOne; reflexivity.
    + rewrite Hv. intros w [<-|Hw]; [reflexivity|].
      apply allSame_iff in Hsame. apply Hsame; [now right|now left].
  - intros r r' Hr Hr' s.
    apply evalOneRule_no_solution; [|apply body_fin].
    apply Hnone. now apply indexedRules_In with r.
Qed.

End FunctionDefault.

(** The call [f(7, x)] of a function with the rule [f(a) := 1 if input.a]
    and no input: undefined, and the cache stays empty. *)
Lemma evalFunc_undefined_not_cached_witness :
  let body := fun _ : Rule => mkSearch (@nil Term) None in
  let r1 := mkRule 1 [Var "a"] (Number 1) 0 in
  let ir := mkIndexResult [r1] (fun _ => []) None false in
  let terms := [Ref [Var "data"; String "f"]; Number 7; Var "x"] in
  let st := (mkEval false false false 0 None None, mkHeap [] [] [] [] [] [] 0 0 []) in
  evalFuncValue (fun (b : Term) _ => b) (fun t => t) (fun _ => true)
    (fun _ _ it => it) (fun _ _ => false) (fun _ _ it => it)
    (ruleStream body) terms ir (fun s => (Some CancelErr, s)) 1 false st
  = (None,
     (mkEval false false false 0 None None, mkHeap [] [] [] [] [] [] 0 1 [])).
Proof.
  intros body r1 ir terms st.
  exact (proj1 (@evalFunc_undefined_not_cached Term (fun b _ => b) (fun t => t)
                  (fun _ => true) (fun _ _ it => it) (fun _ _ => false)
                  (fun _ _ it => it) body terms (fun s => (Some CancelErr, s)) false 1 ir
                  st eq_refl eq_refl (fun _ _ => conj eq_refl eq_refl) eq_refl)).
Defined.

(** The call [f(7, x)] of a function with the rule [f(a) := 1 if input.a],
    no input and the default rule [default f(_) := 0]. *)
Lemma evalFunc_default_rule_witness :
  let r1 := mkRule 1 [Var "a"] (Number 1) 0 in
  let d := mkRule 2 [Var "_"] (Number 0) 1 in
  let body := fun r : Rule => mkSearch (if ruleId r =? 2 then [Number 0] else []) None in
  let ir := mkIndexResult [r1] (fun _ => []) (Some d) false in
  let terms := [Ref [Var "data"; String "f"]; Number 7; Var "x"] in
  let key := [Ref [Var "data"; String "f"]; Number 7] in
  let count : M St := fun s => (None, onHeap incr_virtualCacheHit s) in
  let st := (mkEval false false false 0 None None, mkHeap [] [] [] [] [] [] 0 0 []) in
  evalFuncValue (fun (b : Term) _ => b) (fun t => t) (fun _ => true)
    (fun _ _ it => it) (fun _ _ => false) (fun _ _ it => it)
    (ruleStream body) terms ir count 1 false st
  = (None,
     (mkEval false false false 0 None None,
      mkHeap [[(key, Some (Number 0))]] [] [] [] [] [] 1 1 [])).
Proof.
  intros r1 d body ir terms key count st.
  refine (@evalFunc_default_rule Term (fun b _ => b) (fun t => t) (fun _ => true)
            (fun _ _ it => it) (fun _ _ => false) (fun _ _ it => it) body terms
            count false 1 ir (fun _ => eq_refl) (fun _ _ => eq_refl)
            (fun s H => conj eq_refl H) st d (Number 0) [] eq_refl eq_refl _ eq_refl
            eq_refl eq_refl eq_refl).
  intros r [<-|[]]. reflexivity.
Defined.

(** ** Walking a collection: deferred early exits *)

Section EnumerateFacts.

Variable S : Type.
Variable asDeferred : Error -> option Error.

Lemma visited_app {A} (visit : A -> M S) (xs ys : list A) (st : S) :
  visited visit (xs ++ ys) st = visited visit ys (visited visit xs st).
Proof. apply fold_left_app. Qed.

Lemma quiet_app {A} (visit : A -> M S) (xs ys : list A) :
  forall st, quiet visit (xs ++ ys) st
             <-> quiet visit xs st /\ quiet visit ys (visited visit xs st).
Proof.
  induction xs as [|x xs IH]; intros st; cbn [app quiet visited fold_left].
  - tauto.
  - fold (visited visit xs (snd (visit x st))). rewrite IH. tauto.
Qed.

Lemma soft_app {A} (visit : A -> M S) (xs ys : list A) :
  forall st, soft asDeferred visit (xs ++ ys) st
             <-> soft asDeferred visit xs st
                 /\ soft asDeferred visit ys (visited visit xs st).
Proof.
  induction xs as [|x xs IH]; intros st; cbn [app soft visited fold_left].
  - tauto.
  - fold (visited visit xs (snd (visit x st))). rewrite IH. tauto.
Qed.

Lemma quiet_soft {A} (visit : A -> M S) (xs : list A) :
  forall st, quiet visit xs st -> soft asDeferred visit xs st.
Proof.
  induction xs as [|x xs IH]; intros st; cbn [quiet soft]; [tauto|].
  intros [H1 H2]. rewrite H1. split; [exact I|now apply IH].
Qed.

Lemma visitAll_app {A} (handle : option Error -> Result -> Result * option Error)
  (visit : A -> M S) (xs ys : list A) :
  forall d st,
    visitAll handle visit (xs ++ ys) d st
    = let '((err, d'), st1) := visitAll handle visit xs d st in
      match err with
      | Some e => ((Some e, d'), st1)
      | None => visitAll handle visit ys d' st1
      end.
Proof.
  induction xs as [|x xs IH]; intros d st; [reflexivity|].
  cbn [app visitAll]. destruct (visit x st) as [err st1].
  destruct (handle d err) as [[e|] d']; [reflexivity|apply IH].
Qed.

Lemma visitAll_quiet {A} (handle : option Error -> Result -> Result * option Error)
  (visit : A -> M S) (xs : list A) :
  (forall d, handle d None = (None, d)) ->
  forall d st,
    quiet visit xs st ->
    visitAll handle visit xs d st = ((None, d), visited visit xs st).
Proof.
  intros Hh. induction xs as [|x xs IH]; intros d st Hq; [reflexivity|].
  cbn [visitAll visited fold_left]. destruct Hq as [H1 H2].
  destruct (visit x st) as [err st1]. cbn [fst snd] in *. subst err.
  rewrite Hh. now apply IH.
Qed.

Lemma visitAll_one {A} (handle : option Error -> Result -> Result * option Error)
  (visit : A -> M S) (x : A) (d : option Error) (st : S) :
  visitAll handle visit [x] d st
  = (handle d (fst (visit x st)), snd (visit x st)).
Proof.
  cbn [visitAll]. destruct (visit x st) as [err st1]. cbn [fst snd].
  now destruct (handle d err) as [[e|] d'].
Qed.

(** The loop of [evalTerm.enumerate] goes through deferred early exits. *)
Lemma termLoop_soft {A} (visit : A -> M S) (xs : list A) :
  forall d st,
    soft asDeferred visit xs st ->
    exists d',
      visitAll (termHandleErr asDeferred) visit xs d st = ((None, d'), visited visit xs st)
      /\ (d <> None -> d' = d).
Proof.
  induction xs as [|x xs IH]; intros d st Hs.
  - exists d. split; [reflexivity|auto].
  - cbn [visitAll visited fold_left]. destruct Hs as [H1 H2].
    destruct (visit x st) as [[e|] st1]; cbn [fst snd termHandleErr] in *.
    + destruct (asDeferred e) as [dee|]; [|contradiction].
      destruct (IH (match d with None => Some dee | Some _ => d end) st1 H2)
        as (d' & E & Hd).
      exists d'. split; [exact E|].
      intros Hn. destruct d as [d0|]; [|contradiction]. now apply Hd.
    + exact (IH d st1 H2).
Qed.

Lemma evalTermEnumerate_loop (term : Term) (refIsVar : bool)
  (visitIndex visit : Term -> M S) (st : S) :
  evalTermEnumerate asDeferred term refIsVar visitIndex visit st
  = let '((err, deferredEe), st1) :=
      visitAll (termHandleErr asDeferred) (termVisit term visitIndex visit)
        (termElements term refIsVar) None st in
    match err with
    | Some e => (Some e, st1)
    | None => (deferredEe, st1)
    end.
Proof.
  unfold evalTermEnumerate, termVisit, termElements.
  destruct term; try reflexivity. now destruct refIsVar.
Qed.

(** X24. [evalTerm.enumerate] goes through deferred early exits: when
    every error of a visit is a deferred early exit, every element of the
    collection is visited; the result is nil when no visit returns an error,
    and the first deferred early exit otherwise, returned once the last
    element has been visited.  The first error that is not a deferred early
    exit ends the loop at once and is returned, also when a deferred early
    exit was held back before. *)
Theorem evalTermEnumerate_holds_deferred (term : Term) (refIsVar : bool)
  (visitIndex visit : Term -> M S) (st : S) :
  let xs := termElements term refIsVar in
  let step := termVisit term visitIndex visit in
  let run := evalTermEnumerate asDeferred term refIsVar visitIndex visit in
  (soft asDeferred step xs st -> snd (run st) = visited step xs st)
  /\ (quiet step xs st -> fst (run st) = None)
  /\ (forall pre k post e dee,
         xs = pre ++ k :: post -> quiet step pre st ->
         fst (step k (visited step pre st)) = Some e -> asDeferred e = Some dee ->
         soft asDeferred step post (visited step (pre ++ [k]) st) ->
         run st = (Some dee, visited step xs st))
  /\ (forall pre k post e,
         xs = pre ++ k :: post -> soft asDeferred step pre st ->
         fst (step k (visited step pre st)) = Some e -> asDeferred e = None ->
         run st = (Some e, visited step (pre ++ [k]) st)).
Proof.
  intros xs step run.
  assert (Hrun : forall s, run s
            = let '((err, deferredEe), st1) :=
                visitAll (termHandleErr asDeferred) step xs None s in
              match err with
              | Some e => (Some e, st1)
              | None => (deferredEe, st1)
              end)
    by (intros s; apply evalTermEnumerate_loop).
  split; [|split; [|split]].
  - intros Hs. rewrite Hrun.
    destruct (termLoop_soft step xs None st Hs) as (d' & -> & _). reflexivity.
  - intros Hq. rewrite Hrun.
    rewrite visitAll_quiet by (reflexivity || exact Hq). reflexivity.
  - intros pre k post e dee Hxs Hpre Hk He Hpost. rewrite Hrun, Hxs.
    change (pre ++ k :: post) with (pre ++ [k] ++ post).
    rewrite visitAll_app, visitAll_quiet by (reflexivity || exact Hpre).
    rewrite visitAll_app, visitAll_one, Hk. cbn [termHandleErr]. rewrite He.
    rewrite visited_app in Hpost. cbn [visited fold_left] in Hpost.
    fold (visited step pre st) in Hpost.
    destruct (termLoop_soft step post (Some dee) _ Hpost) as (d' & -> & Hd).
    rewrite (Hd ltac:(discriminate)).
    rewrite !visited_app. reflexivity.
  - intros pre k post e Hxs Hpre Hk He. rewrite Hrun, Hxs.
    change (pre ++ k :: post) with (pre ++ [k] ++ post).
    rewrite visitAll_app.
    destruct (termLoop_soft step pre None st Hpre) as (d' & -> & _).
    rewrite visitAll_app, visitAll_one, Hk. cbn [termHandleErr]. rewrite He.
    rewrite visited_app. reflexivity.
Qed.

(** X25. [evalTree.enumerate] holds back one deferred early exit only.
    For a base document whose keys are visited without an error, the keys of
    the virtual documents below the node are visited next, and there the
    first error ends the walk.  When one visit of a key of the base document
    ends in a deferred early exit and the later ones in no error, all keys of
    the base document are visited, the deferred early exit is returned and
    the keys of the virtual documents are not visited.  A second error, be it
    a deferred early exit or not, ends the loop at the key it occurs at and
    is returned in place of the first; an error that is not a deferred early
    exit ends the loop at once. *)
Theorem evalTreeEnumerate_one_deferred (saveUnify : M S) (doc : Value)
  (sorted : option (list Value)) (visit : Term -> M S) (st : S) :
  let run := evalTreeEnumerate asDeferred false saveUnify (inr (Some doc)) sorted visit in
  (quiet visit (docKeys doc) st ->
   run st = match sorted with
            | None => (None, visited visit (docKeys doc) st)
            | Some ks => enumerate ks None visit (visited visit (docKeys doc) st)
            end)
  /\ (forall pre k post e dee,
         docKeys doc = pre ++ k :: post -> quiet visit pre st ->
         fst (visit k (visited visit pre st)) = Some e -> asDeferred e = Some dee ->
         (quiet visit post (visited visit (pre ++ [k]) st) ->
          run st = (Some dee, visited visit (docKeys doc) st))
         /\ (forall mid k' post' e',
                post = mid ++ k' :: post' ->
                quiet visit mid (visited visit (pre ++ [k]) st) ->
                fst (visit k' (visited visit (pre ++ k :: mid) st)) = Some e' ->
                run st = (Some e', visited visit (pre ++ k :: mid ++ [k']) st)))
  /\ (forall pre k post e,
         docKeys doc = pre ++ k :: post -> quiet visit pre st ->
         fst (visit k (visited visit pre st)) = Some e -> asDeferred e = None ->
         run st = (Some e, visited visit (pre ++ [k]) st)).
Proof.
  intros run.
  assert (Hh : forall d, handleErr asDeferred d None = (None, d)) by reflexivity.
  split; [|split].
  - intros Hq. unfold run, evalTreeEnumerate.
    rewrite visitAll_quiet by assumption. reflexivity.
  - intros pre k post e dee Hxs Hpre Hk He.
    assert (Hstart : forall ys,
               visitAll (handleErr asDeferred) visit (pre ++ [k] ++ ys) None st
               = visitAll (handleErr asDeferred) visit ys (Some dee)
                   (visited visit (pre ++ [k]) st)).
    { intros ys. rewrite visitAll_app, visitAll_quiet by assumption.
      rewrite visitAll_app, visitAll_one, Hk. cbn [handleErr]. rewrite He.
      rewrite visited_app. reflexivity. }
    split.
    + intros Hpost. unfold run, evalTreeEnumerate. rewrite Hxs.
      change (pre ++ k :: post) with (pre ++ [k] ++ post).
      rewrite Hstart, visitAll_quiet by assumption.
      rewrite (app_assoc pre [k] post), (visited_app visit (pre ++ [k]) post).
      reflexivity.
    + intros mid k' post' e' Hpost Hmid Hk'.
      unfold run, evalTreeEnumerate. rewrite Hxs, Hpost.
      change (pre ++ k :: mid ++ k' :: post')
        with (pre ++ [k] ++ (mid ++ [k'] ++ post')).
      rewrite Hstart, visitAll_app, visitAll_quiet by assumption.
      rewrite visitAll_app, visitAll_one.
      change (pre ++ k :: mid) with (pre ++ [k] ++ mid) in Hk'.
      rewrite (app_assoc pre [k] mid), (visited_app visit (pre ++ [k]) mid) in Hk'.
      rewrite Hk'. cbn [handleErr].
      change (pre ++ k :: mid ++ [k']) with (pre ++ [k] ++ (mid ++ [k'])).
      rewrite (app_assoc pre [k] (mid ++ [k'])),
        (visited_app visit (pre ++ [k]) (mid ++ [k'])), (visited_app visit mid [k']).
      reflexivity.
  - intros pre k post e Hxs Hpre Hk He.
    unfold run, evalTreeEnumerate. rewrite Hxs.
    change (pre ++ k :: post) with (pre ++ [k] ++ post).
    rewrite visitAll_app, visitAll_quiet by assumption.
    rewrite visitAll_app, visitAll_one, Hk. cbn [handleErr]. rewrite He.
    rewrite visited_app. reflexivity.
Qed.

End EnumerateFacts.

(** The visits append the key to a log; the visits of the indices 0 and 1
    end in a deferred early exit.  [evalTerm.enumerate] visits the three
    indices of an array and returns the first deferred early exit. *)
Lemma evalTermEnumerate_holds_deferred_witness :
  let asD := fun e => if isDeferredEarlyExit e then Some e else None in
  let visit : Term -> M (list Term) :=
    fun k log =>
      (match k with
       | Number 0%Z => Some (deferredEarlyExitError None)
       | Number 1%Z => Some (deferredEarlyExitError (Some CancelErr))
       | _ => None
       end, log ++ [k]) in
  evalTermEnumerate asD (Array [Null; Null; Null]) true visit visit []
  = (Some (deferredEarlyExitError None), [Number 0; Number 1; Number 2]).
Proof.
  intros asD visit.
  apply (proj1 (proj2 (proj2
           (@evalTermEnumerate_holds_deferred (list Term) asD (Array [Null; Null; Null])
              true visit visit [])))
           [] (Number 0) [Number 1; Number 2] (deferredEarlyExitError None)
           (deferredEarlyExitError None)).
  - reflexivity.
  - exact I.
  - reflexivity.
  - reflexivity.
  - vm_compute. repeat split. discriminate.
Defined.

(** With the same visits [evalTree.enumerate] stops at the index 1 and
    returns the second deferred early exit. *)
Lemma evalTreeEnumerate_one_deferred_witness :
  let asD := fun e => if isDeferredEarlyExit e then Some e else None in
  let visit : Term -> M (list Term) :=
    fun k log =>
      (match k with
       | Number 0%Z => Some (deferredEarlyExitError None)
       | Number 1%Z => Some (deferredEarlyExitError (Some CancelErr))
       | _ => None
       end, log ++ [k]) in
  evalTreeEnumerate asD false (fun s => (None, s)) (inr (Some (Array [Null; Null; Null])))
    (Some [String "p"]) visit []
  = (Some (deferredEarlyExitError (Some CancelErr)), [Number 0; Number 1]).
Proof.
  intros asD visit.
  destruct (proj1 (proj2
              (@evalTreeEnumerate_one_deferred (list Term) asD (fun s => (None, s))
                 (Array [Null; Null; Null]) (Some [String "p"]) visit []))
              [] (Number 0) [Number 1; Number 2] (deferredEarlyExitError None)
              (deferredEarlyExitError None)) as [_ H];
    [reflexivity|exact I|reflexivity|reflexivity|].
  apply (H [] (Number 1) [Number 2] (deferredEarlyExitError (Some CancelErr)));
    [reflexivity|exact I|reflexivity].
Defined.

(** ** evalTerm.get: the lookup of a ground operand *)

Section EvalTermGetFacts.

Variable B : Type.
Variable PlugT : Term -> Term.
Variable applyT : Term -> Term * B.
Variable IsGround : Term -> bool.
Variable arrayGet : list Term -> Term -> option Term.

(** Plugging leaves a ground term as it is; the elements of a ground set and
    the keys of a ground object are ground. *)
Hypothesis plug_ground : forall t, IsGround t = true -> PlugT t = t.
Hypothesis ground_set :
  forall elems x, IsGround (SetV elems) = true -> In x elems -> IsGround x = true.
Hypothesis ground_object :
  forall items k v, IsGround (Object items) = true -> In (k, v) items -> IsGround k = true.

Lemma Get_find (items : Obj) (plugged : Term) :
  (forall k v, In (k, v) items -> PlugT k = k) ->
  Get items plugged
  = match find (fun kv => Equal (PlugT (fst kv)) plugged) items with
    | Some (_, v) => Some v
    | None => None
    end.
Proof.
  induction items as [|[k v] rest IH]; intros H; [reflexivity|].
  cbn [Get find fst]. rewrite (H k v (or_introl eq_refl)).
  destruct (Equal k plugged); [reflexivity|].
  apply IH. intros k' v' Hin. apply (H k' v'). now right.
Qed.

Lemma find_key_None (items : Obj) (plugged : Term) :
  find (fun kv => Equal (PlugT (fst kv)) plugged) items = None
  <-> forall k v, In (k, v) items -> PlugT k <> plugged.
Proof.
  split.
  - intros Hf k v Hin Heq.
    pose proof (find_none _ _ Hf (k, v) Hin) as Hn. cbn [fst] in Hn.
    rewrite Heq, Equal_refl in Hn. discriminate.
  - intros H. destruct (find (fun kv => Equal (PlugT (fst kv)) plugged) items) as [[k v]|] eqn:Ef; [|reflexivity].
    apply find_some in Ef. destruct Ef as [Hin He]. cbn [fst] in He.
    apply Equal_true in He. now destruct (H k v Hin).
Qed.

(** X26. [evalTerm.get] takes a short cut for a ground set or object.
    The short cut gives what the walk over the elements gives: the result
    does not depend on which of the two ways is taken.  For an object, the
    result is the value, under the bindings of the term, of the first item
    whose plugged key is the operand, and nil when no plugged key is the
    operand. *)
Theorem evalTermGet_ground_path (term plugged : Term) :
  evalTermGet PlugT applyT IsGround arrayGet term plugged
  = evalTermGet PlugT applyT (fun _ => false) arrayGet term plugged
  /\ (forall items,
         term = Object items ->
         (evalTermGet PlugT applyT IsGround arrayGet term plugged = None
          <-> forall k v, In (k, v) items -> PlugT k <> plugged)
         /\ forall r,
              evalTermGet PlugT applyT IsGround arrayGet term plugged = Some r ->
              exists pre k v post,
                items = pre ++ (k, v) :: post /\ PlugT k = plugged /\ r = applyT v
                /\ forall k' v', In (k', v') pre -> PlugT k' <> plugged).
Proof.
  assert (Hsame : evalTermGet PlugT applyT IsGround arrayGet term plugged
                  = evalTermGet PlugT applyT (fun _ => false) arrayGet term plugged).
  { unfold evalTermGet. destruct term as [| | | | | |elems|items|elems| | | |];
      try reflexivity.
    - destruct (IsGround (Object items)) eqn:Eg; [|reflexivity].
      rewrite Get_find.
      + assert (Ho : forall o : option (Term * Term),
                   match match o with Some (_, v) => Some v | None => None end with
                   | Some t => Some (applyT t)
                   | None => None
                   end
                   = match o with Some (_, v) => Some (applyT v) | None => None end)
          by (intros [[? ?]|]; reflexivity).
        apply Ho.
      + intros k v Hin. apply plug_ground. exact (@ground_object items k v Eg Hin).
    - destruct (IsGround (SetV elems)) eqn:Eg; [|reflexivity].
      assert (E : existsb (fun elem => Equal elem plugged) elems
                  = existsb (fun elem => Equal (PlugT elem) plugged) elems).
      { assert (Hg : forall x, In x elems -> PlugT x = x)
          by (intros x Hx; apply plug_ground; exact (@ground_set elems x Eg Hx)).
        clear Eg. induction elems as [|x rest IH]; [reflexivity|].
        cbn [existsb]. rewrite (Hg x (or_introl eq_refl)).
        rewrite IH; [reflexivity|]. intros y Hy. apply Hg. now right. }
      now rewrite E. }
  split; [exact Hsame|].
  intros items ->. rewrite Hsame. cbn [evalTermGet].
  split.
  - match goal with
    | |- context [find ?f items] => destruct (find f items) as [[k v]|] eqn:Ef
    end.
    + split; [discriminate|]. intros H. apply find_key_None in H.
      discriminate (eq_trans (eq_sym Ef) H).
    + split; [|reflexivity]. intros _. apply find_key_None. exact Ef.
  - intros r Hr.
    match goal with
    | _ : context [find ?f items] |- _ => destruct (find f items) as [[k v]|] eqn:Ef
    end; [|discriminate].
    injection Hr as <-.
    clear Hsame. induction items as [|[k0 v0] rest IH]; [discriminate|].
    cbn [find fst] in Ef. destruct (Equal (PlugT k0) plugged) eqn:E0.
    + injection Ef as -> ->. apply Equal_true in E0.
      exists [], k, v, rest. repeat split; auto; intros k' v' [].
    + destruct (IH Ef) as (pre & k1 & v1 & post & -> & Hk & Hv & Hpre).
      exists ((k0, v0) :: pre), k1, v1, post. repeat split; auto.
      intros k' v' [[= <- <-]|Hin]; [|now apply (Hpre k' v')].
      intros Heq. rewrite Heq, Equal_refl in E0. discriminate.
Qed.

End EvalTermGetFacts.

(** The object [{"a": 1, "b": 2}] at the operand ["b"]. *)
Lemma evalTermGet_ground_path_witness :
  evalTermGet (fun t => t) (fun t => (t, tt)) (fun _ => true) (fun _ _ => None)
    (Object [(String "a", Number 1); (String "b", Number 2)]) (String "b")
  = evalTermGet (fun t => t) (fun t => (t, tt)) (fun _ => false) (fun _ _ => None)
      (Object [(String "a", Number 1); (String "b", Number 2)]) (String "b").
Proof.
  exact (proj1 (@evalTermGet_ground_path unit (fun t => t) (fun t => (t, tt))
                  (fun _ => true) (fun _ _ => None) (fun _ _ => eq_refl)
                  (fun _ _ _ _ => eq_refl) (fun _ _ _ _ _ => eq_refl)
                  (Object [(String "a", Number 1); (String "b", Number 2)]) (String "b"))).
Defined.
